(** * Alert-correlation pipeline: a shallow embedding of the browser-side
      correlator (dedup worker, cluster worker, score worker, the simplified
      engine of main.js and the K8s threshold engine).

    Conventions of the embedding.
    - Epoch-millisecond timestamps, counters and sizes are [Z]; the JS code
      only adds, subtracts and compares them, which is exact on doubles below
      2^53.
    - JS strings are Stdlib strings; optional string fields are
      [option string], and the JS idiom [a || b || 'na'] picks the first
      operand that is present and non-empty.  Where the code looks inside
      the characters of a string (the lower-casing of the dedup key), the
      Stdlib string is read as the UTF-8 encoding of the JS string.
    - A call that can throw returns an [Outcome]; a plain object used as a
      dictionary is a [gmap] of its own properties, looked up together with
      the names it inherits from [Object.prototype].
    - [Date.now()] is an explicit argument of every function that reads it.
    - JS [Map]s that are only looked up by key are [gmap]s; JS [Map]s and
      [Set]s whose iteration order reaches the output are insertion-ordered
      association lists / duplicate-free lists.
    - Scores are fractions of integers, possibly under a square root and next
      to a natural logarithm; they are modelled exactly (rationals, and reals
      where [Math.sqrt] and [Math.log] occur), not as rounded doubles: a
      statement about them is a statement about the exact value of the
      expression the code evaluates, from which the double the code holds
      differs by the rounding of each operation. *)

From Stdlib Require Import ZArith QArith Reals Lra Lia String Ascii List Bool.
From stdpp Require Import gmap strings list fin_maps sorting pretty.

Local Open Scope string_scope.
Local Open Scope Z_scope.

(** ** JavaScript idioms *)

(** Truthiness of an optional string: present and not the empty string. *)
Definition truthy (o : option string) : bool :=
  match o with
  | Some s => negb (String.eqb s "")
  | None => false
  end.

(** [a || rest] on optional strings. *)
Definition js_or (a : option string) (rest : option string) : option string :=
  if truthy a then a else rest.

(** String interpolation of a possibly-undefined value. *)
Definition js_template (o : option string) : string :=
  match o with
  | Some s => s
  | None => "undefined"
  end.

(** A call either returns a value or throws ([TypeError] is the only
    exception the embedded code can raise). *)
Inductive Outcome (A : Type) : Type :=
| Returns (a : A)
| Throws.
Arguments Returns {A} a.
Arguments Throws {A}.

Definition bind_outcome {A B} (x : Outcome A) (f : A -> Outcome B) : Outcome B :=
  match x with
  | Returns a => f a
  | Throws => Throws
  end.

(** [m.get(k) || 0] on a numeric map. *)
Definition get_or_0 (m : gmap string Z) (k : string) : Z :=
  default 0 (m !! k).

(** ** Alerts (src/types.ts) *)

Inductive Status := firing | resolved | info.

Inductive Severity := low | medium | high | critical.

#[global] Instance Status_eq_dec : EqDecision Status.
Proof. solve_decision. Defined.

#[global] Instance Severity_eq_dec : EqDecision Severity.
Proof. solve_decision. Defined.

Definition severity_str (s : Severity) : string :=
  match s with
  | low => "low" | medium => "medium" | high => "high" | critical => "critical"
  end.

Record Alert := mkAlert {
  ts : Z;
  source : string;
  vendor_event_id : string;
  fingerprint : string;
  kind : string;
  title : option string;      (* read by the workers, absent from the type *)
  status : Status;
  severity : Severity;
  service : option string;
  component : option string;
  resource : option string;
  entity_key : option string;
  deploy_key : option string
}.

(** [alert.entity_key || alert.service || alert.component || alert.resource || 'na'] *)
Definition entityKeyOf (a : Alert) : string :=
  default "na"
    (js_or (entity_key a) (js_or (service a) (js_or (component a)
       (js_or (resource a) (Some "na"))))).

(** Stable sort on an integer key, as
    [Array.prototype.sort((a, b) => key(a) - key(b))] (the JS sort is
    stable): insertion from the right, an element going in front of the first
    one whose key is not smaller. *)
Section Sort.
Context {A : Type} (key : A -> Z).

Fixpoint insert_by (x : A) (l : list A) : list A :=
  match l with
  | [] => [x]
  | y :: l' => if key x <=? key y then x :: y :: l' else y :: insert_by x l'
  end.

Definition sort_by (l : list A) : list A := foldr insert_by [] l.
End Sort.

Definition sort_by_ts : list Alert -> list Alert := sort_by ts.

(** ** Insertion-ordered maps (JS [Map] when iteration order matters) *)

Module OMap.
Section OMap.
Context {K V : Type} `{EqDecision K}.

Fixpoint get (m : list (K * V)) (k : K) : option V :=
  match m with
  | [] => None
  | (k', v) :: m' => if decide (k' = k) then Some v else get m' k
  end.

(** [Map.prototype.set]: an existing key keeps its position, a new one is
    appended. *)
Fixpoint set (m : list (K * V)) (k : K) (v : V) : list (K * V) :=
  match m with
  | [] => [(k, v)]
  | (k', v') :: m' =>
      if decide (k' = k) then (k, v) :: m' else (k', v') :: set m' k v
  end.

Fixpoint delete (m : list (K * V)) (k : K) : list (K * V) :=
  match m with
  | [] => []
  | (k', v') :: m' =>
      if decide (k' = k) then m' else (k', v') :: delete m' k
  end.

Definition values (m : list (K * V)) : list V := map snd m.
End OMap.
End OMap.

(** [Set.prototype.add] / [if (!arr.includes(x)) arr.push(x)] on an
    insertion-ordered set. *)
Definition set_add (l : list string) (x : string) : list string :=
  if decide (x ∈ l) then l else (l ++ [x])%list.

(** ** Episodes (src/types.ts) *)

Record Episode := mkEpisode {
  ep_entity_key : string;
  ep_fingerprint : string;
  vendorMix : list string;     (* Set in the cluster worker, array afterwards *)
  start : Z;
  end_ : Z;
  count : Z;
  ids : list string;
  alerts : list Alert;
  ep_severity : Severity
}.

(** * The dedup worker (src/workers/dedup.worker.ts) *)

Module Dedup.

Record DedupState := mkDedupState {
  lastSeen : gmap string Z;
  counts : gmap string Z;
  flapCounts : gmap string Z;
  lastToggle : gmap string Status
}.

Definition empty_state : DedupState :=
  {| lastSeen := ∅; counts := ∅; flapCounts := ∅; lastToggle := ∅ |}.

Definition lower_ascii (c : ascii) : ascii :=
  let n := nat_of_ascii c in
  if ((65 <=? n) && (n <=? 90))%nat then ascii_of_nat (n + 32) else c.

(** Class [[a-z0-9_|]] of the sanitising regular expression. *)
Definition key_char_ok (c : ascii) : bool :=
  let n := nat_of_ascii c in
  (((97 <=? n) && (n <=? 122)) || ((48 <=? n) && (n <=? 57))
   || (n =? 95) || (n =? 124))%nat.

(** What [toLowerCase] and the replacement make of one ASCII character. *)
Definition sanitize_ascii (c : ascii) : ascii :=
  let l := lower_ascii c in
  if key_char_ok l then l else "_"%char.

(** A continuation byte of UTF-8. *)
Definition is_cont (c : ascii) : bool :=
  let n := nat_of_ascii c in ((128 <=? n) && (n <? 192))%nat.

(** [key.toLowerCase().replace(/[^a-z0-9_|]/g, '_')], on the UTF-8 encoding
    of the key.  The regular expression has no [u] flag, so it replaces one
    UTF-16 code unit at a time.  [toLowerCase] maps a character outside
    ASCII to characters outside ASCII, one code unit for one, with two
    exceptions: U+0130 (capital I with dot above, bytes C4 B0) becomes [i]
    followed by U+0307, and U+212A (the Kelvin sign, bytes E2 84 AA) becomes
    [k].  So a character of two or three bytes becomes one underscore, a
    character of four bytes (two code units) becomes two, U+0130 becomes
    [i_] and U+212A becomes [k].  A byte that starts no well-formed
    character stands for no JS string; it becomes one underscore. *)
Fixpoint sanitize (s : string) : string :=
  match s with
  | EmptyString => EmptyString
  | String c s1 =>
      let n := nat_of_ascii c in
      if (n <? 128)%nat then String (sanitize_ascii c) (sanitize s1)
      else
        match s1 with
        | EmptyString => String "_" EmptyString
        | String c2 s2 =>
            if ((192 <=? n) && (n <? 224))%nat && is_cont c2 then
              if ((n =? 196) && (nat_of_ascii c2 =? 176))%nat
              then String "i" (String "_" (sanitize s2))
              else String "_" (sanitize s2)
            else
              match s2 with
              | EmptyString => String "_" (sanitize s1)
              | String c3 s3 =>
                  if ((224 <=? n) && (n <? 240))%nat && is_cont c2 && is_cont c3 then
                    if ((n =? 226) && (nat_of_ascii c2 =? 132)
                        && (nat_of_ascii c3 =? 170))%nat
                    then String "k" (sanitize s3)
                    else String "_" (sanitize s3)
                  else
                    match s3 with
                    | EmptyString => String "_" (sanitize s1)
                    | String c4 s4 =>
                        if (240 <=? n)%nat && is_cont c2 && is_cont c3 && is_cont c4
                        then String "_" (String "_" (sanitize s4))
                        else String "_" (sanitize s1)
                    end
              end
        end
  end.

Definition generateFingerprint (a : Alert) : string :=
  let fp := if truthy (Some (fingerprint a)) then fingerprint a
            else js_template (title a) in
  sanitize (fp ++ "|" ++ severity_str (severity a) ++ "|" ++ entityKeyOf a).

Definition generateDedupKey (a : Alert) : string :=
  generateFingerprint a ++ "|" ++ entityKeyOf a.

Definition isDuplicate (st : DedupState) (a : Alert) (ttlMs : Z) : bool :=
  let last := get_or_0 (lastSeen st) (generateDedupKey a) in
  ts a - last <? ttlMs.

(** [updateDedupState]: the new state, the duplicate flag and the count. *)
Definition updateDedupState (st : DedupState) (a : Alert) (ttlMs : Z)
  : DedupState * (bool * Z) :=
  let key := generateDedupKey a in
  let now := ts a in
  let last := get_or_0 (lastSeen st) key in
  if now - last <? ttlMs then
    let count := get_or_0 (counts st) key + 1 in
    let flaps :=
      match lastToggle st !! key with
      | Some lastStatus =>
          if decide (lastStatus <> status a)
          then <[key := get_or_0 (flapCounts st) key + 1]> (flapCounts st)
          else flapCounts st
      | None => flapCounts st
      end in
    ({| lastSeen := lastSeen st;
        counts := <[key := count]> (counts st);
        flapCounts := flaps;
        lastToggle := <[key := status a]> (lastToggle st) |},
     (true, count))
  else
    ({| lastSeen := <[key := now]> (lastSeen st);
        counts := <[key := 1]> (counts st);
        flapCounts := flapCounts st;
        lastToggle := <[key := status a]> (lastToggle st) |},
     (false, 1)).

(** One iteration of the [for (const alert of batch)] loop of the message
    handler: the new state and whether the alert is pushed on
    [processedAlerts]. *)
Definition processAlert (st : DedupState) (a : Alert) (ttlMs : Z)
  : DedupState * bool :=
  let '(st', (isDup, _)) := updateDedupState st a ttlMs in
  if isDup then
    let flapCount := get_or_0 (flapCounts st') (generateDedupKey a) in
    if 3 <? flapCount then (st', false) else (st', true)
  else (st', true).

(** The whole per-alert pass: final state and [processedAlerts]. *)
Fixpoint processAlerts (st : DedupState) (batch : list Alert) (ttlMs : Z)
  : DedupState * list Alert :=
  match batch with
  | [] => (st, [])
  | a :: rest =>
      let '(st1, keep) := processAlert st a ttlMs in
      let '(st2, out) := processAlerts st1 rest ttlMs in
      (st2, if keep then a :: out else out)
  end.

(** Grouping loop of [applyRateLimiting]: push each alert on the list of its
    entity; a new entity is appended to the map. *)
Definition groupByEntity (alerts : list Alert) : list (string * list Alert) :=
  fold_left
    (fun (m : list (string * list Alert)) a =>
       let ek := entityKeyOf a in
       OMap.set m ek (default [] (OMap.get m ek) ++ [a])%list)
    alerts [].

Definition rateLimitWindow : Z := 60000.
Definition maxAlertsPerMinute : Z := 100.

(** Inner loop of [applyRateLimiting] over one sorted entity list, with the
    running [alertsInWindow] counter. *)
Fixpoint limitEntity (now : Z) (alertsInWindow : Z) (l : list Alert)
  : list Alert :=
  match l with
  | [] => []
  | a :: l' =>
      let timeDiff := now - ts a in
      if timeDiff <=? rateLimitWindow then
        if alertsInWindow <? maxAlertsPerMinute
        then a :: limitEntity now (alertsInWindow + 1) l'
        else limitEntity now alertsInWindow l'
      else a :: limitEntity now alertsInWindow l'
  end.

Definition applyRateLimiting (now : Z) (alerts : list Alert) : list Alert :=
  concat (map (fun '(_, l) => limitEntity now 0 (sort_by_ts l))
              (groupByEntity alerts)).

Definition maxAge : Z := 10 * 60000.

(** An entry the collector deletes: present in [lastSeen] and too old. *)
Definition stale (now : Z) (seen : gmap string Z) (k : string) : bool :=
  match seen !! k with
  | Some t => maxAge <? now - t
  | None => false
  end.

Definition sweep {V} (now : Z) (seen : gmap string Z) (m : gmap string V)
  : gmap string V :=
  filter (fun kv => stale now seen kv.1 = false) m.

(** [garbageCollect]: every key whose [lastSeen] entry is older than
    [maxAge] is deleted from the four maps. *)
Definition garbageCollect (now : Z) (st : DedupState) : DedupState :=
  {| lastSeen := sweep now (lastSeen st) (lastSeen st);
     counts := sweep now (lastSeen st) (counts st);
     flapCounts := sweep now (lastSeen st) (flapCounts st);
     lastToggle := sweep now (lastSeen st) (lastToggle st) |}.

(** The message handler: per-alert pass, rate limiting (its own clock
    reading), garbage collection (a later clock reading). *)
Definition onmessage (st : DedupState) (batch : list Alert) (ttlMs : Z)
    (nowRate nowGc : Z) : DedupState * list Alert :=
  let '(st1, processedAlerts) := processAlerts st batch ttlMs in
  let rateLimitedAlerts := applyRateLimiting nowRate processedAlerts in
  (garbageCollect nowGc st1, rateLimitedAlerts).

End Dedup.

(** * The simplified engine of main.js *)

Module Engine.

(** Key of [CorrelationEngine.deduplicateAlerts]:
    [`${fingerprint || kind}|${severity}|${entity_key || service || 'na'}`]. *)
Definition dedupKey (a : Alert) : string :=
  (if truthy (Some (fingerprint a)) then fingerprint a else kind a)
  ++ "|" ++ severity_str (severity a) ++ "|"
  ++ default "na" (js_or (entity_key a) (js_or (service a) (Some "na"))).

(** Loop of [deduplicateAlerts] with its local [seen] map. *)
Fixpoint dedupLoop (dedupTtlMs : Z) (seen : gmap string Z) (alerts : list Alert)
  : list Alert :=
  match alerts with
  | [] => []
  | a :: rest =>
      let key := dedupKey a in
      let last := get_or_0 seen key in
      if dedupTtlMs <=? ts a - last
      then a :: dedupLoop dedupTtlMs (<[key := ts a]> seen) rest
      else dedupLoop dedupTtlMs seen rest
  end.

Definition deduplicateAlerts (dedupTtlMs : Z) (alerts : list Alert) : list Alert :=
  dedupLoop dedupTtlMs ∅ alerts.

End Engine.

(** * The cluster worker (src/workers/cluster.worker.ts) *)

Module Cluster.

Record State := mkState {
  episodes : list (string * Episode);
  entityEpisodes : list (string * list string)
}.

Definition empty_state : State := {| episodes := []; entityEpisodes := [] |}.

Definition alertFingerprint (a : Alert) : string :=
  if truthy (Some (fingerprint a)) then fingerprint a
  else js_template (title a) ++ "|" ++ severity_str (severity a).

Definition generateEpisodeKey (a : Alert) : string :=
  entityKeyOf a ++ "|" ++ alertFingerprint a.

(** [getOrCreateEpisode]: the episode stored at the alert's key, created and
    indexed first when there is none. *)
Definition getOrCreateEpisode (st : State) (a : Alert) : State * Episode :=
  let key := generateEpisodeKey a in
  match OMap.get (episodes st) key with
  | Some episode => (st, episode)
  | None =>
      let episode :=
        {| ep_entity_key := entityKeyOf a;
           ep_fingerprint := alertFingerprint a;
           vendorMix := [source a];
           start := ts a;
           end_ := ts a;
           count := 1;
           ids := [vendor_event_id a];
           alerts := [a];
           ep_severity := severity a |} in
      let idx := default [] (OMap.get (entityEpisodes st) (ep_entity_key episode)) in
      ({| episodes := OMap.set (episodes st) key episode;
          entityEpisodes :=
            OMap.set (entityEpisodes st) (ep_entity_key episode) (idx ++ [key])%list |},
       episode)
  end.

Definition getSeverityWeight (s : Severity) : Z :=
  match s with
  | critical => 4 | high => 3 | medium => 2 | low => 1
  end.

(** [updateEpisode]: the episode after the call and the returned flag; on a
    gap larger than [gapMs] the episode is returned untouched with [false]. *)
Definition updateEpisode (episode : Episode) (a : Alert) (gapMs : Z)
  : Episode * bool :=
  let timeDiff := ts a - end_ episode in
  if gapMs <? timeDiff then (episode, false)
  else
    ({| ep_entity_key := ep_entity_key episode;
        ep_fingerprint := ep_fingerprint episode;
        vendorMix := set_add (vendorMix episode) (source a);
        start := start episode;
        end_ := ts a;
        count := count episode + 1;
        ids := set_add (ids episode) (vendor_event_id a);
        alerts := if Z.of_nat (length (alerts episode)) <? 50
                  then (alerts episode ++ [a])%list else alerts episode;
        ep_severity := if getSeverityWeight (ep_severity episode)
                            <? getSeverityWeight (severity a)
                       then severity a else ep_severity episode |},
     true).

(** One iteration of the assignment loop of the message handler.  The
    episode object returned by [getOrCreateEpisode] is the one held by the
    map, so the mutation done by [updateEpisode] is written back at its key;
    the alert is pushed on [processedAlerts] on both branches. *)
Definition assignAlert (st : State) (a : Alert) (gapMs : Z) : State :=
  let '(st1, episode) := getOrCreateEpisode st a in
  let '(episode', _) := updateEpisode episode a gapMs in
  {| episodes := OMap.set (episodes st1) (generateEpisodeKey a) episode';
     entityEpisodes := entityEpisodes st1 |}.

Definition assignAlerts (st : State) (batch : list Alert) (gapMs : Z) : State :=
  fold_left (fun s a => assignAlert s a gapMs) batch st.

(** [applyBurstClustering]: the loop state is [(clusteredAlerts,
    currentCluster)]; both branches on the cluster size push the whole
    cluster. *)
Definition burstStep (gapMs : Z) (acc : list Alert * list Alert) (current : Alert)
  : list Alert * list Alert :=
  let '(clusteredAlerts, currentCluster) := acc in
  match last currentCluster with
  | None => (clusteredAlerts, [current])
  | Some lastInCluster =>
      if ts current - ts lastInCluster <=? gapMs
      then (clusteredAlerts, (currentCluster ++ [current])%list)
      else ((clusteredAlerts ++ currentCluster)%list, [current])
  end.

Definition applyBurstClustering (batch : list Alert) (gapMs : Z) : list Alert :=
  match batch with
  | [] => batch
  | _ =>
      let '(clusteredAlerts, currentCluster) :=
        fold_left (burstStep gapMs) (sort_by_ts batch) ([], []) in
      (clusteredAlerts ++ currentCluster)%list
  end.

(** Removal of one key from the entity index, as in [cleanupOldEpisodes]. *)
Definition unindex (idx : list (string * list string)) (entity key : string)
  : list (string * list string) :=
  match OMap.get idx entity with
  | None => idx
  | Some keys =>
      let keys' :=
        match list_find (fun k => k = key) keys with
        | Some (i, _) => (take i keys ++ drop (S i) keys)%list
        | None => keys
        end in
      match keys' with
      | [] => OMap.delete idx entity
      | _ => OMap.set idx entity keys'
      end
  end.

Definition cleanupOldEpisodes (now windowMs : Z) (st : State) : State :=
  let cutoff := now - windowMs in
  fold_left
    (fun s '(key, episode) =>
       if end_ episode <? cutoff
       then {| episodes := OMap.delete (episodes s) key;
               entityEpisodes := unindex (entityEpisodes s) (ep_entity_key episode) key |}
       else s)
    (episodes st) st.

Definition getEpisodesInWindow (now windowMs : Z) (st : State) : list Episode :=
  let cutoff := now - windowMs in
  sort_by start
    (List.filter (fun episode => cutoff <=? end_ episode)
                 (OMap.values (episodes st))).

(** The message handler: state after the tick, the window episodes and
    [alertsKept]. *)
Definition onmessage (st : State) (batch : list Alert) (gapMs windowMs : Z)
    (nowCleanup nowWindow : Z) : State * (list Episode * list Alert) :=
  let burstClusteredAlerts := applyBurstClustering batch gapMs in
  let st1 := assignAlerts st burstClusteredAlerts gapMs in
  let st2 := cleanupOldEpisodes nowCleanup windowMs st1 in
  (st2, (getEpisodesInWindow nowWindow windowMs st2, burstClusteredAlerts)).

End Cluster.

(** * The score worker (src/workers/score.worker.ts) *)

Module Score.

(** ** Situation building *)

(** [jaccard] on two JS [Set]s. *)
Definition jaccard (a b : gset string) : Q :=
  if decide (size a = 0%nat /\ size b = 0%nat) then 1%Q
  else if decide (size a = 0%nat \/ size b = 0%nat) then 0%Q
  else
    let intersection : gset string := filter (fun x => x ∈ b) a in
    let unionSize := Z.of_nat (size a) + Z.of_nat (size b) - Z.of_nat (size intersection) in
    (inject_Z (Z.of_nat (size intersection)) / inject_Z unionSize)%Q.

(** [x > 0.3] on an exact fraction. *)
Definition gt_03 (x : Q) : bool := negb (Qle_bool x (3 # 10)).

(** An episode object together with its identity (its position in the array
    received by [buildSituations]); [e1 === e2] compares identities. *)
Definition Obj : Type := nat * Episode.

(** [[...episodes].sort((a, b) => a.start - b.start)], each episode keeping
    its identity. *)
Definition sortedObjs (eps : list Episode) : list Obj :=
  sort_by (fun o : Obj => start o.2) (imap (fun i e => (i, e)) eps).

Definition joinable (e1 e2 : Obj) : bool :=
  if decide (e1.1 = e2.1) then false
  else
    let timeOverlap := negb ((end_ e1.2 <? start e2.2) || (end_ e2.2 <? start e1.2)) in
    if negb timeOverlap then false
    else
      let entitySimilarity := bool_decide (ep_entity_key e1.2 = ep_entity_key e2.2) in
      let fingerprintSimilarity := bool_decide (ep_fingerprint e1.2 = ep_fingerprint e2.2) in
      let vendorOverlap :=
        jaccard (list_to_set (vendorMix e1.2)) (list_to_set (vendorMix e2.2)) in
      entitySimilarity || fingerprintSimilarity || gt_03 vendorOverlap.

(** [find] with path compression on the [parent] map (keys are object
    identities).  The recursion follows parent links; [fuel] bounds its
    depth and [None] reports that the bound was hit (it never is, see
    [groupObjs]). *)
Fixpoint find (fuel : nat) (parent : gmap nat nat) (x : nat)
  : option (gmap nat nat * nat) :=
  match fuel with
  | O => None
  | S fuel' =>
      match parent !! x with
      | None => Some (<[x := x]> parent, x)
      | Some p =>
          if decide (p = x) then Some (<[x := x]> parent, x)
          else
            match find fuel' parent p with
            | Some (parent', root) => Some (<[x := root]> parent', root)
            | None => None
            end
      end
  end.

Definition unite (fuel : nat) (parent : gmap nat nat) (a b : nat)
  : option (gmap nat nat) :=
  '(parent1, ra) ← find fuel parent a;
  '(parent2, rb) ← find fuel parent1 b;
  Some (if decide (ra = rb) then parent2 else <[ra := rb]> parent2).

(** Inner loop [for j > i] and outer loop [for i] of the pairwise join. *)
Fixpoint joinWith (fuel : nat) (parent : gmap nat nat) (ei : Obj) (rest : list Obj)
  : option (gmap nat nat) :=
  match rest with
  | [] => Some parent
  | ej :: rest' =>
      parent' ← (if joinable ei ej then unite fuel parent ei.1 ej.1 else Some parent);
      joinWith fuel parent' ei rest'
  end.

Fixpoint joinAll (fuel : nat) (parent : gmap nat nat) (eps : list Obj)
  : option (gmap nat nat) :=
  match eps with
  | [] => Some parent
  | ei :: rest =>
      parent' ← joinWith fuel parent ei rest;
      joinAll fuel parent' rest
  end.

(** Grouping by root into the insertion-ordered [buckets] map. *)
Fixpoint bucketize (fuel : nat) (parent : gmap nat nat) (eps : list Obj)
    (buckets : list (nat * list Obj)) : option (list (nat * list Obj)) :=
  match eps with
  | [] => Some buckets
  | e :: rest =>
      '(parent', root) ← find fuel parent e.1;
      bucketize fuel parent' rest
        (OMap.set buckets root (default [] (OMap.get buckets root) ++ [e])%list)
  end.

Record Situation := mkSituation {
  situation_id : string;
  window_start : Z;
  window_end : Z;
  sit_episodes : list Episode;
  related_alerts : list Alert;
  blast_entities : Z;
  blast_services : Z
}.

Definition minimum (l : list Z) : Z := foldr Z.min (default 0 (head l)) l.
Definition maximum (l : list Z) : Z := foldr Z.max (default 0 (head l)) l.

Definition mkSituationOf (alerts_in : list Alert) (group : list Obj) : Situation :=
  let eps := map snd group in
  let s := minimum (map start eps) in
  let e := maximum (map end_ eps) in
  let related := List.filter (fun a => (s <=? ts a) && (ts a <=? e)) alerts_in in
  let uniqueEntities : gset string := list_to_set (map ep_entity_key eps) in
  let uniqueServices : gset string :=
    list_to_set
      (concat (map (fun g => omap (fun a => if truthy (service a) then service a else None)
                                  (alerts g)) eps)) in
  {| situation_id :=
       "S-" ++ pretty s ++ "-" ++ pretty e ++ "-" ++ pretty (length group);
     window_start := s;
     window_end := e;
     sit_episodes := eps;
     related_alerts := take 200 related;
     blast_entities := Z.of_nat (size uniqueEntities);
     blast_services := Z.of_nat (size uniqueServices) |}.

(** The union-find grouping of [buildSituations] on the sorted episodes.
    Every [unite] lengthens the parent chains by at most one link, and there
    is at most one [unite] per pair, so the recursion of [find] stays below
    the fuel given here. *)
Definition groupObjs (objs : list Obj) : option (list (list Obj)) :=
  let fuel := S (length objs * length objs) in
  let parent0 : gmap nat nat := list_to_map (map (fun o => (o.1, o.1)) objs) in
  parent ← joinAll fuel parent0 objs;
  buckets ← bucketize fuel parent objs [];
  Some (List.filter (fun g => negb (bool_decide (g = []))) (OMap.values buckets)).

Definition buildSituations (eps : list Episode) (alerts_in : list Alert)
  : option (list Situation) :=
  match eps with
  | [] => Some []
  | _ =>
      groups ← groupObjs (sortedObjs eps);
      Some (map (mkSituationOf alerts_in) groups)
  end.

(** ** Lead-lag correlation *)

(** [toBins]: timestamps bucketed to 1-second bins. *)
Definition toBins (tss : list Z) : list (Z * Z) :=
  fold_left
    (fun bins t =>
       let bin := t / 1000 in
       OMap.set bins bin (default 0 (OMap.get bins bin) + 1))
    tss [].

(** A lag estimate.  The score is the real number
    [lag_num / sqrt lag_den2]; it is kept as the two integers it is computed
    from, and compared exactly. *)
Record LagResult := mkLag { lagMs : Z; lag_num : Z; lag_den2 : Z }.

Definition noLag : LagResult := {| lagMs := 0; lag_num := 0; lag_den2 := 1 |}.

(** [a.score > b.score] for the non-negative scores above, decided on their
    exact values.  The code compares the doubles it computed: two scores
    that are equal, or closer than the rounding of the square root and of
    the division, can be ordered differently there. *)
Definition score_gtb (a b : LagResult) : bool :=
  lag_num b * lag_num b * lag_den2 a <? lag_num a * lag_num a * lag_den2 b.

(** The three accumulators [(numerator, denomA, denomB)] of one lag. *)
Definition lagSums (A B : list (Z * Z)) (lag : Z) : Z * Z * Z :=
  fold_left
    (fun '(numerator, denomA, denomB) '(bin, aCount) =>
       let bCount := default 0 (OMap.get B (bin + lag)) in
       (numerator + aCount * bCount, denomA + aCount * aCount, denomB + bCount * bCount))
    A (0, 0, 0).

Definition lagStep (A B : list (Z * Z)) (best : LagResult) (lag : Z) : LagResult :=
  let '(numerator, denomA, denomB) := lagSums A B lag in
  if (0 <? denomA) && (0 <? denomB) then
    let cand := {| lagMs := lag * 1000; lag_num := numerator; lag_den2 := denomA * denomB |} in
    if score_gtb cand best then cand else best
  else best.

Definition corrLeadLag (aTs bTs : list Z) (maxLeadMs : Z) : LagResult :=
  match aTs, bTs with
  | [], _ | _, [] => noLag
  | _, _ =>
      let A := toBins aTs in
      let B := toBins bTs in
      let maxLagS := maxLeadMs / 1000 in
      fold_left (lagStep A B) (map Z.of_nat (seq 0 (Z.to_nat (maxLagS + 1)))) noLag
  end.

(** ** Graph proximity *)

(** The [for (const neighbor of adj[current] || [])] loop: either the early
    [return distance + 1] or the updated queue and [seen] set. *)
Fixpoint scanNeighbors (dst : string) (distance : nat) (ns : list string)
    (queue : list (string * nat)) (seen : gset string)
  : nat + (list (string * nat) * gset string) :=
  match ns with
  | [] => inr (queue, seen)
  | neighbor :: ns' =>
      if decide (neighbor ∈ seen) then scanNeighbors dst distance ns' queue seen
      else if decide (neighbor = dst) then inl (S distance)
      else scanNeighbors dst distance ns'
             (queue ++ [(neighbor, S distance)])%list ({[neighbor]} ∪ seen)
  end.

(** The names a plain object inherits from [Object.prototype].  For such a
    name that is no key of [adj], [adj[name]] is the inherited method (for
    [__proto__], the prototype itself): truthy and not iterable. *)
Definition inheritedNames : list string :=
  ["constructor"; "__defineGetter__"; "__defineSetter__"; "hasOwnProperty";
   "__lookupGetter__"; "__lookupSetter__"; "isPrototypeOf";
   "propertyIsEnumerable"; "toString"; "valueOf"; "__proto__";
   "toLocaleString"].

(** Truthiness of [adj[k]]: a listed array is truthy even when empty, and so
    is an inherited member. *)
Definition hasProp (adj : gmap string (list string)) (k : string) : bool :=
  bool_decide (is_Some (adj !! k)) || bool_decide (k ∈ inheritedNames).

(** The subject of [for (const neighbor of adj[current] || [])]: the listed
    neighbours, nothing for a name that is absent, and a [TypeError] for an
    inherited member, which is not iterable. *)
Definition neighboursOf (adj : gmap string (list string)) (current : string)
  : Outcome (list string) :=
  match adj !! current with
  | Some ns => Returns ns
  | None => if decide (current ∈ inheritedNames) then Throws else Returns []
  end.

(** The [while (queue.length > 0)] loop; [None] is [Infinity].  Every
    iteration shifts one queue entry; [fuel] bounds their number. *)
Fixpoint bfs (fuel : nat) (adj : gmap string (list string)) (dst : string)
    (limit : nat) (queue : list (string * nat)) (seen : gset string)
  : Outcome (option nat) :=
  match fuel with
  | O => Returns None
  | S fuel' =>
      match queue with
      | [] => Returns None
      | (current, distance) :: queue' =>
          if (limit <=? distance)%nat then bfs fuel' adj dst limit queue' seen
          else
            match neighboursOf adj current with
            | Throws => Throws
            | Returns ns =>
                match scanNeighbors dst distance ns queue' seen with
                | inl d => Returns (Some d)
                | inr (queue'', seen') => bfs fuel' adj dst limit queue'' seen'
                end
            end
      end
  end.

(** Every string that can ever enter the queue. *)
Definition vertices (adj : gmap string (list string)) (src : string) : gset string :=
  {[src]} ∪ list_to_set (concat (map snd (map_to_list adj))).

Definition shortestPathLen (adj : gmap string (list string)) (src dst : string)
    (limit : nat) : Outcome (option nat) :=
  if decide (src = dst) then Returns (Some 0%nat)
  else if negb (hasProp adj src) || negb (hasProp adj dst) then Returns None
  else bfs (S (size (vertices adj src))) adj dst limit [(src, 0%nat)] {[src]}.

(** ** Composite score *)

Definition severityWeight (s : Severity) : Q :=
  match s with
  | critical => 1 | high => 3 # 4 | medium => 1 # 2 | low => 1 # 4
  end%Q.

Definition Qmaximum (x : Q) (l : list Q) : Q :=
  fold_left (fun m y => if Qle_bool m y then y else m) l x.

(** The quantities [scoreSituation] computes before the weighted sum. *)
Record Parts := mkParts {
  cause_entity : string;
  episodeIdx : nat;
  bestLag : LagResult;
  bestPath : option nat;
  entities : Z;
  sevMax : Q;
  changeNear : bool;
  echoCount : Z      (* sum of the vendorMix lengths minus the episode count *)
}.

Definition minPath (a : option nat) (b : option nat) : option nat :=
  match a, b with
  | Some x, Some y => if (x <? y)%nat then Some x else Some y
  | Some x, None => Some x
  | None, _ => b
  end.

(** [scoreSituation] up to the weighted sum: nothing for a situation
    without episodes; the exception of [shortestPathLen] is not caught
    here. *)
Definition scoreParts (sit : Situation) (adj : gmap string (list string))
    (maxLeadMs : Z) : Outcome (option Parts) :=
  match sortedObjs (sit_episodes sit) with
  | [] => Returns None
  | cause :: others =>
      let causeTs := map ts (alerts cause.2) in
      let lag :=
        fold_left
          (fun best (episode : Obj) =>
             let l := corrLeadLag causeTs (map ts (alerts episode.2)) maxLeadMs in
             if score_gtb l best then l else best)
          others noLag in
      let sevs := map (fun ep => severityWeight (ep_severity ep)) (sit_episodes sit) in
      bind_outcome
        (fold_left
           (fun (acc : Outcome (option nat)) (episode : Obj) =>
              bind_outcome acc (fun best =>
              bind_outcome (shortestPathLen adj (ep_entity_key cause.2)
                              (ep_entity_key episode.2) 4) (fun pathLen =>
              Returns (minPath pathLen best))))
           others (Returns None))
        (fun path =>
           Returns (Some
             {| cause_entity := ep_entity_key cause.2;
                episodeIdx := cause.1;
                bestLag := lag;
                bestPath := path;
                entities := blast_entities sit;
                sevMax := Qmaximum (default 0%Q (head sevs)) sevs;
                changeNear :=
                  existsb (fun a => truthy (deploy_key a)
                                    && (Z.abs (ts a - window_start sit) <=? 10 * 60000))
                          (related_alerts sit);
                echoCount :=
                  fold_left (fun acc ep => acc + Z.of_nat (length (vendorMix ep)))
                            (sit_episodes sit) 0
                  - Z.of_nat (length (sit_episodes sit)) |}))
  end.

Definition lagScore (r : LagResult) : R :=
  (IZR (lag_num r) / sqrt (IZR (lag_den2 r)))%R.

Definition pathScore (p : option nat) : Q :=
  match p with
  | None => 0
  | Some d => 1 / (1 + inject_Z (Z.of_nat d))
  end%Q.

Definition changeProx (near : bool) : Q := if near then 1%Q else (2 # 10)%Q.

Definition echoPenalty (n : Z) : Q :=
  let x := (inject_Z n * (5 # 100))%Q in
  if Qle_bool 0 x then x else 0%Q.

Definition flapPenalty : Q := 0.

(** The weighted sum of [scoreSituation], as the exact value of the
    expression; the double the code stores differs from it by the rounding
    of the constants, of [Math.log] and of each product and sum. *)
Definition composite (p : Parts) : R :=
  (Q2R (35 # 100) * Q2R (changeProx (changeNear p))
   + Q2R (2 # 10) * lagScore (bestLag p)
   + Q2R (2 # 10) * Q2R (pathScore (bestPath p))
   + Q2R (15 # 100) * ln (1 + IZR (entities p))
   + Q2R (15 # 100) * Q2R (sevMax p)
   - Q2R (1 # 10) * Q2R flapPenalty
   - Q2R (5 # 100) * Q2R (echoPenalty (echoCount p)))%R.

(** [primary_cause.confidence = Math.min(1, composite)] *)
Definition confidence (p : Parts) : R := Rmin 1 (composite p).


End Score.

(** * The K8s threshold engine (enhanced correlator, [K8sEventProcessor]) *)

Module K8s.

Record Rule := mkRule {
  name : string;
  key : list string;                (* ordered field selectors *)
  match_ : list (string * string);  (* Object.entries(rule.match) *)
  threshold : Z;
  rule_severity : Severity;
  window : Z;
  cooldown : Z
}.

(** A constructed [K8sEvent]; [ev_ts] is [new Date(data.ts).getTime()]. *)
Record K8sEvent := mkEvent {
  ev_ts : Z;
  namespace : string;
  reason : string;
  type_ : string;
  message : string;
  involved_kind : option string;
  involved_name : option string
}.

(** [this[k]] for the string-valued top-level fields of an event (the rules
    select and match no other field). *)
Definition field (e : K8sEvent) (k : string) : option string :=
  if decide (k = "namespace") then Some (namespace e)
  else if decide (k = "reason") then Some (reason e)
  else if decide (k = "type") then Some (type_ e)
  else if decide (k = "message") then Some (message e)
  else None.

Definition or_empty (o : option string) : string :=
  if truthy o then default "" o else "".

Definition getKey (e : K8sEvent) (rule : Rule) : string :=
  String.concat "|"
    (map (fun k =>
            if decide (k = "involvedObject.name") then or_empty (involved_name e)
            else if decide (k = "involvedObject.kind") then or_empty (involved_kind e)
            else or_empty (field e k))
         (key rule)).

(** [String.prototype.includes] *)
Fixpoint includes (s pat : string) : bool :=
  String.prefix pat s
  || match s with
     | EmptyString => false
     | String _ s' => includes s' pat
     end.

Definition matches (e : K8sEvent) (rule : Rule) : bool :=
  forallb
    (fun '(k, value) =>
       if decide (k = "messagePattern") then includes (message e) value
       else if decide (k = "involvedObjectKind")
            then bool_decide (involved_kind e = Some value)
       else bool_decide (field e k = Some value))
    (match_ rule).

(** One reading of the environment taken while an alert is created: the wall
    clock behind [new Date().toISOString()], the wall clock behind the
    [Date.now()] of the id, and the [Math.random()] suffix of the id. *)
Record Reading := mkReading { wallData : Z; wallId : Z; randomSuffix : string }.

(** The synthesized alert (class [Alert] of the enhanced correlator);
    [first_ts]/[last_ts] stand for the ISO renderings of these instants. *)
Record KAlert := mkKAlert {
  id : string;
  k_source : string;
  k_ts : Z;
  k_status : string;
  k_severity : Severity;
  k_title : string;
  k_namespace : string;
  k_service : string;
  k_component : string;
  k_resource : string;
  k_pod : string;
  k_count : Z;
  first_ts : Z;
  last_ts : Z;
  k_entity_key : string;
  k_fingerprint : string;
  tag_rule : string;
  tag_key : string
}.

(** [key.split('|')] *)
Fixpoint split_bar (s : string) : list string :=
  match s with
  | EmptyString => [""]
  | String c s' =>
      if decide (c = "|"%char) then "" :: split_bar s'
      else match split_bar s' with
           | [] => [String c ""]
           | p :: ps => String c p :: ps
           end
  end.

(** [btoa] on 8-bit strings. *)
Definition b64char (n : N) : ascii :=
  if (n <? 26)%N then ascii_of_N (65 + n)
  else if (n <? 52)%N then ascii_of_N (97 + (n - 26))
  else if (n <? 62)%N then ascii_of_N (48 + (n - 52))
  else if (n =? 62)%N then "+"%char else "/"%char.

Fixpoint btoa_bytes (l : list N) : string :=
  match l with
  | [] => ""
  | [a] =>
      String (b64char (a / 4)) (String (b64char ((a mod 4) * 16)) "==")
  | [a; b] =>
      String (b64char (a / 4))
        (String (b64char ((a mod 4) * 16 + b / 16))
           (String (b64char ((b mod 16) * 4)) "="))
  | a :: b :: c :: rest =>
      String (b64char (a / 4))
        (String (b64char ((a mod 4) * 16 + b / 16))
           (String (b64char ((b mod 16) * 4 + c / 64))
              (String (b64char (c mod 64)) (btoa_bytes rest))))
  end%N.

Definition btoa (s : string) : string :=
  btoa_bytes (map N_of_ascii (list_ascii_of_string s)).

Definition alnum (c : ascii) : bool :=
  let n := N_of_ascii c in
  (((65 <=? n) && (n <=? 90)) || ((97 <=? n) && (n <=? 122))
   || ((48 <=? n) && (n <=? 57)))%N.

Fixpoint filter_string (f : ascii -> bool) (s : string) : string :=
  match s with
  | EmptyString => EmptyString
  | String c s' => if f c then String c (filter_string f s') else filter_string f s'
  end.

(** [Alert.generateFingerprint] of the enhanced correlator. *)
Definition generateFingerprint (title entity : string) (sev : Severity)
    (source : string) : string :=
  String.substring 0 16
    (filter_string alnum
       (btoa (title ++ "|" ++ entity ++ "|" ++ severity_str sev ++ "|" ++ source))).

Definition first_nonempty (l : list string) (dflt : string) : string :=
  default dflt (head (List.filter (fun s => negb (String.eqb s "")) l)).

Definition index_of (x : string) (l : list string) : option nat :=
  fst <$> list_find (fun y => y = x) l.

(** [createAlertFromRule] followed by the [Alert] constructor. *)
Definition createAlertFromRule (env : Reading) (rule : Rule) (k : string)
    (state : list Z) (e : K8sEvent) : KAlert :=
  let keyParts := split_bar k in
  let part sel := (i ← index_of sel (key rule); keyParts !! i) in
  let pod := default "" (part "involvedObject.name") in
  let component :=
    match index_of "involvedObject.kind" (key rule) with
    | Some i => default "" (keyParts !! i)
    | None => or_empty (involved_kind e)
    end in
  let resource := first_nonempty [or_empty (involved_name e); pod] "" in
  let title := first_nonempty [name rule] "Unknown Alert" in
  let service := namespace e in
  let entity := first_nonempty [service; component; resource; namespace e] "unknown" in
  {| id := "k8s-" ++ pretty (wallId env) ++ "-" ++ randomSuffix env;
     k_source := "k8s";
     k_ts := wallData env;
     k_status := "firing";
     k_severity := rule_severity rule;
     k_title := title;
     k_namespace := namespace e;
     k_service := service;
     k_component := component;
     k_resource := resource;
     k_pod := pod;
     k_count := Z.of_nat (length state);
     first_ts := default 0 (head state);
     last_ts := default 0 (last state);
     k_entity_key := entity;
     k_fingerprint := generateFingerprint title entity (rule_severity rule) "k8s";
     tag_rule := name rule;
     tag_key := k |}.

Record Processor := mkProcessor {
  ruleStates : gmap string (list Z);
  cooldowns : gmap string Z;
  generatedAlerts : list KAlert
}.

Definition new_processor : Processor :=
  {| ruleStates := ∅; cooldowns := ∅; generatedAlerts := [] |}.

(** [while (state.length > 0 && state[0] < cutoff) state.shift()] *)
Fixpoint prune (cutoff : Z) (state : list Z) : list Z :=
  match state with
  | [] => []
  | t :: state' => if t <? cutoff then prune cutoff state' else state
  end.

(** [cooldownEnd && now < cooldownEnd] *)
Definition isInCooldown (p : Processor) (ruleKey : string) (now : Z) : bool :=
  match cooldowns p !! ruleKey with
  | Some cooldownEnd => negb (cooldownEnd =? 0) && (now <? cooldownEnd)
  | None => false
  end.

Definition ruleKeyOf (rule : Rule) (e : K8sEvent) : string :=
  name rule ++ "|" ++ getKey e rule.

(** The timestamp sequence of a rule and key after pruning and appending the
    current event. *)
Definition sequenceAfter (p : Processor) (rule : Rule) (e : K8sEvent) : list Z :=
  (prune (ev_ts e - window rule) (default [] (ruleStates p !! ruleKeyOf rule e))
   ++ [ev_ts e])%list.

(** The body of the [for (const rule of CONFIG.k8sRules)] loop. *)
Definition ruleStep (env : Reading) (p : Processor) (e : K8sEvent) (rule : Rule)
  : Processor :=
  if negb (matches e rule) then p
  else
    let k := getKey e rule in
    let ruleKey := ruleKeyOf rule e in
    let now := ev_ts e in
    let state := sequenceAfter p rule e in
    let p1 := {| ruleStates := <[ruleKey := state]> (ruleStates p);
                 cooldowns := cooldowns p;
                 generatedAlerts := generatedAlerts p |} in
    if (threshold rule <=? Z.of_nat (length state)) && negb (isInCooldown p1 ruleKey now)
    then
      {| ruleStates := ruleStates p1;
         cooldowns := <[ruleKey := now + cooldown rule]> (cooldowns p1);
         generatedAlerts :=
           (generatedAlerts p1 ++ [createAlertFromRule env rule k state e])%list |}
    else p1.

(** [processEvent]: [env i] is what the environment answers if rule number
    [i] creates an alert. *)
Definition processEvent (rules : list Rule) (env : nat -> Reading) (p : Processor)
    (e : K8sEvent) : Processor :=
  fold_left (fun q '(i, rule) => ruleStep (env i) q e rule)
            (imap (fun i r => (i, r)) rules) p.

(** A run on an event sequence; [env n i] belongs to event [n], rule [i]. *)
Fixpoint run_from (rules : list Rule) (env : nat -> nat -> Reading) (n : nat)
    (p : Processor) (events : list K8sEvent) : Processor :=
  match events with
  | [] => p
  | e :: rest => run_from rules env (S n) (processEvent rules (env n) p e) rest
  end.

Definition run (rules : list Rule) (env : nat -> nat -> Reading)
    (events : list K8sEvent) : Processor :=
  run_from rules env 0 new_processor events.


(** [CONFIG.k8sRules] *)
Definition k8sRules : list Rule :=
  [ {| name := "CrashLoopBackOff bursts";
       key := ["namespace"; "involvedObject.name"];
       match_ := [("reason", "BackOff"); ("type", "Warning")];
       threshold := 5; rule_severity := high;
       window := 5 * 60 * 1000; cooldown := 10 * 60 * 1000 |};
    {| name := "ImagePull failures";
       key := ["namespace"; "reason"];
       match_ := [("reason", "Failed"); ("messagePattern", "ImagePull")];
       threshold := 3; rule_severity := medium;
       window := 5 * 60 * 1000; cooldown := 10 * 60 * 1000 |};
    {| name := "Node not ready";
       key := ["involvedObject.kind"; "involvedObject.name"];
       match_ := [("reason", "NodeNotReady")];
       threshold := 1; rule_severity := critical;
       window := 5 * 60 * 1000; cooldown := 15 * 60 * 1000 |};
    {| name := "Excessive Pod Evictions";
       key := ["namespace"; "reason"];
       match_ := [("reason", "Evicted")];
       threshold := 10; rule_severity := medium;
       window := 10 * 60 * 1000; cooldown := 15 * 60 * 1000 |};
    {| name := "ConfigMap Change Spike";
       key := ["namespace"; "involvedObject.kind"];
       match_ := [("reason", "Modified"); ("involvedObjectKind", "ConfigMap")];
       threshold := 7; rule_severity := low;
       window := 15 * 60 * 1000; cooldown := 20 * 60 * 1000 |} ].

End K8s.

(** * Concrete inputs used by the scenarios below *)

Module Samples.

Definition t0 : Z := 1700000000000.

(** An alert of service [svc] with the given timestamp, status and
    fingerprint. *)
Definition alertAt (t : Z) (st : Status) (svc fp src : string) : Alert :=
  {| ts := t; source := src; vendor_event_id := "evt-" ++ pretty t;
     fingerprint := fp; kind := "metric"; title := None; status := st;
     severity := medium; service := Some svc; component := None;
     resource := None; entity_key := None; deploy_key := None |}.

(** Scenario "single duplicate": the same alert at [t] and [t + 30 s]. *)
Definition dupFirst : Alert := alertAt t0 firing "svc-a" "cpu-high" "datadog".
Definition dupSecond : Alert := alertAt (t0 + 30000) firing "svc-a" "cpu-high" "datadog".

(** Scenario "flap drop": statuses toggling every second. *)
Definition flap1 : Alert := alertAt t0 firing "svc-a" "cpu-high" "datadog".
Definition flap2 : Alert := alertAt (t0 + 1000) resolved "svc-a" "cpu-high" "datadog".
Definition flap3 : Alert := alertAt (t0 + 2000) firing "svc-a" "cpu-high" "datadog".
Definition flap4 : Alert := alertAt (t0 + 3000) resolved "svc-a" "cpu-high" "datadog".
Definition flap5 : Alert := alertAt (t0 + 4000) firing "svc-a" "cpu-high" "datadog".

(** The same toggling within the first seconds of the epoch, below any
    realistic [ttlMs]. *)
Definition early1 : Alert := alertAt 1000 firing "svc-a" "cpu-high" "datadog".
Definition early2 : Alert := alertAt 2000 resolved "svc-a" "cpu-high" "datadog".
Definition early3 : Alert := alertAt 3000 firing "svc-a" "cpu-high" "datadog".
Definition early4 : Alert := alertAt 4000 resolved "svc-a" "cpu-high" "datadog".
Definition early5 : Alert := alertAt 5000 firing "svc-a" "cpu-high" "datadog".

(** A burst of 101 alerts of one service within a tenth of a second, each
    with a fingerprint of its own. *)
Definition burstAlert (i : nat) : Alert :=
  alertAt (t0 + Z.of_nat i) firing "svc-a" ("fp-" ++ pretty i) "datadog".
Definition burstBatch : list Alert := map burstAlert (seq 0 101).

(** A key that flapped five times and was last seen three minutes before
    the alert [flap1] re-enters. *)
Definition flappedState : Dedup.DedupState :=
  let k := Dedup.generateDedupKey flap1 in
  {| Dedup.lastSeen := {[k := t0 - 180000]};
     Dedup.counts := {[k := 6]};
     Dedup.flapCounts := {[k := 5]};
     Dedup.lastToggle := {[k := resolved]} |}.

(** Scenario "ordering": two entities interleaved in one batch. *)
Definition ordA1 : Alert := alertAt t0 firing "svc-a" "cpu-high" "datadog".
Definition ordB : Alert := alertAt (t0 + 1000) firing "svc-b" "disk-full" "datadog".
Definition ordA2 : Alert := alertAt (t0 + 2000) firing "svc-a" "mem-high" "datadog".

(** Scenario "episode gap break": the same key at [t], [t + 60 s] and
    [t + 300 s]. *)
Definition gap1 : Alert := alertAt t0 firing "svc-a" "cpu-high" "datadog".
Definition gap2 : Alert := alertAt (t0 + 60000) firing "svc-a" "cpu-high" "datadog".
Definition gap3 : Alert := alertAt (t0 + 300000) firing "svc-a" "cpu-high" "datadog".

(** Threshold engine: a node that reports NotReady, and two environments
    that differ only in what the wall clock and [Math.random] answer. *)
Definition nodeEvent (t : Z) : K8s.K8sEvent :=
  {| K8s.ev_ts := t; K8s.namespace := "prod"; K8s.reason := "NodeNotReady";
     K8s.type_ := "Warning"; K8s.message := "node is not ready";
     K8s.involved_kind := Some "Node"; K8s.involved_name := Some "node-1" |}.

Definition envMorning (n i : nat) : K8s.Reading :=
  {| K8s.wallData := t0 + 5; K8s.wallId := t0 + 5; K8s.randomSuffix := "k3j9x2m1q" |}.


(** An episode as the cluster worker hands it over: two alerts [s] and [e],
    the given source mix. *)
Definition episodeOf (ent fp : string) (mix : list string) (s e : Z) : Episode :=
  let a t := {| ts := t; source := default "other" (head mix);
                vendor_event_id := "evt-" ++ pretty t; fingerprint := fp;
                kind := "metric"; title := None; status := firing;
                severity := medium; service := Some "api"; component := None;
                resource := None; entity_key := Some ent; deploy_key := None |} in
  {| ep_entity_key := ent; ep_fingerprint := fp; vendorMix := mix;
     start := s; end_ := e; count := 2;
     ids := ["evt-" ++ pretty s; "evt-" ++ pretty e];
     alerts := [a s; a e]; ep_severity := medium |}.

(** Scenario "situation join by source-mix". *)
Definition joinA : Episode :=
  episodeOf "svc-a|api" "fp-latency" ["k8s"; "datadog"] t0 (t0 + 60000).
Definition joinB : Episode :=
  episodeOf "svc-b|api" "fp-errors" ["datadog"; "logicmonitor"] (t0 + 30000) (t0 + 90000).

(** Three overlapping episodes: the first two share neither entity,
    fingerprint nor source, the third shares its entity with the first and
    its fingerprint with the second. *)
Definition chain1 : Episode := episodeOf "svc-a" "fp-1" ["k8s"] t0 (t0 + 60000).
Definition chain2 : Episode := episodeOf "svc-b" "fp-2" ["datadog"] (t0 + 10000) (t0 + 70000).
Definition chain3 : Episode := episodeOf "svc-a" "fp-2" ["logicmonitor"] (t0 + 20000) (t0 + 80000).

(** Scenario "echo storm": one hundred overlapping episodes of one entity,
    each reported by the four vendors. *)
Definition echoEpisodes : list Episode :=
  map (fun i => episodeOf "svc-a" ("fp-" ++ pretty i)
                 ["datadog"; "logicmonitor"; "k8s"; "other"] t0 (t0 + 60000))
      (seq 0 100).

Definition echoParts : Score.Parts :=
  {| Score.cause_entity := "svc-a";
     Score.episodeIdx := 0;
     Score.bestLag := {| Score.lagMs := 0; Score.lag_num := 2; Score.lag_den2 := 4 |};
     Score.bestPath := Some 0%nat;
     Score.entities := 1;
     Score.sevMax := 1 # 2;
     Score.changeNear := false;
     Score.echoCount := 300 |}.

(** Lead-lag: a cause with one alert, an effect with one alert in the same
    second and one a second later. *)
Definition lagCause : list Z := [t0].
Definition lagEffect : list Z := [t0; t0 + 1000].

(** Scenario "graph proximity": the hints of the specification, the same
    hints with the endpoint [c] present as a key, and hints in which [a] and
    [c] are linked only against the direction of an edge. *)
Definition adjSpec : gmap string (list string) := {[ "a" := ["b"]; "b" := ["c"] ]}.
Definition adjFull : gmap string (list string) :=
  {[ "a" := ["b"]; "b" := ["c"]; "c" := [] ]}.
Definition adjBack : gmap string (list string) :=
  {[ "a" := ["b"]; "b" := []; "c" := ["b"] ]}.

(** Hints that list a name every object inherits. *)
Definition adjNamed : gmap string (list string) := {[ "a" := ["toString"] ]}.

(** The two-episode situation on entities [a] and [c]. *)
Definition graphCause : Episode := episodeOf "a" "fp-a" ["datadog"] t0 (t0 + 60000).
Definition graphEffect : Episode :=
  episodeOf "c" "fp-c" ["datadog"] (t0 + 30000) (t0 + 90000).

Definition graphSituation : Score.Situation :=
  Score.mkSituationOf [] [(0%nat, graphCause); (1%nat, graphEffect)].

(** What [scoreSituation] computes for it under [adjFull]. *)
Definition graphParts : Score.Parts :=
  {| Score.cause_entity := "a";
     Score.episodeIdx := 0;
     Score.bestLag := {| Score.lagMs := 30000; Score.lag_num := 2; Score.lag_den2 := 4 |};
     Score.bestPath := Some 2%nat;
     Score.entities := 2;
     Score.sevMax := 1 # 2;
     Score.changeNear := false;
     Score.echoCount := 0 |}.

End Samples.

(** * Situations kept by the engine of main.js between batches *)

Module EngineState.

(** The two maps [updateSituations] writes: [this.situations] and
    [this.lastActivity].  The situations of main.js are built by a copy of
    the score worker's [buildSituations] and have the same fields. *)
Record Store := mkStore {
  situations : gmap string Score.Situation;
  lastActivity : gmap string Z
}.

(** A stored situation the eviction loop deletes. *)
Definition expired (now maxSituationLifetime : Z) (m : gmap string Score.Situation)
    (id : string) : bool :=
  match m !! id with
  | Some situation => maxSituationLifetime <? now - Score.window_end situation
  | None => false
  end.

(** First loop of [updateSituations]: every situation of the batch is stored
    under its id, with the clock reading as its last activity. *)
Definition storeAll (now : Z) (st : Store) (sits : list Score.Situation) : Store :=
  fold_left
    (fun s situation =>
       {| situations := <[Score.situation_id situation := situation]> (situations s);
          lastActivity := <[Score.situation_id situation := now]> (lastActivity s) |})
    sits st.

(** [CorrelationEngine.updateSituations]: after the first loop, every stored
    situation whose window ended more than [maxSituationLifetime] ago is
    deleted from both maps. *)
Definition updateSituations (now maxSituationLifetime : Z) (st : Store)
    (sits : list Score.Situation) : Store :=
  let st1 := storeAll now st sits in
  {| situations :=
       filter (fun kv => expired now maxSituationLifetime (situations st1) kv.1 = false)
              (situations st1);
     lastActivity :=
       filter (fun kv => expired now maxSituationLifetime (situations st1) kv.1 = false)
              (lastActivity st1) |}.

End EngineState.

(** * The correlation engine of the enhanced correlator *)

Module Enhanced.

(** [CONFIG.dedupTTL] *)
Definition dedupTTL : Z := 120 * 1000.

(** [`${alert.fingerprint}|${alert.entity_key}`], on the class [Alert] of
    the enhanced correlator ([K8s.KAlert]). *)
Definition dedupKey (a : K8s.KAlert) : string :=
  K8s.k_fingerprint a ++ "|" ++ K8s.k_entity_key a.

(** [!lastSeen || (now - lastSeen) > CONFIG.dedupTTL] *)
Definition fresh (now : Z) (dedupMap : gmap string Z) (key : string) : bool :=
  match dedupMap !! key with
  | None => true
  | Some lastSeen => (lastSeen =? 0) || (dedupTTL <? now - lastSeen)
  end.

(** [CorrelationEngine.deduplicateAlerts]: [now] is the single [Date.now()]
    read at the start of the call; the result is the updated [dedupMap] and
    the [unique] array. *)
Fixpoint deduplicateAlerts (now : Z) (dedupMap : gmap string Z)
    (alerts : list K8s.KAlert) : gmap string Z * list K8s.KAlert :=
  match alerts with
  | [] => (dedupMap, [])
  | a :: rest =>
      let key := dedupKey a in
      if fresh now dedupMap key then
        let '(m, unique) := deduplicateAlerts now (<[key := now]> dedupMap) rest in
        (m, a :: unique)
      else deduplicateAlerts now dedupMap rest
  end.

End Enhanced.

(** * Suggested actions of the score worker *)

Module NextActions.

(** [Math.max(...situation.episodes.map(ep => severityWeight(ep.severity)))],
    as in [scoreSituation].  Without episodes the JS value is [-Infinity];
    the 0 used here fails the test [>= 0.75] as well. *)
Definition maxSeverity (situation : Score.Situation) : Q :=
  let sevs := map (fun ep => Score.severityWeight (ep_severity ep))
                  (Score.sit_episodes situation) in
  Score.Qmaximum (default 0%Q (head sevs)) sevs.

Definition escalation : string := "Immediate escalation required".

(** [generateNextActions]: the actions pushed in source order, cut to the
    first five. *)
Definition generateNextActions (cause : Episode) (situation : Score.Situation)
  : list string :=
  let actions :=
    ((if 5 <? Score.blast_entities situation
      then ["Page oncall team - multiple services affected"] else [])
     ++ (if 3 <? Score.blast_services situation
         then ["Check shared infrastructure components"] else [])
     ++ (if K8s.includes (ep_entity_key cause) "database"
         then ["Check database connection pool and performance";
               "Verify database resource limits"] else [])
     ++ (if K8s.includes (ep_entity_key cause) "api"
         then ["Check API rate limiting and quotas";
               "Verify upstream service health"] else [])
     ++ (if K8s.includes (ep_entity_key cause) "cache"
         then ["Check cache hit rates and memory usage";
               "Verify cache cluster health"] else [])
     ++ (if Qle_bool (3 # 4) (maxSeverity situation) then [escalation] else []))%list in
  take 5 actions.

End NextActions.

(** * Auxiliary predicates used in the statements and invariants *)

Module Specs.

(** What the grouping loop maintains: distinct keys, each entry holding the
    alerts of its entity in batch order, every entity of the batch present. *)
Definition grouped (m : list (string * list Alert)) (l : list Alert) : Prop :=
  NoDup m.*1
  /\ (forall k v, OMap.get m k = Some v -> v = filter (fun a => entityKeyOf a = k) l)
  /\ (forall a, a ∈ l -> entityKeyOf a ∈ m.*1).

(** The entity keys of a list of alerts, each once, in the order in which
    they first occur. *)
Definition firstSeen (l : list Alert) : list string :=
  fold_left (fun ks a => set_add ks (entityKeyOf a)) l [].

(** The similarity as the specification words it, on 1-second histograms:
    [<A, B shifted by lag> / sqrt (<A, A> * <B, B>)], with
    [(B shifted by lag)[i] = B[i + lag]]. *)
Definition dot_shifted (A B : list (Z * Z)) (lag : Z) : Z :=
  fold_left (fun acc '(bin, a) => acc + a * default 0 (OMap.get B (bin + lag))) A 0.

Definition norm2 (A : list (Z * Z)) : Z :=
  fold_left (fun acc '(_, a) => acc + a * a) A 0.

Definition cosine (A B : list (Z * Z)) (lag : Z) : R :=
  (IZR (dot_shifted A B lag) / sqrt (IZR (norm2 A * norm2 B)))%R.

(** Directed walks in the adjacency hints: [edge adj v w] when [w] is listed
    among the neighbours of [v]; [walk adj src n v] when [n] edges lead from
    [src] to [v]. *)
Definition edge (adj : gmap string (list string)) (v w : string) : Prop :=
  w ∈ default [] (adj !! v).

Inductive walk (adj : gmap string (list string)) (src : string)
  : nat -> string -> Prop :=
| walk_O : walk adj src 0 src
| walk_S n v w : walk adj src n v -> edge adj v w -> walk adj src (S n) w.

(** What the [while] loop of [shortestPathLen] maintains on its queue and
    [seen] set: labels are exact distances, the queue is ordered by label
    within a span of one, and every seen string is still queued, or has had
    all its neighbours seen, or lies at the depth limit or beyond. *)
Record bfs_inv (adj : gmap string (list string)) (src dst : string) (limit : nat)
    (queue : list (string * nat)) (seen : gset string) : Prop := mkBfsInv {
  inv_src : src ∈ seen;
  inv_dst : dst ∉ seen;
  inv_univ : seen ⊆ Score.vertices adj src;
  inv_lab : forall v l, (v, l) ∈ queue ->
      v ∈ seen /\ walk adj src l v /\ (forall n, walk adj src n v -> (l <= n)%nat)
      /\ (l <= limit)%nat;
  inv_sorted : StronglySorted (fun x y : string * nat => (x.2 <= y.2)%nat) queue;
  inv_span : forall v l v' l', head queue = Some (v, l) -> (v', l') ∈ queue ->
      (l' <= S l)%nat;
  inv_done : forall u, u ∈ seen ->
      u ∈ queue.*1 \/ (forall w, edge adj u w -> w ∈ seen)
      \/ (forall k, walk adj src k u -> (limit <= k)%nat)
}.

(** The same while the neighbours of [current] (label [d]) are scanned,
    [done] being the neighbours already handled. *)
Record scan_inv (adj : gmap string (list string)) (src dst : string) (limit : nat)
    (current : string) (d : nat) (done : list string)
    (queue : list (string * nat)) (seen : gset string) : Prop := mkScanInv {
  sc_src : src ∈ seen;
  sc_dst : dst ∉ seen;
  sc_univ : seen ⊆ Score.vertices adj src;
  sc_lab : forall v l, (v, l) ∈ queue ->
      v ∈ seen /\ walk adj src l v /\ (forall n, walk adj src n v -> (l <= n)%nat)
      /\ (l <= limit)%nat /\ (d <= l <= S d)%nat;
  sc_sorted : StronglySorted (fun x y : string * nat => (x.2 <= y.2)%nat) queue;
  sc_done : forall u, u ∈ seen ->
      u ∈ queue.*1 \/ (forall w, edge adj u w -> w ∈ seen)
      \/ (forall k, walk adj src k u -> (limit <= k)%nat)
      \/ (u = current /\ forall w, w ∈ done -> w ∈ seen);
  sc_near : forall k u, walk adj src k u -> (k <= d)%nat -> u ∈ seen
}.

(** Parent chains of the union-find: [chain P x r k] when [k] parent links
    lead from [x] to the root [r] (a key that is its own parent). *)
Inductive chain (P : gmap nat nat) : nat -> nat -> nat -> Prop :=
| chain_root x : P !! x = Some x -> chain P x x 0
| chain_step x p r k :
    P !! x = Some p -> p <> x -> chain P p r k -> chain P x r (S k).

Definition same_root (P : gmap nat nat) (x y : nat) : Prop :=
  exists r kx ky, chain P x r kx /\ chain P y r ky.

(** Every node of [N] reaches a root within [B] links. *)
Definition grouped_inv (N : gset nat) (P : gmap nat nat) (B : nat) : Prop :=
  forall x, x ∈ N -> exists r k, chain P x r k /\ (k <= B)%nat.

End Specs.

(** * Invariants and shapes used in the statements below *)

Module Invariants.

(** Shape of the dedup worker's four maps: [counts] and [lastToggle] have
    the same keys, every key of [lastSeen] and of [flapCounts] is among
    them, and the stored counters are positive. *)
Definition dedup_ok (st : Dedup.DedupState) : Prop :=
  (forall k, is_Some (Dedup.counts st !! k) <-> is_Some (Dedup.lastToggle st !! k))
  /\ (forall k, is_Some (Dedup.lastSeen st !! k) -> is_Some (Dedup.counts st !! k))
  /\ (forall k, is_Some (Dedup.flapCounts st !! k) -> is_Some (Dedup.counts st !! k))
  /\ (forall k n, Dedup.counts st !! k = Some n -> 1 <= n)
  /\ (forall k n, Dedup.flapCounts st !! k = Some n -> 1 <= n).

(** What the cluster worker maintains for an episode stored under [k]: the
    key is made of the episode's entity key and fingerprint; the retained
    alerts all belong to this key, are at most 50 and at most [count], start
    with the alert that opened the episode, their ids and sources are
    recorded and none is more severe than the episode; [ids] and
    [vendorMix] hold no duplicates. *)
Definition episode_ok (k : string) (e : Episode) : Prop :=
  k = ep_entity_key e ++ "|" ++ ep_fingerprint e
  /\ (forall a, a ∈ alerts e ->
        Cluster.generateEpisodeKey a = k
        /\ vendor_event_id a ∈ ids e /\ source a ∈ vendorMix e
        /\ Cluster.getSeverityWeight (severity a)
           <= Cluster.getSeverityWeight (ep_severity e))
  /\ (length (alerts e) <= 50)%nat
  /\ Z.of_nat (length (alerts e)) <= count e
  /\ (exists a0, head (alerts e) = Some a0 /\ start e = ts a0)
  /\ NoDup (ids e) /\ NoDup (vendorMix e).

Definition cluster_ok (st : Cluster.State) : Prop :=
  NoDup (Cluster.episodes st).*1
  /\ forall k e, (k, e) ∈ Cluster.episodes st -> episode_ok k e.

(** The entity index of the cluster worker agrees with its episode map:
    both have distinct keys; every stored episode is listed under its
    entity; every list of the index is non-empty, duplicate-free and lists
    only keys of stored episodes of that entity. *)
Definition index_ok (st : Cluster.State) : Prop :=
  NoDup (Cluster.episodes st).*1
  /\ NoDup (Cluster.entityEpisodes st).*1
  /\ (forall k e, OMap.get (Cluster.episodes st) k = Some e ->
        exists keys, OMap.get (Cluster.entityEpisodes st) (ep_entity_key e) = Some keys
                     /\ k ∈ keys)
  /\ (forall ent keys, OMap.get (Cluster.entityEpisodes st) ent = Some keys ->
        keys <> [] /\ NoDup keys
        /\ forall k, k ∈ keys ->
             exists e, OMap.get (Cluster.episodes st) k = Some e /\ ep_entity_key e = ent).

(** What every lag estimate satisfies: a lag that is a whole number of
    seconds between 0 and [bound], and a score [lag_num / sqrt lag_den2]
    with [0 <= lag_num], [0 < lag_den2] and [lag_num^2 <= lag_den2]. *)
Definition lag_ok (bound : Z) (r : Score.LagResult) : Prop :=
  0 <= Score.lagMs r <= bound
  /\ (1000 | Score.lagMs r)
  /\ 0 <= Score.lag_num r
  /\ 0 < Score.lag_den2 r
  /\ Score.lag_num r * Score.lag_num r <= Score.lag_den2 r.

(** The value [getKey] selects for one entry of [rule.key]. *)
Definition keyField (e : K8s.K8sEvent) (k : string) : string :=
  if decide (k = "involvedObject.name") then K8s.or_empty (K8s.involved_name e)
  else if decide (k = "involvedObject.kind") then K8s.or_empty (K8s.involved_kind e)
  else K8s.or_empty (K8s.field e k).

(** Alerts of the same rule and key lie at least [c] apart (by the time of
    the event that triggered them), in the order of the list. *)
Definition spaced (c : Z) (l : list K8s.KAlert) : Prop :=
  forall i j a1 a2, l !! i = Some a1 -> l !! j = Some a2 -> (i < j)%nat ->
    K8s.tag_rule a1 = K8s.tag_rule a2 -> K8s.tag_key a1 = K8s.tag_key a2 ->
    K8s.last_ts a1 + c <= K8s.last_ts a2.

End Invariants.

(** * Facts about the helpers *)

Section SortFacts.
Context {A : Type} (key : A -> Z).

Let le_key (x y : A) : Prop := key x <= key y.

Lemma insert_by_sorted x l :
  StronglySorted le_key l -> StronglySorted le_key (insert_by key x l).
Proof.
  induction 1 as [|y l Hs IH Hall]; simpl.
  - repeat constructor.
  - destruct (Z.leb_spec (key x) (key y)) as [Hle|Hgt].
    + constructor; [by constructor|].
      constructor; [exact Hle|].
      eapply Forall_impl; [exact Hall|]. intros z Hz. unfold le_key in *. lia.
    + constructor; [exact IH|].
      assert (Hin : forall z, z ∈ insert_by key x l -> z = x \/ z ∈ l).
      { clear. induction l as [|w l IHl]; simpl; intros z Hz.
        - apply list_elem_of_singleton in Hz. by left.
        - destruct (key x <=? key w).
          + apply elem_of_cons in Hz as [->|Hz]; [by left|by right].
          + apply elem_of_cons in Hz as [->|Hz]; [right; by left|].
            destruct (IHl _ Hz) as [->|?]; [by left|right; by right]. }
      apply Forall_forall. intros z Hz.
      destruct (Hin _ Hz) as [->|Hz'].
      * unfold le_key. lia.
      * eapply Forall_forall in Hall; eauto.
Qed.

Lemma sort_by_sorted l : StronglySorted le_key (sort_by key l).
Proof.
  induction l as [|x l IH]; simpl; [constructor|].
  by apply insert_by_sorted.
Qed.

(** Inserting in front of a list whose keys are all at least the new one
    is a cons: the sort leaves an ordered list untouched. *)
Lemma insert_by_head x l :
  Forall (le_key x) l -> insert_by key x l = x :: l.
Proof.
  destruct 1 as [|y l Hy _]; simpl; [done|].
  unfold le_key in Hy. by destruct (Z.leb_spec (key x) (key y)); [|lia].
Qed.

Lemma sort_by_id l : StronglySorted le_key l -> sort_by key l = l.
Proof.
  induction 1 as [|x l _ IH Hall]; simpl; [done|].
  rewrite IH. by apply insert_by_head.
Qed.

Lemma insert_by_perm x l : insert_by key x l ≡ₚ x :: l.
Proof.
  induction l as [|y l IH]; simpl; [done|].
  destruct (key x <=? key y); [done|]. rewrite IH. apply Permutation_swap.
Qed.

Lemma sort_by_perm l : sort_by key l ≡ₚ l.
Proof.
  induction l as [|x l IH]; simpl; [done|].
  by rewrite insert_by_perm, IH.
Qed.

Lemma StronglySorted_sublist_of (l k : list A) :
  l `sublist_of` k -> StronglySorted le_key k -> StronglySorted le_key l.
Proof.
  induction 1 as [|x l k Hsub IH|x l k Hsub IH]; intros Hk.
  - constructor.
  - apply StronglySorted_inv in Hk as [Hk Hall]. constructor; [by apply IH|].
    apply Forall_forall. intros z Hz.
    eapply Forall_forall in Hall; [exact Hall|]. by eapply sublist_subseteq.
  - apply StronglySorted_inv in Hk as [Hk _]. by apply IH.
Qed.
End SortFacts.


Section OMapFacts.
Context {K V : Type} `{EqDecision K}.
Implicit Types (m : list (K * V)) (k : K) (v : V).

Lemma omap_get_set m k v k' :
  OMap.get (OMap.set m k v) k' = if decide (k = k') then Some v else OMap.get m k'.
Proof.
  induction m as [|[k0 v0] m IH]; simpl.
  - by destruct (decide (k = k')).
  - destruct (decide (k0 = k)) as [->|Hne]; simpl.
    + by destruct (decide (k = k')).
    + destruct (decide (k0 = k')) as [->|Hne'].
      * by destruct (decide (k = k')); [congruence|].
      * exact IH.
Qed.

Lemma omap_get_keys m k : OMap.get m k = None <-> k ∉ m.*1.
Proof.
  induction m as [|[k0 v0] m IH]; simpl.
  - split; [intros _; apply not_elem_of_nil|done].
  - rewrite not_elem_of_cons. destruct (decide (k0 = k)) as [->|Hne].
    + split; [done|]. by intros [? _].
    + rewrite IH. split; [intros ?; split; [congruence|done]|by intros [_ ?]].
Qed.

Lemma omap_keys_set_in m k v : k ∈ m.*1 -> (OMap.set m k v).*1 = m.*1.
Proof.
  induction m as [|[k0 v0] m IH]; simpl; intros Hin.
  - by apply elem_of_nil in Hin.
  - destruct (decide (k0 = k)) as [->|Hne]; simpl; [done|].
    apply elem_of_cons in Hin as [->|Hin]; [done|]. f_equal. by apply IH.
Qed.

Lemma omap_keys_set_notin m k v :
  k ∉ m.*1 -> (OMap.set m k v).*1 = (m.*1 ++ [k])%list.
Proof.
  induction m as [|[k0 v0] m IH]; simpl; intros Hin; [done|].
  apply not_elem_of_cons in Hin as [Hne Hin].
  destruct (decide (k0 = k)) as [->|_]; simpl; [done|]. f_equal. by apply IH.
Qed.

Lemma omap_get_elem_of m k v :
  NoDup m.*1 -> (k, v) ∈ m -> OMap.get m k = Some v.
Proof.
  induction m as [|[k0 v0] m IH]; simpl; intros Hnd Hin.
  - by apply elem_of_nil in Hin.
  - apply NoDup_cons in Hnd as [Hk0 Hnd].
    apply elem_of_cons in Hin as [Heq|Hin].
    + injection Heq as -> ->. by destruct (decide (k0 = k0)).
    + destruct (decide (k0 = k)) as [->|Hne]; [|by apply IH].
      exfalso. apply Hk0. apply list_elem_of_fmap. by exists (k, v).
Qed.

Lemma omap_set_NoDup m k v : NoDup m.*1 -> NoDup (OMap.set m k v).*1.
Proof.
  intros Hnd. destruct (decide (k ∈ m.*1)) as [Hin|Hnin].
  - by rewrite omap_keys_set_in.
  - rewrite omap_keys_set_notin by done. apply NoDup_app. split; [done|].
    split; [|apply NoDup_singleton].
    intros x Hx Hx'. apply list_elem_of_singleton in Hx' as ->. done.
Qed.
End OMapFacts.

(** * The dedup worker: properties *)

Module DedupFacts.
Import Dedup Samples Specs.

Lemma sublist_fmap {A B} (f : A -> B) (l k : list A) :
  l `sublist_of` k -> f <$> l `sublist_of` f <$> k.
Proof. induction 1; simpl; by constructor. Qed.

(** Swapping the last two of three distinct elements is not order
    preserving. *)
Lemma no_swap (x y z : Z) :
  y <> z -> x <> y -> x <> z -> ~ [x; z; y] `sublist_of` [x; y; z].
Proof.
  intros Hyz Hxy Hxz H.
  repeat match goal with
         | H : _ `sublist_of` _ |- _ =>
             first [ by (apply sublist_length in H; simpl in H; lia)
                   | inversion H; clear H; subst; try congruence ]
         end.
Qed.

Lemma processAlerts_sublist st batch ttlMs :
  (processAlerts st batch ttlMs).2 `sublist_of` batch.
Proof.
  revert st. induction batch as [|a rest IH]; intros st; simpl; [constructor|].
  destruct (processAlert st a ttlMs) as [st1 keep].
  specialize (IH st1). destruct (processAlerts st1 rest ttlMs) as [st2 out].
  simpl in *. destruct keep; by constructor.
Qed.

Lemma limitEntity_sublist now n l : limitEntity now n l `sublist_of` l.
Proof.
  revert n. induction l as [|a l IH]; intros n; simpl; [constructor|].
  destruct (now - ts a <=? rateLimitWindow).
  - destruct (n <? maxAlertsPerMinute); by constructor.
  - by constructor.
Qed.

Lemma grouped_step m l a :
  grouped m l ->
  grouped (OMap.set m (entityKeyOf a) (default [] (OMap.get m (entityKeyOf a)) ++ [a])%list)
          (l ++ [a]).
Proof.
  intros (Hnd & Hget & Hkeys). split; [by apply omap_set_NoDup|]. split.
  - intros k v. rewrite omap_get_set, filter_app.
    destruct (decide (entityKeyOf a = k)) as [Hk|Hk].
    + intros [= <-]. rewrite filter_cons_True, filter_nil by done. f_equal.
      destruct (OMap.get m (entityKeyOf a)) as [v0|] eqn:Hv0; simpl.
      * rewrite <- Hk. by apply Hget.
      * symmetry. apply omap_get_keys in Hv0.
        destruct (filter _ l) as [|b ?] eqn:Hf; [done|].
        assert (Hb : b ∈ filter (fun a0 => entityKeyOf a0 = k) l) by (rewrite Hf; by left).
        apply list_elem_of_filter in Hb as [Hb1 Hb2].
        exfalso. apply Hv0. rewrite Hk, <- Hb1. by apply Hkeys.
    + intros Hv. rewrite filter_cons_False, filter_nil, app_nil_r by done.
      by apply Hget.
  - intros b Hb. apply dec_stable. intros Hn. apply omap_get_keys in Hn.
    rewrite omap_get_set in Hn. destruct (decide (entityKeyOf a = entityKeyOf b)) as [|Hne]; [done|].
    apply omap_get_keys in Hn. apply Hn.
    apply elem_of_app in Hb as [Hb|Hb]; [by apply Hkeys|].
    apply list_elem_of_singleton in Hb as ->. done.
Qed.

Lemma groupByEntity_grouped l : grouped (groupByEntity l) l.
Proof.
  unfold groupByEntity.
  assert (H : forall m l0, grouped m l0 ->
            grouped (fold_left
              (fun (m : list (string * list Alert)) a =>
                 OMap.set m (entityKeyOf a)
                   (default [] (OMap.get m (entityKeyOf a)) ++ [a])%list) l m) (l0 ++ l)).
  { induction l as [|a l IH]; intros m l0 Hm; simpl.
    - by rewrite app_nil_r.
    - replace (l0 ++ a :: l)%list with ((l0 ++ [a]) ++ l)%list by (by rewrite <- app_assoc).
      apply IH. by apply grouped_step. }
  apply (H [] []). split; [constructor|]. split.
  - intros k v [=].
  - intros a Ha. by apply elem_of_nil in Ha.
Qed.

(** Selecting one entity in the concatenation of the per-entity outputs
    yields the output of that entity's group. *)
Lemma filter_concat_groups (F : list Alert -> list Alert) (m : list (string * list Alert)) ek :
  (forall l a, a ∈ F l -> a ∈ l) ->
  NoDup m.*1 ->
  (forall k v, (k, v) ∈ m -> Forall (fun a => entityKeyOf a = k) v) ->
  filter (fun a => entityKeyOf a = ek) (concat (map (fun '(_, l) => F l) m))
  = default [] (F <$> OMap.get m ek).
Proof.
  intros HF. induction m as [|[k0 v0] m IH]; intros Hnd Hall; [done|].
  apply NoDup_cons in Hnd as [Hk0 Hnd]. simpl. rewrite filter_app.
  assert (Hv0 : Forall (fun a => entityKeyOf a = k0) (F v0)).
  { apply Forall_forall. intros a Ha. apply HF in Ha.
    specialize (Hall k0 v0 ltac:(by left)). by eapply Forall_forall in Hall. }
  rewrite IH; [|done|intros k v Hkv; apply Hall; by right].
  destruct (decide (k0 = ek)) as [->|Hne].
  - assert (OMap.get m ek = None) as -> by (by apply omap_get_keys).
    simpl. rewrite app_nil_r. clear -Hv0.
    induction (F v0) as [|a l IHl]; [done|].
    apply Forall_cons in Hv0 as [Ha Hl]. rewrite filter_cons_True by done. by rewrite IHl.
  - replace (filter _ (F v0)) with (@nil Alert); [done|].
    symmetry. clear -Hv0 Hne. induction (F v0) as [|a l IHl]; [done|].
    apply Forall_cons in Hv0 as [Ha Hl].
    rewrite filter_cons_False by congruence. by apply IHl.
Qed.

(** The alerts of one entity in the output of [applyRateLimiting]: that
    entity's alerts, sorted, then rate limited. *)
Lemma applyRateLimiting_entity now l ek :
  filter (fun a => entityKeyOf a = ek) (applyRateLimiting now l)
  = match OMap.get (groupByEntity l) ek with
    | Some g => limitEntity now 0 (sort_by_ts g)
    | None => []
    end.
Proof.
  destruct (groupByEntity_grouped l) as (Hnd & Hget & Hkeys).
  unfold applyRateLimiting.
  rewrite (filter_concat_groups (fun g => limitEntity now 0 (sort_by_ts g))); [| |done|].
  - by destruct (OMap.get (groupByEntity l) ek).
  - intros g a Ha. rewrite <- (sort_by_perm ts g).
    eapply sublist_subseteq; [apply limitEntity_sublist|done].
  - intros k v Hkv. apply omap_get_elem_of in Hkv; [|done].
    rewrite (Hget _ _ Hkv). apply Forall_forall. intros a Ha.
    by apply list_elem_of_filter in Ha as [? _].
Qed.

(** The same without the grouping map. *)
Lemma applyRateLimiting_block now l ek :
  filter (fun a => entityKeyOf a = ek) (applyRateLimiting now l)
  = limitEntity now 0 (sort_by_ts (filter (fun a => entityKeyOf a = ek) l)).
Proof.
  rewrite applyRateLimiting_entity.
  destruct (groupByEntity_grouped l) as (Hnd & Hget & Hkeys).
  destruct (OMap.get (groupByEntity l) ek) as [g|] eqn:Hg.
  - by rewrite (Hget _ _ Hg).
  - apply omap_get_keys in Hg.
    destruct (filter _ l) as [|b ?] eqn:Hf; [done|].
    assert (Hb : b ∈ filter (fun a0 => entityKeyOf a0 = ek) l) by (rewrite Hf; by left).
    apply list_elem_of_filter in Hb as [Hb1 Hb2].
    exfalso. apply Hg. rewrite <- Hb1. by apply Hkeys.
Qed.

(** The grouping map lists the entities in the order of their first
    occurrence. *)
Lemma groupByEntity_keys l : (groupByEntity l).*1 = firstSeen l.
Proof.
  unfold groupByEntity, firstSeen.
  assert (H : forall (m : list (string * list Alert)),
            (fold_left
               (fun (m : list (string * list Alert)) a =>
                  OMap.set m (entityKeyOf a)
                    (default [] (OMap.get m (entityKeyOf a)) ++ [a])%list) l m).*1
            = fold_left (fun ks a => set_add ks (entityKeyOf a)) l m.*1).
  { induction l as [|a l IH]; intros m; simpl; [done|].
    rewrite IH. f_equal. unfold set_add.
    destruct (decide (entityKeyOf a ∈ m.*1)) as [Hin|Hnin].
    - by apply omap_keys_set_in.
    - by apply omap_keys_set_notin. }
  apply (H []).
Qed.

(** The output of [applyRateLimiting] is the concatenation of its
    per-entity parts, the entities in the order of their first occurrence. *)
Lemma applyRateLimiting_blocks now l :
  applyRateLimiting now l
  = concat (map (fun k => filter (fun a => entityKeyOf a = k) (applyRateLimiting now l))
                (firstSeen l)).
Proof.
  rewrite <- groupByEntity_keys.
  destruct (groupByEntity_grouped l) as (Hnd & Hget & Hkeys).
  unfold applyRateLimiting at 1. f_equal.
  assert (H : forall (m : list (string * list Alert)) (F : string * list Alert -> list Alert)
                (G : string -> list Alert),
            (forall k g, (k, g) ∈ m -> F (k, g) = G k) -> map F m = map G m.*1).
  { induction m as [|[k g] m IH]; intros F G HFG; simpl; [done|]. f_equal.
    - apply HFG. by left.
    - apply IH. intros k' g' Hin. apply HFG. by right. }
  apply H. intros k g Hin.
  rewrite applyRateLimiting_entity.
  by rewrite (omap_get_elem_of _ _ _ Hnd Hin).
Qed.

(** C7, amended.  The retained alerts leave the stage grouped by entity: the
    output is the concatenation of its per-entity parts, each entity once,
    in the order in which the entities first occur among the alerts that
    passed the dedup pass.  The part of one entity consists of that entity's
    alerts sorted by timestamp and then rate limited; it is in
    non-decreasing timestamp order, and in batch order when the batch is
    itself ordered by timestamp. *)
Theorem retained_order_within_entity st batch ttlMs nowRate nowGc ek :
  let processed := (processAlerts st batch ttlMs).2 in
  let out := (onmessage st batch ttlMs nowRate nowGc).2 in
  let mine := filter (fun a => entityKeyOf a = ek) out in
  NoDup (firstSeen processed)
  /\ out = concat (map (fun k => filter (fun a => entityKeyOf a = k) out)
                       (firstSeen processed))
  /\ mine = limitEntity nowRate 0
              (sort_by_ts (filter (fun a => entityKeyOf a = ek) processed))
  /\ StronglySorted (fun a b => ts a <= ts b) mine
  /\ (StronglySorted (fun a b => ts a <= ts b) batch -> mine `sublist_of` batch).
Proof.
  unfold onmessage.
  pose proof (processAlerts_sublist st batch ttlMs) as Hsub.
  destruct (processAlerts st batch ttlMs) as [st1 processed]. simpl in *.
  split; [|split; [|split]].
  - rewrite <- groupByEntity_keys. apply (groupByEntity_grouped processed).
  - apply applyRateLimiting_blocks.
  - apply applyRateLimiting_block.
  - rewrite applyRateLimiting_block. split.
    + eapply StronglySorted_sublist_of; [apply limitEntity_sublist|].
      apply sort_by_sorted.
    + intros Hbatch.
      assert (Hgs : StronglySorted (fun a b => ts a <= ts b)
                      (filter (fun a => entityKeyOf a = ek) processed)).
      { eapply StronglySorted_sublist_of; [|exact Hbatch].
        etrans; [apply sublist_filter|done]. }
      unfold sort_by_ts. rewrite sort_by_id by done.
      etrans; [apply limitEntity_sublist|].
      etrans; [apply sublist_filter|done].
Qed.

Lemma retained_order_within_entity_witness :
  let out := (onmessage empty_state [ordA1; ordB; ordA2] 120000 (t0 + 2500) (t0 + 2600)).2 in
  StronglySorted (fun a b => ts a <= ts b) [ordA1; ordB; ordA2]
  /\ filter (fun a => entityKeyOf a = "svc-a") out `sublist_of` [ordA1; ordB; ordA2].
Proof.
  assert (Hs : StronglySorted (fun a b => ts a <= ts b) [ordA1; ordB; ordA2]).
  { repeat constructor; vm_compute; discriminate. }
  split; [exact Hs|].
  exact (proj2 (proj2 (proj2 (proj2
           (retained_order_within_entity empty_state [ordA1; ordB; ordA2]
              120000 (t0 + 2500) (t0 + 2600) "svc-a")))) Hs).
Defined.

(** C7 as stated fails: a batch interleaving two entities leaves the stage
    regrouped by entity, so its relative order is not the input order. *)
Lemma rate_limiting_regroups_entities :
  let batch := [ordA1; ordB; ordA2] in
  let out := (onmessage empty_state batch 120000 (t0 + 2500) (t0 + 2600)).2 in
  out = [ordA1; ordA2; ordB] /\ ~ out `sublist_of` batch.
Proof.
  assert (Hout : (onmessage empty_state [ordA1; ordB; ordA2] 120000 (t0 + 2500) (t0 + 2600)).2
                 = [ordA1; ordA2; ordB]) by (vm_compute; reflexivity).
  cbv zeta. rewrite Hout. split; [reflexivity|].
  intros Hsub. apply (sublist_fmap ts) in Hsub.
  apply (no_swap (ts ordA1) (ts ordB) (ts ordA2)) in Hsub; [done|..];
    vm_compute; discriminate.
Qed.

(** The collector removes exactly the stale keys from any of the maps. *)
Lemma sweep_lookup {V} now (seen : gmap string Z) (m : gmap string V) k :
  sweep now seen m !! k = if stale now seen k then None else m !! k.
Proof.
  unfold sweep. rewrite map_lookup_filter.
  destruct (m !! k) as [v|]; simpl; [|by destruct (stale now seen k)].
  case_guard as Hg; simpl in *; destruct (stale now seen k); done.
Qed.

Lemma processAlert_fst st a ttlMs :
  (processAlert st a ttlMs).1 = (updateDedupState st a ttlMs).1.
Proof.
  unfold processAlert. destruct (updateDedupState st a ttlMs) as [st' [d c]].
  destruct d; [|done]. by destruct (3 <? _).
Qed.

Lemma processAlert_snd st a ttlMs :
  (processAlert st a ttlMs).2
  = negb ((updateDedupState st a ttlMs).2.1
          && (3 <? get_or_0 (flapCounts (updateDedupState st a ttlMs).1)
                            (generateDedupKey a))).
Proof.
  unfold processAlert. destruct (updateDedupState st a ttlMs) as [st' [d c]].
  destruct d; [|done]. simpl. by destruct (3 <? _).
Qed.

(** C2: the scenario "single duplicate" run on the worker.  Both copies
    leave the stage (the claim: at most one), with count 2 and no flap; the
    sibling [deduplicateAlerts] of main.js keeps one. *)
Theorem duplicate_forwarded_by_worker :
  let k := generateDedupKey dupFirst in
  let r := onmessage empty_state [dupFirst; dupSecond] 120000 (t0 + 30500) (t0 + 30600) in
  r.2 = [dupFirst; dupSecond]
  /\ counts r.1 !! k = Some 2
  /\ flapCounts r.1 !! k = None
  /\ Engine.deduplicateAlerts 120000 [dupFirst; dupSecond] = [dupFirst].
Proof. vm_compute. repeat split; reflexivity. Qed.

(** C4, amended: on a duplicate the flap counter goes up by one exactly when
    a stored last status exists and differs, the alert is dropped exactly
    when the counter then exceeds 3, and in the toggling scenario the first
    four alerts pass (the counter reaches 3) and the fifth is dropped. *)
Theorem flap_drop_rule st a ttlMs :
  isDuplicate st a ttlMs = true ->
  let k := generateDedupKey a in
  let st' := (processAlert st a ttlMs).1 in
  let kept := (processAlert st a ttlMs).2 in
  get_or_0 (flapCounts st') k
  = get_or_0 (flapCounts st) k
    + match lastToggle st !! k with
      | Some lastStatus => if decide (lastStatus <> status a) then 1 else 0
      | None => 0
      end
  /\ (kept = false <-> 3 < get_or_0 (flapCounts st') k)
  /\ (processAlerts empty_state [flap1; flap2; flap3; flap4; flap5] 120000).2
     = [flap1; flap2; flap3; flap4].
Proof.
  unfold isDuplicate. intros Hdup. cbv zeta.
  rewrite processAlert_fst, processAlert_snd.
  unfold updateDedupState. rewrite Hdup. cbn [fst snd flapCounts andb].
  split; [|split].
  - destruct (lastToggle st !! generateDedupKey a) as [s|]; [|lia].
    destruct (decide (s <> status a)); [|lia].
    unfold get_or_0 at 1. by rewrite lookup_insert_eq.
  - match goal with |- context [3 <? ?x] => destruct (Z.ltb_spec 3 x) end; simpl.
    + split; [done|]. done.
    + split; [done|lia].
  - vm_compute. reflexivity.
Qed.

Lemma flap_drop_rule_witness :
  isDuplicate (processAlerts empty_state [flap1] 120000).1 flap2 120000 = true
  /\ ((processAlert (processAlerts empty_state [flap1] 120000).1 flap2 120000).2 = false
      <-> 3 < get_or_0 (flapCounts (processAlert (processAlerts empty_state [flap1] 120000).1
                                      flap2 120000).1) (generateDedupKey flap2)).
Proof.
  assert (H : isDuplicate (processAlerts empty_state [flap1] 120000).1 flap2 120000 = true)
    by (vm_compute; reflexivity).
  split; [exact H|].
  exact (proj1 (proj2 (flap_drop_rule _ flap2 120000 H))).
Defined.

(** C4 as stated fails on its scenario: with four toggling alerts the fourth
    is not dropped. *)
Lemma flap_scenario_fourth_not_dropped :
  (processAlerts empty_state [flap1; flap2; flap3; flap4] 120000).2
  = [flap1; flap2; flap3; flap4]
  /\ (processAlerts empty_state [flap1; flap2; flap3; flap4] 120000).2
     <> [flap1; flap2; flap3].
Proof.
  assert (H : (processAlerts empty_state [flap1; flap2; flap3; flap4] 120000).2
              = [flap1; flap2; flap3; flap4]) by (vm_compute; reflexivity).
  split; [exact H|]. rewrite H. discriminate.
Qed.

Lemma processAlerts_app st l1 l2 ttlMs :
  processAlerts st (l1 ++ l2) ttlMs
  = ((processAlerts (processAlerts st l1 ttlMs).1 l2 ttlMs).1,
     ((processAlerts st l1 ttlMs).2
      ++ (processAlerts (processAlerts st l1 ttlMs).1 l2 ttlMs).2)%list).
Proof.
  revert st. induction l1 as [|a l1 IH]; intros st; simpl.
  - by destruct (processAlerts st l2 ttlMs).
  - destruct (processAlert st a ttlMs) as [st1 keep]. rewrite IH.
    destruct (processAlerts st1 l1 ttlMs) as [st2 out]. simpl.
    by destruct keep.
Qed.

Lemma limitEntity_old now (l : list Alert) : forall n,
  filter (fun a => rateLimitWindow < now - ts a) (limitEntity now n l)
  = filter (fun a => rateLimitWindow < now - ts a) l.
Proof.
  induction l as [|a l IH]; intros n; simpl; [done|].
  destruct (Z.leb_spec (now - ts a) rateLimitWindow) as [Hin|Hout].
  - rewrite (filter_cons_False _ a l) by lia.
    destruct (n <? maxAlertsPerMinute); [|by apply IH].
    rewrite filter_cons_False by lia. by apply IH.
  - rewrite !filter_cons_True by done. f_equal. by apply IH.
Qed.

Lemma limitEntity_all now (l : list Alert) : forall n,
  n + Z.of_nat (length (filter (fun a => now - ts a <= rateLimitWindow) l))
  <= maxAlertsPerMinute ->
  limitEntity now n l = l.
Proof.
  induction l as [|a l IH]; intros n Hn; simpl; [done|].
  destruct (Z.leb_spec (now - ts a) rateLimitWindow) as [Hin|Hout].
  - rewrite filter_cons_True in Hn by done. simpl length in Hn.
    destruct (Z.ltb_spec n maxAlertsPerMinute) as [Hlt|Hge]; [|lia].
    f_equal. apply IH. lia.
  - rewrite filter_cons_False in Hn by lia. f_equal. by apply IH.
Qed.

(** An alert that passed the dedup pass is posted unless the rate limiter
    counts it out. *)
Lemma applyRateLimiting_keeps now (l : list Alert) (a : Alert) :
  a ∈ l ->
  rateLimitWindow < now - ts a
  \/ Z.of_nat (length (filter (fun b => now - ts b <= rateLimitWindow)
                         (filter (fun b => entityKeyOf b = entityKeyOf a) l)))
     <= maxAlertsPerMinute ->
  a ∈ applyRateLimiting now l.
Proof.
  intros Hin Hcond.
  assert (Hmine : a ∈ filter (fun b => entityKeyOf b = entityKeyOf a) l)
    by (by apply list_elem_of_filter).
  assert (Hsorted : a ∈ sort_by_ts (filter (fun b => entityKeyOf b = entityKeyOf a) l))
    by (unfold sort_by_ts; by rewrite sort_by_perm).
  cut (a ∈ filter (fun b => entityKeyOf b = entityKeyOf a) (applyRateLimiting now l)).
  { intros H. by apply list_elem_of_filter in H as [_ H]. }
  rewrite applyRateLimiting_block. destruct Hcond as [Hold|Hfew].
  - cut (a ∈ filter (fun b => rateLimitWindow < now - ts b)
               (limitEntity now 0
                  (sort_by_ts (filter (fun b => entityKeyOf b = entityKeyOf a) l)))).
    { intros H. by apply list_elem_of_filter in H as [_ H]. }
    rewrite limitEntity_old. by apply list_elem_of_filter.
  - rewrite limitEntity_all; [done|].
    unfold sort_by_ts. rewrite (sort_by_perm ts). lia.
Qed.

(** C10, amended.  An alert the worker classifies as new, that is one whose
    timestamp lies at least [ttlMs] after [lastSeen[key] || 0], passes the
    dedup pass whatever flap count its key has accumulated, and that count
    is left as it is.  The handler posts it unless the rate limiter counts
    it out: it is posted when it is older than the rate-limit window, and
    when at most 100 alerts of its entity that passed the dedup pass lie
    within the window.  A key that is absent from [lastSeen] counts as last
    seen at 0: its alert is a duplicate exactly when its timestamp is below
    [ttlMs].  Only duplicates are dropped by the dedup pass;
    [updateDedupState] never lowers or removes a flap count; the collector
    removes the counts of stale keys and no others. *)
Theorem new_alert_forwarded st pre a post ttlMs nowRate nowGc :
  let st1 := (processAlerts st pre ttlMs).1 in
  isDuplicate st1 a ttlMs = false ->
  let out := (onmessage st (pre ++ a :: post) ttlMs nowRate nowGc).2 in
  let processed := (processAlerts st (pre ++ a :: post) ttlMs).2 in
  ttlMs <= ts a - get_or_0 (lastSeen st1) (generateDedupKey a)
  /\ (processAlert st1 a ttlMs).2 = true
  /\ flapCounts (processAlert st1 a ttlMs).1 = flapCounts st1
  /\ processed = ((processAlerts st pre ttlMs).2
                  ++ a :: (processAlerts (processAlert st1 a ttlMs).1 post ttlMs).2)%list
  /\ (rateLimitWindow < nowRate - ts a -> a ∈ out)
  /\ (Z.of_nat (length (filter (fun b => nowRate - ts b <= rateLimitWindow)
                          (filter (fun b => entityKeyOf b = entityKeyOf a) processed)))
      <= maxAlertsPerMinute -> a ∈ out)
  /\ (forall st0 b ttl0, lastSeen st0 !! generateDedupKey b = None ->
        (isDuplicate st0 b ttl0 = true <-> ts b < ttl0))
  /\ (forall st0 b ttl0, (processAlert st0 b ttl0).2 = false -> isDuplicate st0 b ttl0 = true)
  /\ (forall st0 b ttl0 k n,
        flapCounts st0 !! k = Some n ->
        exists n', flapCounts (updateDedupState st0 b ttl0).1 !! k = Some n' /\ n <= n')
  /\ (forall now st0 k,
        flapCounts (garbageCollect now st0) !! k
        = if stale now (lastSeen st0) k then None else flapCounts st0 !! k).
Proof.
  intros st1 Hnew out processed. unfold isDuplicate in Hnew.
  assert (Hstep : processAlert st1 a ttlMs
                  = ((updateDedupState st1 a ttlMs).1, true)
                  /\ flapCounts (updateDedupState st1 a ttlMs).1 = flapCounts st1).
  { unfold processAlert, updateDedupState. by rewrite Hnew. }
  destruct Hstep as [Hstep Hflap].
  assert (Hproc : processed
                  = ((processAlerts st pre ttlMs).2
                     ++ a :: (processAlerts (processAlert st1 a ttlMs).1 post ttlMs).2)%list).
  { unfold processed. rewrite processAlerts_app. cbn [snd]. f_equal.
    fold st1. cbn [processAlerts]. rewrite Hstep. cbn [fst].
    by destruct (processAlerts _ post ttlMs). }
  assert (Hin : a ∈ processed).
  { rewrite Hproc. apply elem_of_app. right. by left. }
  assert (Hout : out = applyRateLimiting nowRate processed).
  { unfold out, processed, onmessage. by destruct (processAlerts st (pre ++ a :: post) ttlMs). }
  split; [by apply Z.ltb_ge in Hnew|].
  split; [by rewrite Hstep|]. split; [by rewrite Hstep|]. split; [exact Hproc|].
  split; [|split; [|split; [|split; [|split]]]].
  - intros Hold. rewrite Hout. apply applyRateLimiting_keeps; [done|by left].
  - intros Hfew. rewrite Hout. apply applyRateLimiting_keeps; [done|by right].
  - intros st0 b ttl0 Hnone. unfold isDuplicate, get_or_0. rewrite Hnone. simpl.
    rewrite Z.sub_0_r. apply Z.ltb_lt.
  - intros st0 b ttl0. unfold processAlert, updateDedupState, isDuplicate.
    by destruct (ts b - get_or_0 (lastSeen st0) (generateDedupKey b) <? ttl0).
  - intros st0 b ttl0 k n Hk. unfold updateDedupState.
    destruct (ts b - get_or_0 (lastSeen st0) (generateDedupKey b) <? ttl0); simpl;
      [|exists n; split; [done|lia]].
    destruct (lastToggle st0 !! generateDedupKey b) as [s|]; [|exists n; split; [done|lia]].
    destruct (decide (s <> status b)); [|exists n; split; [done|lia]].
    destruct (decide (generateDedupKey b = k)) as [->|Hne].
    + rewrite lookup_insert_eq. eexists; split; [done|].
      unfold get_or_0. rewrite Hk. simpl. lia.
    + rewrite lookup_insert_ne by done. exists n; split; [done|lia].
  - intros now st0 k. apply sweep_lookup.
Qed.

Lemma new_alert_forwarded_witness :
  isDuplicate flappedState flap1 120000 = false
  /\ get_or_0 (flapCounts flappedState) (generateDedupKey flap1) = 5
  /\ (processAlert flappedState flap1 120000).2 = true
  /\ flapCounts (processAlert flappedState flap1 120000).1 = flapCounts flappedState
  /\ flap1 ∈ (onmessage flappedState [flap1; flap2] 120000 (t0 + 1500) (t0 + 1600)).2.
Proof.
  assert (H : isDuplicate flappedState flap1 120000 = false) by (vm_compute; reflexivity).
  pose proof (new_alert_forwarded flappedState [] flap1 [flap2] 120000
                (t0 + 1500) (t0 + 1600) H) as T.
  cbv zeta in T. destruct T as (_ & T1 & T2 & _ & _ & T3 & _).
  split; [exact H|]. split; [vm_compute; reflexivity|].
  split; [exact T1|]. split; [exact T2|].
  apply T3. apply (Z.le_trans _ 2); [|done]. apply (Nat2Z.inj_le _ 2).
  etrans; [apply length_filter|]. etrans; [apply length_filter|].
  etrans; [apply sublist_length, processAlerts_sublist|]. simpl. lia.
Defined.

(** C10 as stated fails.  A hundred and one alerts of one entity, each with
    a fingerprint of its own and so each new, arrive in one batch within the
    rate-limit window: the last one is classified as new, passes the dedup
    pass, and is not posted.  And five alerts of a never-seen key with
    toggling status and timestamps below [ttlMs]: the key stays absent from
    [lastSeen], yet the fifth alert is dropped as a flap. *)
Lemma new_alert_not_forwarded :
  let last := burstAlert 100 in
  let st100 := (processAlerts empty_state (take 100 burstBatch) 120000).1 in
  let out := (onmessage empty_state burstBatch 120000 (t0 + 1000) (t0 + 1100)).2 in
  burstBatch = (take 100 burstBatch ++ [last])%list
  /\ lastSeen st100 !! generateDedupKey last = None
  /\ isDuplicate st100 last 120000 = false
  /\ (processAlerts empty_state burstBatch 120000).2 = burstBatch
  /\ out = take 100 burstBatch
  /\ (last ∉ out)
  /\ (let st4 := (processAlerts empty_state [early1; early2; early3; early4] 120000).1 in
      lastSeen st4 !! generateDedupKey early5 = None
      /\ (processAlert st4 early5 120000).2 = false
      /\ (onmessage empty_state [early1; early2; early3; early4; early5] 120000
            (t0 + 1000) (t0 + 1100)).2
         = [early1; early2; early3; early4]).
Proof.
  cbv zeta.
  assert (Hout : (onmessage empty_state burstBatch 120000 (t0 + 1000) (t0 + 1100)).2
                 = take 100 burstBatch) by (vm_compute; reflexivity).
  split; [vm_compute; reflexivity|]. split; [vm_compute; reflexivity|].
  split; [vm_compute; reflexivity|]. split; [vm_compute; reflexivity|].
  split; [exact Hout|]. split.
  - rewrite Hout. intros Hin.
    apply (list_elem_of_fmap_2 fingerprint) in Hin.
    assert (Hn : bool_decide (fingerprint (burstAlert 100)
                                ∈ fingerprint <$> take 100 burstBatch) = false)
      by (vm_compute; reflexivity).
    apply bool_decide_eq_false in Hn. exact (Hn Hin).
  - split; [vm_compute; reflexivity|]. split; vm_compute; reflexivity.
Qed.

End DedupFacts.

(** * The cluster worker: properties *)

Module ClusterFacts.
Import Cluster Samples.

Lemma omap_set_same {V} (m : list (string * V)) k v :
  OMap.get m k = Some v -> OMap.set m k v = m.
Proof.
  induction m as [|[k0 v0] m IH]; simpl; [done|].
  destruct (decide (k0 = k)) as [->|Hne].
  - by intros [= ->].
  - intros Hm. by rewrite IH.
Qed.

(** On a gap larger than [gapMs] the handler changes nothing: the stored
    episode stays as it was and no episode is opened for the alert. *)
Lemma gap_break_changes_nothing st a gapMs e :
  OMap.get (episodes st) (generateEpisodeKey a) = Some e ->
  gapMs < ts a - end_ e ->
  assignAlert st a gapMs = st.
Proof.
  intros He Hgap. unfold assignAlert, getOrCreateEpisode, updateEpisode.
  rewrite He. destruct (Z.ltb_spec gapMs (ts a - end_ e)) as [_|?]; [|lia].
  rewrite omap_set_same by done. by destruct st.
Qed.

(** C1: the scenario "episode gap break" run on the worker.  One episode is
    stored, covering [t .. t + 60 s] with count 3 (the first alert is
    counted on creation and again by [updateEpisode]); the alert at
    [t + 300 s] opens no second episode, although all three alerts are
    reported as kept. *)
Theorem gap_scenario_on_worker :
  let r := onmessage empty_state [gap1; gap2; gap3] 120000 (15 * 60000)
             (t0 + 300500) (t0 + 300600) in
  map (fun '(k, e) => (k, start e, end_ e, count e)) (episodes r.1)
  = [("svc-a|cpu-high", t0, t0 + 60000, 3)]
  /\ map (fun e => (start e, end_ e, count e)) r.2.1 = [(t0, t0 + 60000, 3)]
  /\ r.2.2 = [gap1; gap2; gap3].
Proof. vm_compute. repeat split; reflexivity. Qed.

End ClusterFacts.

(** * The threshold engine: properties *)

Module K8sFacts.
Import K8s Samples.






End K8sFacts.

(** * The score worker: the union-find grouping *)

Module GroupFacts.
Import Score Samples Specs.

Lemma chain_det P x r k r' k' :
  chain P x r k -> chain P x r' k' -> r = r' /\ k = k'.
Proof.
  intros H. revert r' k'. induction H as [x Hx|x p r k Hx Hne Hc IH]; intros r' k' H'.
  - inversion H'; subst; [done|congruence].
  - inversion H'; subst; [congruence|].
    assert (p0 = p) as -> by congruence.
    destruct (IH _ _ ltac:(done)) as [-> ->]. done.
Qed.

Lemma chain_root_fixed P x r k : chain P x r k -> P !! r = Some r.
Proof. induction 1; done. Qed.

(** Redirecting [x] to its own root shortens chains and keeps every root. *)
Lemma compress_chain P x r kx :
  chain P x r kx ->
  forall y ry ky, chain P y ry ky ->
    exists ky', chain (<[x := r]> P) y ry ky' /\ (ky' <= ky)%nat.
Proof.
  intros Hx y ry ky Hy. induction Hy as [y Hy|y p ry k Hy Hne Hc IH].
  - exists 0%nat. split; [|done]. constructor.
    destruct (decide (y = x)) as [->|Hyx].
    + destruct (chain_det _ _ _ _ _ _ Hx (chain_root P x Hy)) as [-> _].
      by rewrite lookup_insert_eq.
    + by rewrite lookup_insert_ne.
  - destruct IH as (k' & Hc' & Hk').
    destruct (decide (y = x)) as [->|Hyx].
    + destruct (chain_det _ _ _ _ _ _ Hx (chain_step P x p ry k Hy Hne Hc)) as [-> _].
      pose proof (chain_root_fixed _ _ _ _ Hc) as Hroot.
      assert (ry <> x) by congruence.
      exists 1%nat. split; [|lia].
      apply (chain_step _ x ry ry 0); [by rewrite lookup_insert_eq|done|].
      constructor. by rewrite lookup_insert_ne.
    + exists (S k'). split; [|lia].
      apply (chain_step _ y p ry k'); [by rewrite lookup_insert_ne|done|done].
Qed.

(** [find] succeeds once the fuel exceeds the chain length, returns the
    root, and leaves every root in place. *)
Lemma find_ok fuel : forall P x r k,
  chain P x r k -> (k < fuel)%nat ->
  exists P', find fuel P x = Some (P', r)
             /\ forall y ry ky, chain P y ry ky ->
                  exists ky', chain P' y ry ky' /\ (ky' <= ky)%nat.
Proof.
  induction fuel as [|fuel IH]; intros P x r k Hc Hk; [lia|].
  simpl. inversion Hc as [x' Hx|x' p r' k' Hx Hne Hc']; subst.
  - rewrite Hx. rewrite decide_True by done.
    eexists. split; [done|]. by apply (compress_chain P r r 0).
  - rewrite Hx. rewrite decide_False by done.
    destruct (IH P p r k' Hc' ltac:(lia)) as (P1 & -> & Hpres).
    eexists. split; [done|].
    destruct (Hpres _ _ _ Hc) as (kx & Hcx & _).
    intros y ry ky Hy. destruct (Hpres _ _ _ Hy) as (k1 & Hy1 & Hk1).
    destruct (compress_chain P1 x r kx Hcx y ry k1 Hy1) as (k2 & Hy2 & Hk2).
    exists k2. split; [done|lia].
Qed.

(** Linking the root [ra] under another root [rb]. *)
Lemma link_chain P ra rb :
  P !! ra = Some ra -> P !! rb = Some rb -> ra <> rb ->
  forall y ry ky, chain P y ry ky ->
    chain (<[ra := rb]> P) y (if decide (ry = ra) then rb else ry)
          (if decide (ry = ra) then S ky else ky).
Proof.
  intros Hra Hrb Hne y ry ky Hy. induction Hy as [y Hy|y p ry k Hy Hnp Hc IH].
  - destruct (decide (y = ra)) as [->|Hyr].
    + apply (chain_step _ ra rb rb 0); [by rewrite lookup_insert_eq|done|].
      constructor. by rewrite lookup_insert_ne.
    + constructor. by rewrite lookup_insert_ne.
  - assert (y <> ra) by congruence.
    destruct (decide (ry = ra)); (eapply chain_step; [by rewrite lookup_insert_ne|done|done]).
Qed.

Section Nodes.
Variable N : gset nat.

Lemma unite_ok fuel P a b B :
  grouped_inv N P B -> a ∈ N -> b ∈ N -> (B < fuel)%nat ->
  exists P', unite fuel P a b = Some P'
             /\ grouped_inv N P' (S B)
             /\ (forall x y, same_root P x y -> same_root P' x y)
             /\ same_root P' a b.
Proof.
  intros Hinv Ha Hb HB. unfold unite.
  destruct (Hinv a Ha) as (ra & ka & Hca & Hka).
  destruct (find_ok fuel P a ra ka Hca ltac:(lia)) as (P1 & -> & Hp1). simpl.
  destruct (Hinv b Hb) as (rb & kb & Hcb & Hkb).
  destruct (Hp1 _ _ _ Hcb) as (kb1 & Hcb1 & Hkb1).
  destruct (find_ok fuel P1 b rb kb1 Hcb1 ltac:(lia)) as (P2 & -> & Hp2). simpl.
  assert (Hp : forall y ry ky, chain P y ry ky ->
                 exists ky', chain P2 y ry ky' /\ (ky' <= ky)%nat).
  { intros y ry ky Hy. destruct (Hp1 _ _ _ Hy) as (k1 & Hy1 & ?).
    destruct (Hp2 _ _ _ Hy1) as (k2 & Hy2 & ?). exists k2. split; [done|lia]. }
  destruct (Hp _ _ _ Hca) as (ka2 & Hca2 & _).
  destruct (Hp _ _ _ Hcb) as (kb2 & Hcb2 & _).
  eexists. split; [done|].
  destruct (decide (ra = rb)) as [->|Hne].
  - split; [|split].
    + intros x Hx. destruct (Hinv x Hx) as (r & k & Hc & Hk).
      destruct (Hp _ _ _ Hc) as (k' & Hc' & Hk'). exists r, k'. split; [done|lia].
    + intros x y (r & k1 & k2 & H1 & H2).
      destruct (Hp _ _ _ H1) as (k1' & ? & _). destruct (Hp _ _ _ H2) as (k2' & ? & _).
      by exists r, k1', k2'.
    + by exists rb, ka2, kb2.
  - pose proof (link_chain P2 ra rb (chain_root_fixed _ _ _ _ Hca2)
                  (chain_root_fixed _ _ _ _ Hcb2) Hne) as Hlink.
    split; [|split].
    + intros x Hx. destruct (Hinv x Hx) as (r & k & Hc & Hk).
      destruct (Hp _ _ _ Hc) as (k' & Hc' & Hk'). apply Hlink in Hc'.
      eexists _, _. split; [exact Hc'|]. destruct (decide (r = ra)); lia.
    + intros x y (r & k1 & k2 & H1 & H2).
      destruct (Hp _ _ _ H1) as (k1' & H1' & _). destruct (Hp _ _ _ H2) as (k2' & H2' & _).
      apply Hlink in H1', H2'. by eexists _, _, _.
    + apply Hlink in Hca2, Hcb2.
      rewrite decide_True in Hca2 by done.
      rewrite decide_False in Hcb2 by done. by eexists _, _, _.
Qed.

Lemma grouped_inv_mono P B B' : (B <= B')%nat -> grouped_inv N P B -> grouped_inv N P B'.
Proof.
  intros HB Hinv x Hx. destruct (Hinv x Hx) as (r & k & Hc & Hk).
  exists r, k. split; [done|lia].
Qed.

Lemma joinWith_ok fuel ei : forall rest P B,
  grouped_inv N P B -> ei.1 ∈ N -> (forall e, e ∈ rest -> e.1 ∈ N) ->
  (B + length rest < fuel)%nat ->
  exists P', joinWith fuel P ei rest = Some P'
             /\ grouped_inv N P' (B + length rest)
             /\ (forall x y, same_root P x y -> same_root P' x y)
             /\ (forall ej, ej ∈ rest -> joinable ei ej = true -> same_root P' ei.1 ej.1).
Proof.
  induction rest as [|ej rest IH]; intros P B Hinv Hei Hrest Hfuel; simpl.
  - eexists. split; [done|]. rewrite Nat.add_0_r. split; [done|]. split; [done|].
    intros ej Hej. by apply elem_of_nil in Hej.
  - assert (Hstep : exists P1,
              (if joinable ei ej then unite fuel P ei.1 ej.1 else Some P) = Some P1
              /\ grouped_inv N P1 (S B)
              /\ (forall x y, same_root P x y -> same_root P1 x y)
              /\ (joinable ei ej = true -> same_root P1 ei.1 ej.1)).
    { destruct (joinable ei ej).
      - destruct (unite_ok fuel P ei.1 ej.1 B Hinv Hei (Hrest ej ltac:(by left)) ltac:(simpl in Hfuel; lia))
          as (P1 & ? & ? & ? & ?). by exists P1.
      - exists P. split; [done|]. split; [by eapply grouped_inv_mono; [|done]; lia|]. done. }
    destruct Hstep as (P1 & -> & Hinv1 & Hmono1 & Hj1). simpl.
    destruct (IH P1 (S B) Hinv1 Hei ltac:(intros e He; apply Hrest; by right)
                ltac:(simpl in Hfuel; lia)) as (P' & -> & Hinv' & Hmono' & Hj').
    eexists. split; [done|].
    split; [by replace (B + S (length rest))%nat with (S B + length rest)%nat by lia|].
    split; [by auto|].
    intros e [->|He]%elem_of_cons Hjoin; [by apply Hmono', Hj1|by apply Hj'].
Qed.

Lemma joinAll_ok fuel : forall l P B,
  grouped_inv N P B -> (forall e, e ∈ l -> e.1 ∈ N) ->
  (B + length l * length l < fuel)%nat ->
  exists P', joinAll fuel P l = Some P'
             /\ grouped_inv N P' (B + length l * length l)
             /\ (forall x y, same_root P x y -> same_root P' x y)
             /\ (forall i j ei ej, l !! i = Some ei -> l !! j = Some ej -> (i < j)%nat ->
                   joinable ei ej = true -> same_root P' ei.1 ej.1).
Proof.
  induction l as [|ei l IH]; intros P B Hinv Hl Hfuel; simpl.
  - eexists. split; [done|]. rewrite Nat.add_0_r. split; [done|]. split; [done|].
    intros i j ei ej Hi. by rewrite lookup_nil in Hi.
  - simpl in Hfuel.
    destruct (joinWith_ok fuel ei l P B Hinv ltac:(apply Hl; by left)
                ltac:(intros e He; apply Hl; by right) ltac:(lia))
      as (P1 & -> & Hinv1 & Hmono1 & Hj1). simpl.
    destruct (IH P1 (B + length l)%nat Hinv1 ltac:(intros e He; apply Hl; by right)
                ltac:(lia)) as (P' & -> & Hinv' & Hmono' & Hj').
    eexists. split; [done|].
    split; [eapply grouped_inv_mono; [|exact Hinv']; lia|].
    split; [by auto|].
    intros i j e1 e2 Hi Hj Hij Hjoin. destruct i as [|i]; simpl in Hi.
    + injection Hi as ->. destruct j as [|j]; [lia|]. simpl in Hj.
      apply Hmono', Hj1; [|done]. by eapply list_elem_of_lookup_2.
    + destruct j as [|j]; [lia|]. simpl in Hj. eapply (Hj' i j); eauto. lia.
Qed.

(** The buckets built from a prefix; every later step only appends. *)
Lemma bucketize_ok fuel : forall l P B buckets,
  grouped_inv N P B -> (B < fuel)%nat -> (forall e, e ∈ l -> e.1 ∈ N) ->
  exists bs, bucketize fuel P l buckets = Some bs
             /\ (forall e, e ∈ l ->
                   exists r k g, chain P e.1 r k /\ OMap.get bs r = Some g /\ e ∈ g)
             /\ (forall r g e, OMap.get buckets r = Some g -> e ∈ g ->
                   exists g', OMap.get bs r = Some g' /\ e ∈ g').
Proof.
  induction l as [|e l IH]; intros P B buckets Hinv HB Hl; simpl.
  - eexists. split; [done|]. split; [intros e He; by apply elem_of_nil in He|].
    intros r g e Hg He. by exists g.
  - destruct (Hinv e.1 ltac:(apply Hl; by left)) as (r & k & Hc & Hk).
    destruct (find_ok fuel P e.1 r k Hc ltac:(lia)) as (P1 & -> & Hp1). simpl.
    assert (Hinv1 : grouped_inv N P1 B).
    { intros x Hx. destruct (Hinv x Hx) as (rx & kx & Hcx & Hkx).
      destruct (Hp1 _ _ _ Hcx) as (kx' & ? & ?). exists rx, kx'. split; [done|lia]. }
    destruct (IH P1 B (OMap.set buckets r (default [] (OMap.get buckets r) ++ [e])%list)
                Hinv1 HB ltac:(intros e' He'; apply Hl; by right))
      as (bs & -> & Hin & Hkeep).
    eexists. split; [done|]. split.
    + intros e' [->|He']%elem_of_cons.
      * destruct (Hkeep r (default [] (OMap.get buckets r) ++ [e])%list e) as (g' & Hg' & Heg').
        -- rewrite omap_get_set. by rewrite decide_True.
        -- apply elem_of_app. right. by left.
        -- by exists r, k, g'.
      * destruct (Hin e' He') as (r' & k' & g' & Hc' & Hg' & Heg').
        destruct (Hinv e'.1 ltac:(apply Hl; by right)) as (r0 & k0 & Hc0 & _).
        destruct (Hp1 _ _ _ Hc0) as (k1 & Hc1 & _).
        destruct (chain_det _ _ _ _ _ _ Hc1 Hc') as [-> _].
        by exists r', k0, g'.
    + intros r' g e' Hg He'.
      apply (Hkeep r' (if decide (r = r') then (default [] (OMap.get buckets r) ++ [e])%list else g)).
      * rewrite omap_get_set. by destruct (decide (r = r')).
      * destruct (decide (r = r')) as [->|]; [|done].
        rewrite Hg. simpl. apply elem_of_app. by left.
Qed.

End Nodes.

Lemma parent0_lookup (objs : list Obj) (x : nat) :
  x ∈ objs.*1 ->
  (list_to_map (map (fun o : nat * Episode => (o.1, o.1)) objs) : gmap nat nat) !! x = Some x.
Proof.
  induction objs as [|o objs IH]; simpl; intros Hx; [by apply elem_of_nil in Hx|].
  destruct (decide (o.1 = x)) as [->|Hne]; [by rewrite lookup_insert_eq|].
  rewrite lookup_insert_ne by done. apply IH.
  by apply elem_of_cons in Hx as [->|Hx].
Qed.

Lemma omap_get_Some_elem {K V} `{EqDecision K} (m : list (K * V)) k v :
  OMap.get m k = Some v -> v ∈ OMap.values m.
Proof.
  induction m as [|[k0 v0] m IH]; simpl; [done|].
  destruct (decide (k0 = k)); [intros [= ->]; by left|].
  intros H. right. by apply IH.
Qed.

(** The grouping always returns, and two episodes found joinable by the
    pairwise loop end in the same group. *)
Lemma groupObjs_joins (objs : list Obj) :
  exists groups, groupObjs objs = Some groups
    /\ forall i j ei ej, objs !! i = Some ei -> objs !! j = Some ej -> (i < j)%nat ->
          joinable ei ej = true ->
          exists g, g ∈ groups /\ ei ∈ g /\ ej ∈ g.
Proof.
  unfold groupObjs. cbv zeta.
  set (N := list_to_set objs.*1 : gset nat).
  set (n := length objs).
  assert (HN : forall e, e ∈ objs -> e.1 ∈ N).
  { intros e He. apply elem_of_list_to_set, list_elem_of_fmap. by exists e. }
  assert (Hinv0 : grouped_inv N (list_to_map (map (fun o : nat * Episode => (o.1, o.1)) objs)) 0).
  { intros x Hx. exists x, 0%nat. split; [|done]. constructor.
    apply parent0_lookup. by apply elem_of_list_to_set in Hx. }
  destruct (joinAll_ok N (S (n * n)) objs _ 0%nat Hinv0 HN ltac:(simpl; lia))
    as (P & -> & Hinv & _ & Hjoin). simpl in Hinv. cbn [mbind option_bind].
  destruct (bucketize_ok N (S (n * n)) objs P (n * n)%nat [] Hinv ltac:(lia) HN)
    as (bs & -> & Hin & _). cbn [mbind option_bind].
  eexists. split; [done|].
  intros i j ei ej Hi Hj Hij Hjoinable.
  destruct (Hjoin i j ei ej Hi Hj Hij Hjoinable) as (r & k1 & k2 & Hc1 & Hc2).
  destruct (Hin ei ltac:(by eapply list_elem_of_lookup_2)) as (r1 & k1' & g1 & Hc1' & Hg1 & He1).
  destruct (Hin ej ltac:(by eapply list_elem_of_lookup_2)) as (r2 & k2' & g2 & Hc2' & Hg2 & He2).
  destruct (chain_det _ _ _ _ _ _ Hc1 Hc1') as [<- _].
  destruct (chain_det _ _ _ _ _ _ Hc2 Hc2') as [<- _].
  assert (g2 = g1) as -> by congruence.
  exists g1. split; [|done].
  apply list_elem_of_In, filter_In. split.
  - apply list_elem_of_In. by eapply omap_get_Some_elem.
  - destruct g1; [by apply elem_of_nil in He1|done].
Qed.

End GroupFacts.

(** * The score worker: situation building *)

Module JoinFacts.
Import Score Samples.

Lemma gt_03_spec (x : Q) : gt_03 x = true <-> (3 # 10 < x)%Q.
Proof.
  unfold gt_03. rewrite negb_true_iff, <- not_true_iff_false, Qle_bool_iff.
  split; [apply Qnot_le_lt|apply Qlt_not_le].
Qed.

Lemma jaccard_sym (a b : gset string) : jaccard a b = jaccard b a.
Proof.
  unfold jaccard.
  assert (Hi : (filter (fun x => x ∈ b) a : gset string) = filter (fun x => x ∈ a) b).
  { apply set_eq. intros x. rewrite !elem_of_filter. tauto. }
  rewrite Hi. repeat case_decide; try tauto; try reflexivity.
  by rewrite (Z.add_comm (Z.of_nat (size a))).
Qed.

Lemma joinable_sym (o1 o2 : Obj) : joinable o1 o2 = joinable o2 o1.
Proof.
  unfold joinable. rewrite (jaccard_sym (list_to_set (vendorMix o1.2))).
  rewrite (orb_comm (end_ o1.2 <? start o2.2)).
  repeat case_decide; try congruence;
    repeat case_bool_decide; try congruence; reflexivity.
Qed.

(** For overlapping episodes that differ in entity and fingerprint the
    predicate is the source-mix test alone. *)
Lemma joinable_by_mix (o1 o2 : Obj) :
  o1.1 <> o2.1 ->
  ~ (end_ o1.2 < start o2.2 \/ end_ o2.2 < start o1.2) ->
  ep_entity_key o1.2 <> ep_entity_key o2.2 ->
  ep_fingerprint o1.2 <> ep_fingerprint o2.2 ->
  joinable o1 o2
  = gt_03 (jaccard (list_to_set (vendorMix o1.2)) (list_to_set (vendorMix o2.2))).
Proof.
  intros Hid Hov Hent Hfp. unfold joinable.
  rewrite decide_False by done.
  destruct (Z.ltb_spec (end_ o1.2) (start o2.2)); [tauto|].
  destruct (Z.ltb_spec (end_ o2.2) (start o1.2)); [tauto|].
  simpl. by rewrite !bool_decide_eq_false_2.
Qed.

Lemma sorted_pair (e1 e2 : Episode) :
  sortedObjs [e1; e2]
  = if start e1 <=? start e2 then [(0%nat, e1); (1%nat, e2)]
    else [(1%nat, e2); (0%nat, e1)].
Proof. reflexivity. Qed.

(** [buildSituations] on exactly two episodes. *)
Lemma build_pair (e1 e2 : Episode) al :
  buildSituations [e1; e2] al
  = let objs := if start e1 <=? start e2 then [(0%nat, e1); (1%nat, e2)]
                else [(1%nat, e2); (0%nat, e1)] in
    if joinable (0%nat, e1) (1%nat, e2) then Some [mkSituationOf al objs]
    else Some (map (fun o => mkSituationOf al [o]) objs).
Proof.
  unfold buildSituations, groupObjs. rewrite sorted_pair. cbv zeta.
  destruct (start e1 <=? start e2); cbn [joinAll joinWith length].
  - destruct (joinable (0%nat, e1) (1%nat, e2)); vm_compute; reflexivity.
  - rewrite (joinable_sym (1%nat, e2)).
    destruct (joinable (0%nat, e1) (1%nat, e2)); vm_compute; reflexivity.
Qed.

(** Two episodes that the pairwise test joins share a situation, whatever
    other episodes the tick holds; [buildSituations] always returns. *)
Lemma build_joins (eps : list Episode) (al : list Alert) (i j : nat) (e1 e2 : Episode) :
  eps !! i = Some e1 -> eps !! j = Some e2 -> i <> j ->
  joinable (i, e1) (j, e2) = true ->
  exists sits sit, buildSituations eps al = Some sits /\ sit ∈ sits
                   /\ e1 ∈ sit_episodes sit /\ e2 ∈ sit_episodes sit.
Proof.
  intros Hi Hj Hij Hjoin.
  assert (Hin : forall k e, eps !! k = Some e -> (k, e) ∈ sortedObjs eps).
  { intros k e Hk. unfold sortedObjs. rewrite sort_by_perm.
    apply elem_of_lookup_imap. by exists k, e. }
  destruct (GroupFacts.groupObjs_joins (sortedObjs eps)) as (groups & Hg & Hjoins).
  pose proof Hi as Hne.
  apply Hin, list_elem_of_lookup_1 in Hi as [a Ha].
  apply Hin, list_elem_of_lookup_1 in Hj as [b Hb].
  assert (Hab : a <> b) by (intros ->; congruence).
  assert (Hgrp : exists g, g ∈ groups /\ (i, e1) ∈ g /\ (j, e2) ∈ g).
  { destruct (decide (a < b)%nat).
    - by apply (Hjoins a b).
    - destruct (Hjoins b a (j, e2) (i, e1)) as (g & ? & ? & ?); try done; [lia| |by exists g].
      by rewrite joinable_sym. }
  destruct Hgrp as (g & Hgin & H1 & H2).
  exists (map (mkSituationOf al) groups), (mkSituationOf al g).
  split; [|split; [|split]].
  - unfold buildSituations. destruct eps; [by rewrite lookup_nil in Hne|].
    by rewrite Hg.
  - apply list_elem_of_fmap. by exists g.
  - cbn [mkSituationOf sit_episodes]. apply list_elem_of_fmap. by exists (i, e1).
  - cbn [mkSituationOf sit_episodes]. apply list_elem_of_fmap. by exists (j, e2).
Qed.

(** The bound on the recursion of [find] is never hit. *)
Lemma buildSituations_returns (eps : list Episode) (al : list Alert) :
  exists sits, buildSituations eps al = Some sits.
Proof.
  unfold buildSituations. destruct eps as [|e eps]; [by eexists|].
  destruct (GroupFacts.groupObjs_joins (sortedObjs (e :: eps))) as (groups & -> & _).
  by eexists.
Qed.

Lemma two_entities (k1 k2 : string) :
  k1 <> k2 ->
  Z.of_nat (size (list_to_set [k1; k2] : gset string)) = 2.
Proof.
  intros Hne.
  rewrite !list_to_set_cons, list_to_set_nil, union_empty_r_L, size_union by set_solver.
  by rewrite !size_singleton.
Qed.

Lemma scenario_pair :
  (jaccard (list_to_set (vendorMix joinA)) (list_to_set (vendorMix joinB)) == 1 # 3)%Q
  /\ (exists sit, buildSituations [joinA; joinB] [] = Some [sit]
                  /\ sit_episodes sit = [joinA; joinB] /\ blast_entities sit = 2).
Proof.
  split; [vm_compute; reflexivity|].
  exists (mkSituationOf [] [(0%nat, joinA); (1%nat, joinB)]).
  repeat split; vm_compute; reflexivity.
Qed.

(** C8, amended: for two overlapping episodes that differ in entity and in
    fingerprint, the pairwise test [joinable] holds exactly when the Jaccard
    index of their source mixes exceeds 0.3; when it exceeds 0.3 they share
    a situation in every tick that holds both; when they are the only
    episodes of the tick the builder puts them in one situation (with two
    entities) exactly in that case, and in two situations otherwise; the
    scenario episodes (Jaccard 1/3) form one situation with two entities. *)
Theorem join_by_source_mix (e1 e2 : Episode) (al : list Alert) :
  ~ (end_ e1 < start e2 \/ end_ e2 < start e1) ->
  ep_entity_key e1 <> ep_entity_key e2 ->
  ep_fingerprint e1 <> ep_fingerprint e2 ->
  let J := jaccard (list_to_set (vendorMix e1)) (list_to_set (vendorMix e2)) in
  (forall i j : nat, i <> j -> joinable (i, e1) (j, e2) = true <-> (3 # 10 < J)%Q)
  /\ (forall (eps : list Episode) (i j : nat),
        eps !! i = Some e1 -> eps !! j = Some e2 -> i <> j -> (3 # 10 < J)%Q ->
        exists sits sit, buildSituations eps al = Some sits /\ sit ∈ sits
                         /\ e1 ∈ sit_episodes sit /\ e2 ∈ sit_episodes sit)
  /\ ((exists sit, buildSituations [e1; e2] al = Some [sit]
                   /\ sit_episodes sit ≡ₚ [e1; e2] /\ blast_entities sit = 2)
      <-> (3 # 10 < J)%Q)
  /\ ((exists s1 s2, buildSituations [e1; e2] al = Some [s1; s2]
                     /\ sit_episodes s1 ++ sit_episodes s2 ≡ₚ [e1; e2])
      <-> ~ (3 # 10 < J)%Q)
  /\ (jaccard (list_to_set (vendorMix joinA)) (list_to_set (vendorMix joinB)) == 1 # 3)%Q
  /\ (exists sit, buildSituations [joinA; joinB] [] = Some [sit]
                  /\ sit_episodes sit = [joinA; joinB] /\ blast_entities sit = 2).
Proof.
  intros Hov Hent Hfp J.
  assert (Hj : forall i j : nat, i <> j ->
             joinable (i, e1) (j, e2) = true <-> (3 # 10 < J)%Q).
  { intros i j Hij. rewrite joinable_by_mix by done. apply gt_03_spec. }
  split; [exact Hj|].
  split.
  { intros eps i j Hi Hjj Hij HJ. apply (build_joins eps al i j); try done.
    by apply Hj. }
  pose proof (build_pair e1 e2 al) as Hb. cbv zeta in Hb.
  specialize (Hj 0%nat 1%nat ltac:(done)).
  destruct (joinable (0%nat, e1) (1%nat, e2)) eqn:Hjoin.
  - assert (HJ : (3 # 10 < J)%Q) by (by apply Hj).
    split; [|split].
    + split; [done|]. intros _. eexists. split; [exact Hb|].
      unfold mkSituationOf. cbn [sit_episodes blast_entities].
      destruct (start e1 <=? start e2); cbn [map snd].
      * split; [done|]. by apply two_entities.
      * split; [apply Permutation_swap|]. apply two_entities; congruence.
    + split; [|done]. intros (s1 & s2 & Hs & _). rewrite Hb in Hs. discriminate.
    + apply scenario_pair.
  - assert (HJ : ~ (3 # 10 < J)%Q) by (intros HJ; apply Hj in HJ; discriminate).
    split; [|split].
    + split; [|done]. intros (sit & Hs & _). rewrite Hb in Hs.
      destruct (start e1 <=? start e2); discriminate.
    + split; [done|]. intros _.
      destruct (start e1 <=? start e2); do 2 eexists; (split; [exact Hb|]);
        cbn [mkSituationOf sit_episodes map snd app]; [done|apply Permutation_swap].
    + apply scenario_pair.
Qed.

Lemma join_by_source_mix_witness :
  (3 # 10 < jaccard (list_to_set (vendorMix joinA)) (list_to_set (vendorMix joinB)))%Q
  <-> joinable (0%nat, joinA) (1%nat, joinB) = true.
Proof.
  assert (H1 : ~ (end_ joinA < start joinB \/ end_ joinB < start joinA))
    by (vm_compute; intros [H|H]; discriminate).
  assert (H2 : ep_entity_key joinA <> ep_entity_key joinB) by (vm_compute; discriminate).
  assert (H3 : ep_fingerprint joinA <> ep_fingerprint joinB) by (vm_compute; discriminate).
  symmetry.
  exact (proj1 (join_by_source_mix joinA joinB [] H1 H2 H3) 0%nat 1%nat ltac:(done)).
Defined.

(** C8 as stated fails once a third episode is present: [chain1] and
    [chain2] overlap, differ in entity and fingerprint and have disjoint
    source mixes (Jaccard 0), yet they end in one situation, both being
    joinable with [chain3]. *)
Lemma joined_through_third_episode :
  ~ (end_ chain1 < start chain2 \/ end_ chain2 < start chain1)
  /\ ep_entity_key chain1 <> ep_entity_key chain2
  /\ ep_fingerprint chain1 <> ep_fingerprint chain2
  /\ ~ (3 # 10 < jaccard (list_to_set (vendorMix chain1)) (list_to_set (vendorMix chain2)))%Q
  /\ exists sit, buildSituations [chain1; chain2; chain3] [] = Some [sit]
                 /\ sit_episodes sit = [chain1; chain2; chain3].
Proof.
  split; [vm_compute; intros [H|H]; discriminate|].
  split; [vm_compute; discriminate|].
  split; [vm_compute; discriminate|].
  split; [vm_compute; discriminate|].
  exists (mkSituationOf [] [(0%nat, chain1); (1%nat, chain2); (2%nat, chain3)]).
  split; vm_compute; reflexivity.
Qed.

End JoinFacts.

(** * The score worker: lead-lag correlation and composite score *)

Module LagFacts.
Import Score Samples Specs.

(** The integer comparison of [score_gtb] is the comparison of the real
    scores. *)
Lemma score_gtb_spec (a b : LagResult) :
  0 <= lag_num a -> 0 <= lag_num b -> 0 < lag_den2 a -> 0 < lag_den2 b ->
  score_gtb a b = true <-> (lagScore b < lagScore a)%R.
Proof.
  intros Hna Hnb Hda Hdb. unfold score_gtb, lagScore.
  rewrite Z.ltb_lt.
  apply IZR_le in Hna, Hnb. apply IZR_lt in Hda, Hdb.
  set (na := IZR (lag_num a)) in *. set (nb := IZR (lag_num b)) in *.
  set (da := IZR (lag_den2 a)) in *. set (db := IZR (lag_den2 b)) in *.
  assert (Hz : lag_num b * lag_num b * lag_den2 a < lag_num a * lag_num a * lag_den2 b
               <-> (nb * nb * da < na * na * db)%R).
  { unfold na, nb, da, db. rewrite <- !mult_IZR. split; [apply IZR_lt|apply lt_IZR]. }
  rewrite Hz. clear Hz.
  pose proof (sqrt_lt_R0 da Hda) as Hsa. pose proof (sqrt_lt_R0 db Hdb) as Hsb.
  pose proof (sqrt_sqrt da ltac:(lra)) as Hsa2.
  pose proof (sqrt_sqrt db ltac:(lra)) as Hsb2.
  set (sa := sqrt da) in *. set (sb := sqrt db) in *.
  assert (Hdiv : (nb / sb < na / sa <-> nb * sa < na * sb)%R).
  { split; intros H.
    - apply (Rmult_lt_compat_r (sa * sb)) in H; [|nra].
      replace (nb / sb * (sa * sb))%R with (nb * sa)%R in H by (field; lra).
      replace (na / sa * (sa * sb))%R with (na * sb)%R in H by (field; lra).
      exact H.
    - apply (Rmult_lt_reg_r (sa * sb)); [nra|].
      replace (nb / sb * (sa * sb))%R with (nb * sa)%R by (field; lra).
      replace (na / sa * (sa * sb))%R with (na * sb)%R by (field; lra).
      exact H. }
  rewrite Hdiv. rewrite <- Hsa2, <- Hsb2.
  assert (Hx : (0 <= nb * sa)%R) by nra. assert (Hy : (0 <= na * sb)%R) by nra.
  split; intros H; nra.
Qed.

(** The numerator and [denomA] of the code are the two sums of the
    specification; [denomB] is not [norm2 B]. *)
Lemma lagSums_spec (A B : list (Z * Z)) (lag : Z) :
  (lagSums A B lag).1.1 = dot_shifted A B lag /\ (lagSums A B lag).1.2 = norm2 A.
Proof.
  unfold lagSums, dot_shifted, norm2.
  assert (H : forall nu da db,
    (fold_left
       (fun '(numerator, denomA, denomB) '(bin, aCount) =>
          let bCount := default 0 (OMap.get B (bin + lag)) in
          (numerator + aCount * bCount, denomA + aCount * aCount,
           denomB + bCount * bCount)) A (nu, da, db)).1.1
    = fold_left (fun acc '(bin, a) => acc + a * default 0 (OMap.get B (bin + lag))) A nu
    /\ (fold_left
          (fun '(numerator, denomA, denomB) '(bin, aCount) =>
             let bCount := default 0 (OMap.get B (bin + lag)) in
             (numerator + aCount * bCount, denomA + aCount * aCount,
              denomB + bCount * bCount)) A (nu, da, db)).1.2
       = fold_left (fun acc '(_, a) => acc + a * a) A da).
  { induction A as [|[bin a] A IH]; intros nu da db; simpl; [done|]. apply IH. }
  apply H.
Qed.

Lemma corrLeadLag_empty (aTs bTs : list Z) (maxLeadMs : Z) :
  aTs = [] \/ bTs = [] ->
  lagMs (corrLeadLag aTs bTs maxLeadMs) = 0 /\ lagScore (corrLeadLag aTs bTs maxLeadMs) = 0%R.
Proof.
  intros [-> | ->]; [|destruct aTs]; simpl; unfold lagScore; simpl;
    (split; [reflexivity|]); rewrite sqrt_1; lra.
Qed.

(** C6: the score recorded for [lagCause]/[lagEffect] is 1, at lag 0; the
    cosine similarity of the two histograms is [1 / sqrt 2] at that lag and
    at most that at every lag.  [denomB] only sums the squares of the
    effect bins that meet a cause bin, not [<B, B>]. *)
Theorem lead_lag_score_is_not_cosine :
  let A := toBins lagCause in
  let B := toBins lagEffect in
  let best := corrLeadLag lagCause lagEffect 90000 in
  best = {| lagMs := 0; lag_num := 1; lag_den2 := 1 |}
  /\ lagSums A B 0 = (1, 1, 1)
  /\ (norm2 A, norm2 B) = (1, 2)
  /\ lagScore best = 1%R
  /\ cosine A B 0 = (1 / sqrt 2)%R
  /\ (forall lag, cosine A B lag <= 1 / sqrt 2)%R
  /\ (cosine A B 0 < lagScore best)%R.
Proof.
  cbv zeta.
  assert (Hbest : corrLeadLag lagCause lagEffect 90000
                  = {| lagMs := 0; lag_num := 1; lag_den2 := 1 |})
    by (vm_compute; reflexivity).
  assert (Hn : norm2 (toBins lagCause) * norm2 (toBins lagEffect) = 2)
    by (vm_compute; reflexivity).
  assert (Hs2 : (1 < sqrt 2)%R).
  { rewrite <- sqrt_1 at 1. apply sqrt_lt_1; lra. }
  assert (Hscore : lagScore (corrLeadLag lagCause lagEffect 90000) = 1%R).
  { rewrite Hbest. unfold lagScore. simpl. rewrite sqrt_1. lra. }
  assert (Hcos : forall lag, (cosine (toBins lagCause) (toBins lagEffect) lag <= 1 / sqrt 2)%R
                 /\ (lag = 0 -> (cosine (toBins lagCause) (toBins lagEffect) lag = 1 / sqrt 2)%R)).
  { intros lag. unfold cosine. rewrite Hn.
    assert (Hd : dot_shifted (toBins lagCause) (toBins lagEffect) lag = 0
                 \/ dot_shifted (toBins lagCause) (toBins lagEffect) lag = 1).
    { change (toBins lagCause) with [(1700000000, 1)].
      change (toBins lagEffect) with [(1700000000, 1); (1700000001, 1)].
      unfold dot_shifted. simpl.
      repeat case_decide; simpl; auto. }
    split.
    - destruct Hd as [-> | ->].
      + unfold Rdiv. rewrite Rmult_0_l. apply Rlt_le, Rdiv_lt_0_compat; lra.
      + lra.
    - intros ->. vm_compute dot_shifted. reflexivity. }
  split; [exact Hbest|]. split; [vm_compute; reflexivity|].
  split; [vm_compute; reflexivity|]. split; [exact Hscore|].
  split; [by apply Hcos|]. split; [apply Hcos|].
  rewrite Hscore, (proj2 (Hcos 0) eq_refl).
  apply (Rmult_lt_reg_r (sqrt 2)); [lra|].
  unfold Rdiv. rewrite Rmult_assoc, Rinv_l by lra. lra.
Qed.

End LagFacts.

Module ScoreFacts.
Import Score Samples Specs.

Lemma ln_2_lt_1 : (ln 2 < 1)%R.
Proof.
  rewrite <- (ln_exp 1). apply ln_increasing; [lra|].
  pose proof (exp_ineq1 1 ltac:(lra)). lra.
Qed.

Lemma sqrt_4 : sqrt 4 = 2%R.
Proof. replace 4%R with (2 * 2)%R by lra. apply sqrt_square. lra. Qed.

(** The confidence never exceeds 1: [Math.min(1, composite)]. *)
Lemma confidence_le_1 (p : Parts) : (confidence p <= 1)%R.
Proof. apply Rmin_l. Qed.

(** C5: the scenario "echo storm" on the worker.  The hundred episodes form
    one situation whose echo penalty (0.05 for each of the 300 extra source
    entries, weighted 0.05) outweighs the other terms: the composite score
    and the confidence are negative. *)
Theorem echo_storm_scores_negative :
  (sits ← buildSituations echoEpisodes []; sit ← head sits;
   Some (scoreParts sit ∅ 90000))
  = Some (Returns (Some echoParts))
  /\ (composite echoParts < 0)%R
  /\ (confidence echoParts < 0)%R.
Proof.
  assert (Hc : (composite echoParts < 0)%R).
  { unfold composite, echoParts; cbn [changeNear bestLag bestPath entities sevMax echoCount].
    replace (pathScore (Some 0%nat)) with (1 # 1)%Q by (vm_compute; reflexivity).
    replace (echoPenalty 300) with (1500 # 100)%Q by (vm_compute; reflexivity).
    unfold changeProx, flapPenalty, lagScore; cbn [lag_num lag_den2].
    unfold Q2R; cbn [Qnum Qden].
    rewrite sqrt_4. replace (1 + 1)%R with 2%R by lra.
    pose proof ln_2_lt_1. lra. }
  split; [vm_compute; reflexivity|]. split; [exact Hc|].
  unfold confidence. eapply Rle_lt_trans; [apply Rmin_r|exact Hc].
Qed.

End ScoreFacts.

(** * The score worker: graph proximity *)

Module GraphFacts.
Import Score Samples Specs.

Section Bfs.
Variable adj : gmap string (list string).
Variables src dst : string.
Variable limit : nat.

Local Abbreviation U := (vertices adj src).
Local Abbreviation le_label := (fun x y : string * nat => (x.2 <= y.2)%nat).

Lemma edge_vertex v w : edge adj v w -> w ∈ U.
Proof.
  unfold edge, vertices. intros Hw.
  destruct (adj !! v) as [ns|] eqn:Hv; simpl in Hw; [|by apply elem_of_nil in Hw].
  apply elem_of_union_r, elem_of_list_to_set, list_elem_of_In, in_concat.
  exists ns. split; [|by apply list_elem_of_In].
  apply in_map_iff. exists (v, ns). split; [done|].
  apply list_elem_of_In, elem_of_map_to_list. done.
Qed.

(** Every string within reach of fewer edges than the smallest label still
    queued has been seen. *)
Lemma reach_seen (queue : list (string * nat)) (seen : gset string) (B : nat) :
  src ∈ seen ->
  (forall v l, (v, l) ∈ queue -> (B <= l)%nat /\ forall n, walk adj src n v -> (l <= n)%nat) ->
  (B <= limit)%nat ->
  (forall u, u ∈ seen ->
     u ∈ queue.*1 \/ (forall w, edge adj u w -> w ∈ seen)
     \/ (forall k, walk adj src k u -> (limit <= k)%nat)) ->
  forall k u, walk adj src k u -> (k <= B)%nat -> u ∈ seen.
Proof.
  intros Hsrc Hlab HB Hdone k u Hw. induction Hw as [|n v w Hw IH He]; intros Hk; [done|].
  specialize (IH ltac:(lia)).
  destruct (Hdone v IH) as [Hq|[Hexp|Hfar]].
  - apply list_elem_of_fmap in Hq as [[v' l] [-> Hin]]. simpl in *.
    destruct (Hlab _ _ Hin) as [HBl Hmin]. specialize (Hmin _ Hw). lia.
  - by apply Hexp.
  - specialize (Hfar _ Hw). lia.
Qed.

Lemma size_seen_add (seen : gset string) (n : string) :
  n ∈ U -> n ∉ seen ->
  S (size (U ∖ ({[n]} ∪ seen))) = size (U ∖ seen).
Proof.
  intros HU Hn.
  assert (Heq : U ∖ seen = {[n]} ∪ U ∖ ({[n]} ∪ seen)).
  { apply set_eq. intros x. rewrite elem_of_union, !elem_of_difference,
      elem_of_union, elem_of_singleton.
    destruct (decide (x = n)) as [->|]; naive_solver. }
  rewrite Heq.
  rewrite (size_union ({[n]} : gset string) (U ∖ ({[n]} ∪ seen))) by set_solver.
  by rewrite size_singleton.
Qed.

Lemma sorted_snoc (queue : list (string * nat)) (x : string * nat) :
  StronglySorted le_label queue ->
  (forall y, y ∈ queue -> (y.2 <= x.2)%nat) ->
  StronglySorted le_label (queue ++ [x]).
Proof.
  intros Hs Hle. apply StronglySorted_app. split; [|split; [done|repeat constructor]].
  intros y z Hy Hz. apply list_elem_of_singleton in Hz as ->. by apply Hle.
Qed.

(** The scan of the neighbours of [current]: either [dst] is met, one edge
    after [current], or the scan invariant holds at the end and the
    potential of the loop is unchanged. *)
Lemma scan_correct (current : string) (d : nat) :
  walk adj src d current -> (d < limit)%nat ->
  forall ns done queue seen,
    (forall w, w ∈ ns -> edge adj current w) ->
    scan_inv adj src dst limit current d done queue seen ->
    match scanNeighbors dst d ns queue seen with
    | inl r => r = S d /\ edge adj current dst
    | inr (queue', seen') =>
        scan_inv adj src dst limit current d (done ++ ns) queue' seen'
        /\ (length queue' + size (U ∖ seen') = length queue + size (U ∖ seen))%nat
    end.
Proof.
  intros Hcur Hd. induction ns as [|n ns IH]; intros done queue seen Hns Hinv; simpl.
  - by rewrite app_nil_r.
  - assert (Hedge : edge adj current n) by (apply Hns; by left).
    assert (Hns' : forall w, w ∈ ns -> edge adj current w) by (intros w Hw; apply Hns; by right).
    replace (done ++ n :: ns)%list with ((done ++ [n]) ++ ns)%list by (by rewrite <- app_assoc).
    destruct Hinv as [Hsrc Hdst Huniv Hlab Hsorted Hdone Hnear].
    destruct (decide (n ∈ seen)) as [Hseen|Hnew].
    + apply IH; [done|]. split; try done.
      intros u Hu. destruct (Hdone u Hu) as [?|[?|[?|[-> Hpre]]]]; eauto.
      do 3 right. split; [done|]. intros w [Hw|Hw]%elem_of_app; [by apply Hpre|].
      by apply list_elem_of_singleton in Hw as ->.
    + destruct (decide (n = dst)) as [->|Hne]; [done|].
      specialize (IH (done ++ [n])%list (queue ++ [(n, S d)])%list ({[n]} ∪ seen) Hns').
      assert (HnU : n ∈ U) by (by eapply edge_vertex).
      lapply IH.
      * destruct (scanNeighbors dst d ns _ _) as [r|[queue' seen']]; [done|].
        intros [Hinv' Hpot]. split; [done|]. rewrite Hpot, length_app. simpl.
        pose proof (size_seen_add seen n HnU Hnew). lia.
      * split.
        -- set_solver.
        -- set_solver.
        -- set_solver.
        -- intros v l [Hin|Hin]%elem_of_app.
           ++ destruct (Hlab v l Hin) as (?&?&?&?&?). repeat split; try done; try lia.
              set_solver.
           ++ apply list_elem_of_singleton in Hin. injection Hin as -> ->.
              repeat split; try lia.
              ** set_solver.
              ** by econstructor.
              ** intros k Hk. destruct (decide (k <= d)%nat) as [Hle|]; [|lia].
                 exfalso. apply Hnew. by eapply Hnear.
        -- apply sorted_snoc; [done|]. intros [v l] Hin. simpl.
           destruct (Hlab v l Hin) as (?&?&?&?&?). lia.
        -- intros u [Hu|Hu]%elem_of_union.
           ++ apply elem_of_singleton in Hu as ->. left.
              rewrite fmap_app. apply elem_of_app. right. simpl. by left.
           ++ destruct (Hdone u Hu) as [Hq|[Hexp|[Hfar|[-> Hpre]]]].
              ** left. rewrite fmap_app. apply elem_of_app. by left.
              ** right; left. intros w Hw. apply elem_of_union_r. by apply Hexp.
              ** right; right; by left.
              ** do 3 right. split; [done|]. intros w [Hw|Hw]%elem_of_app.
                 --- apply elem_of_union_r. by apply Hpre.
                 --- apply list_elem_of_singleton in Hw as ->. set_solver.
        -- intros k u Hw Hk. apply elem_of_union_r. by eapply Hnear.
Qed.

(** The loop is correct from any state that satisfies the invariant, provided
    the fuel covers the queue and the strings not seen yet. *)
Lemma bfs_correct (fuel : nat) :
  forall queue seen,
    bfs_inv adj src dst limit queue seen ->
    (length queue + size (U ∖ seen) <= fuel)%nat ->
    match bfs fuel adj dst limit queue seen with
    | Returns (Some r) => walk adj src r dst /\ (r <= limit)%nat
                /\ forall n, walk adj src n dst -> (r <= n)%nat
    | Returns None => forall n, walk adj src n dst -> (limit < n)%nat
    | Throws => exists u k, walk adj src k u /\ (k < limit)%nat
                /\ adj !! u = None /\ u ∈ inheritedNames
    end.
Proof.
  induction fuel as [|fuel IH]; intros queue seen Hinv Hpot.
  - destruct queue as [|x queue]; [|simpl in Hpot; lia]. simpl.
    destruct Hinv as [Hsrc Hdst Huniv Hlab Hsorted Hspan Hdone].
    intros n Hw. destruct (decide (n <= limit)%nat) as [Hle|]; [|lia].
    exfalso. apply Hdst.
    apply (reach_seen [] seen limit Hsrc) with (k := n); try done.
    intros v l Hin. by apply elem_of_nil in Hin.
  - destruct queue as [|[current d] queue]; cbn [bfs].
    + destruct Hinv as [Hsrc Hdst Huniv Hlab Hsorted Hspan Hdone].
      intros n Hw. destruct (decide (n <= limit)%nat) as [Hle|]; [|lia].
      exfalso. apply Hdst.
      apply (reach_seen [] seen limit Hsrc) with (k := n); try done.
      intros v l Hin. by apply elem_of_nil in Hin.
    + destruct Hinv as [Hsrc Hdst Huniv Hlab Hsorted Hspan Hdone].
      destruct (Hlab current d ltac:(by left)) as (Hcs & Hcw & Hcmin & Hclim).
      apply StronglySorted_inv in Hsorted as [Hsorted Hhead].
      assert (Hge : forall v l, (v, l) ∈ queue -> (d <= l)%nat).
      { intros v l Hin. eapply Forall_forall in Hhead; [|exact Hin]. done. }
      destruct (Nat.leb_spec limit d) as [Hskip|Hexp].
      * apply IH; [|simpl in Hpot; lia]. split; try done.
        -- intros v l Hin. apply Hlab. by right.
        -- intros v l v' l' Hh Hin.
           assert (d <= l)%nat by (apply (Hge v); destruct queue; [done|]; injection Hh as ->; by left).
           specialize (Hspan current d v' l' eq_refl ltac:(by right)). lia.
        -- intros u Hu. destruct (Hdone u Hu) as [Hq|[?|?]]; eauto.
           simpl in Hq. apply elem_of_cons in Hq as [->|Hq]; [|by left].
           right; right. intros k Hk. specialize (Hcmin _ Hk). lia.
      * destruct (neighboursOf adj current) as [ns|] eqn:Hns; cycle 1.
        { exists current, d. unfold neighboursOf in Hns.
          destruct (adj !! current) eqn:Hc; [done|]. by case_decide. }
        assert (ns = default [] (adj !! current)) as ->.
        { unfold neighboursOf in Hns.
          destruct (adj !! current); [by injection Hns|]. case_decide; [done|by injection Hns]. }
        assert (Hnear : forall k u, walk adj src k u -> (k <= d)%nat -> u ∈ seen).
        { apply (reach_seen ((current, d) :: queue) seen d Hsrc).
          - intros v l [Heq|Hin]%elem_of_cons.
            + injection Heq as -> ->. split; [lia|done].
            + split; [by eapply Hge|]. apply (Hlab v l). by right.
          - lia.
          - exact Hdone. }
        pose proof (scan_correct current d Hcw Hexp
                      (default [] (adj !! current)) [] queue seen
                      ltac:(intros w Hw; exact Hw)) as Hscan.
        lapply Hscan.
        -- clear Hscan. simpl.
           destruct (scanNeighbors dst d _ queue seen) as [r|[queue' seen']].
           ++ intros [-> Hedge]. split; [by econstructor|]. split; [lia|].
              intros n Hw. destruct (decide (n <= d)%nat) as [Hle|]; [|lia].
              exfalso. apply Hdst. by eapply Hnear.
           ++ intros [[Hs1 Hs2 Hs3 Hs4 Hs5 Hs6 Hs7] Hpot'].
              apply IH; [|simpl in Hpot; lia]. split; try done.
              ** intros v l Hin. destruct (Hs4 v l Hin) as (?&?&?&?&?). done.
              ** intros v l v' l' Hh Hin.
                 assert ((v, l) ∈ queue') by (destruct queue'; [done|]; injection Hh as ->; by left).
                 destruct (Hs4 v l ltac:(done)) as (?&?&?&?&?).
                 destruct (Hs4 v' l' Hin) as (?&?&?&?&?). lia.
              ** intros u Hu.
                 destruct (Hs6 u Hu) as [?|[?|[?|[-> Hpre]]]];
                   [by left|by right; left|by right; right|].
                 right; left. intros w Hw. by apply Hpre.
        -- split; try done.
           ++ intros v l Hin. destruct (Hlab v l ltac:(by right)) as (?&?&?&?).
              repeat split; try done; [by eapply Hge|].
              by eapply (Hspan current d v l eq_refl); right.
           ++ intros u Hu. destruct (Hdone u Hu) as [Hq|[?|?]]; eauto.
              simpl in Hq. apply elem_of_cons in Hq as [->|Hq]; [|by left].
              do 3 right. split; [done|]. intros w Hw. by apply elem_of_nil in Hw.
Qed.

(** [shortestPathLen] for two distinct strings for which [adj[...]] is
    truthy: the length of a shortest walk of at most [limit] edges along the
    listed neighbours, [Infinity] when there is none; it throws only when an
    inherited name that is no key lies within fewer than [limit] edges. *)
Lemma shortestPathLen_correct :
  src <> dst -> hasProp adj src = true -> hasProp adj dst = true ->
  match shortestPathLen adj src dst limit with
  | Returns (Some r) => walk adj src r dst /\ (r <= limit)%nat
              /\ forall n, walk adj src n dst -> (r <= n)%nat
  | Returns None => forall n, walk adj src n dst -> (limit < n)%nat
  | Throws => exists u k, walk adj src k u /\ (k < limit)%nat
              /\ adj !! u = None /\ u ∈ inheritedNames
  end.
Proof.
  intros Hne Hs Hd. unfold shortestPathLen.
  rewrite decide_False by done. rewrite Hs, Hd. cbn [negb orb].
  apply bfs_correct.
  - split.
    + set_solver.
    + set_solver.
    + unfold vertices. set_solver.
    + intros v l Hin. apply list_elem_of_singleton in Hin. injection Hin as -> ->.
      split; [set_solver|]. split; [constructor|]. split; intros; lia.
    + repeat constructor.
    + intros v l v' l' [= <- <-] Hin. apply list_elem_of_singleton in Hin.
      injection Hin as -> ->. lia.
    + intros u Hu. apply elem_of_singleton in Hu as ->. left. simpl. by left.
  - simpl. assert (size (U ∖ {[src]}) <= size U)%nat; [|lia].
    apply subseteq_size. set_solver.
Qed.

Lemma shortestPathLen_same : shortestPathLen adj src src limit = Returns (Some 0%nat).
Proof. unfold shortestPathLen. by rewrite decide_True. Qed.

Lemma shortestPathLen_missing :
  src <> dst -> hasProp adj src = false \/ hasProp adj dst = false ->
  shortestPathLen adj src dst limit = Returns None.
Proof.
  intros Hne Hm. unfold shortestPathLen. rewrite decide_False by done.
  by destruct Hm as [-> | ->]; [|rewrite orb_true_r].
Qed.

End Bfs.

(** The fold of [scoreSituation] keeps the smallest finite path length. *)
Lemma bestPath_min (f : Obj -> option nat) (others : list Obj) (init : option nat) :
  let r := fold_left (fun best e => minPath (f e) best) others init in
  (r = None <-> init = None /\ forall e, e ∈ others -> f e = None)
  /\ (forall d, r = Some d <->
        (init = Some d \/ exists e, e ∈ others /\ f e = Some d)
        /\ (forall d', init = Some d' -> (d <= d')%nat)
        /\ (forall e d', e ∈ others -> f e = Some d' -> (d <= d')%nat)).
Proof.
  revert init. induction others as [|e others IH]; intros init; cbn [fold_left].
  - split.
    + split; [intros ->; split; [done|]; intros e He; by apply elem_of_nil in He|by intros [? _]].
    + intros d. split.
      * intros ->. split; [by left|]. split; [intros d' [= ->]; lia|].
        intros e d' He. by apply elem_of_nil in He.
      * intros ([->|(e & He & _)] & _ & _); [done|by apply elem_of_nil in He].
  - destruct (IH (minPath (f e) init)) as [IHn IHs]. split.
    + rewrite IHn. split.
      * intros [Hm Hall]. destruct (f e) as [x|] eqn:Hfe, init as [y|]; simpl in Hm;
          try destruct (x <? y)%nat; try done.
        split; [done|]. intros e' [->|He']%elem_of_cons; [done|by apply Hall].
      * intros [-> Hall]. split.
        -- rewrite (Hall e) by (by left). done.
        -- intros e' He'. apply Hall. by right.
    + intros d. rewrite IHs. clear IHn IHs.
      destruct (f e) as [x|] eqn:Hfe, init as [y|]; cbn [minPath].
      * destruct (Nat.ltb_spec x y).
        -- split.
           ++ intros ([[= <-]|(e' & He' & Hfe')] & Hi & Ho).
              ** split; [right; exists e; split; [by left|done]|].
                 split; [intros d' [= <-]; lia|].
                 intros e' d' [->|He']%elem_of_cons Hd'; [rewrite Hfe in Hd'; injection Hd' as <-; lia|].
                 by eapply Ho.
              ** split; [right; exists e'; split; [by right|done]|].
                 split; [intros d' [= <-]; specialize (Hi x eq_refl); lia|].
                 intros e'' d' [->|He'']%elem_of_cons Hd';
                   [rewrite Hfe in Hd'; injection Hd' as <-; by apply Hi|by eapply Ho].
           ++ intros ([[= <-]|(e' & [->|He']%elem_of_cons & Hfe')] & Hi & Ho).
              ** specialize (Ho e x ltac:(by left) Hfe). lia.
              ** rewrite Hfe in Hfe'. injection Hfe' as <-.
                 split; [by left|]. split; [by intros d' [= <-]|].
                 intros e'' d' He'' Hd'. eapply Ho; [by right|done].
              ** split; [right; by exists e'|]. split.
                 --- intros d' [= <-]. apply (Ho e x); [by left|done].
                 --- intros e'' d' He'' Hd'. eapply Ho; [by right|done].
        -- split.
           ++ intros ([[= <-]|(e' & He' & Hfe')] & Hi & Ho).
              ** split; [by left|]. split; [intros d' [= <-]; lia|].
                 intros e' d' [->|He']%elem_of_cons Hd'; [rewrite Hfe in Hd'; injection Hd' as <-; lia|].
                 by eapply Ho.
              ** split; [right; exists e'; split; [by right|done]|].
                 split; [intros d' [= <-]; by apply Hi|].
                 intros e'' d' [->|He'']%elem_of_cons Hd';
                   [rewrite Hfe in Hd'; injection Hd' as <-; specialize (Hi y eq_refl); lia|by eapply Ho].
           ++ intros ([[= <-]|(e' & [->|He']%elem_of_cons & Hfe')] & Hi & Ho).
              ** split; [by left|]. split; [by intros d' [= <-]|].
                 intros e'' d' He'' Hd'. eapply Ho; [by right|done].
              ** rewrite Hfe in Hfe'. injection Hfe' as <-.
                 specialize (Hi y eq_refl). assert (x = y) as -> by lia.
                 split; [by left|]. split; [by intros d' [= <-]|].
                 intros e'' d' He'' Hd'. eapply Ho; [by right|done].
              ** split; [right; by exists e'|]. split.
                 --- intros d' [= <-]. by apply Hi.
                 --- intros e'' d' He'' Hd'. eapply Ho; [by right|done].
      * split.
        -- intros ([[= <-]|(e' & He' & Hfe')] & Hi & Ho).
           ++ split; [right; exists e; split; [by left|done]|]. split; [done|].
              intros e' d' [->|He']%elem_of_cons Hd'; [rewrite Hfe in Hd'; injection Hd' as <-; lia|].
              by eapply Ho.
           ++ split; [right; exists e'; split; [by right|done]|]. split; [done|].
              intros e'' d' [->|He'']%elem_of_cons Hd';
                [rewrite Hfe in Hd'; injection Hd' as <-; by apply Hi|by eapply Ho].
        -- intros ([?|(e' & [->|He']%elem_of_cons & Hfe')] & Hi & Ho); [done| |].
           ++ rewrite Hfe in Hfe'. injection Hfe' as <-.
              split; [by left|]. split; [by intros d' [= <-]|].
              intros e'' d' He'' Hd'. eapply Ho; [by right|done].
           ++ split; [right; by exists e'|]. split.
              ** intros d' [= <-]. apply (Ho e x); [by left|done].
              ** intros e'' d' He'' Hd'. eapply Ho; [by right|done].
      * split.
        -- intros (Hd & Hi & Ho). split; [|split; [done|]].
           ++ destruct Hd as [?|(e' & He' & Hfe')]; [by left|right; exists e'; split; [by right|done]].
           ++ intros e' d' [->|He']%elem_of_cons Hd'; [congruence|by eapply Ho].
        -- intros (Hd & Hi & Ho). split; [|split; [done|]].
           ++ destruct Hd as [?|(e' & [->|He']%elem_of_cons & Hfe')]; [by left|congruence|right; by exists e'].
           ++ intros e' d' He' Hd'. eapply Ho; [by right|done].
      * split.
        -- intros (Hd & Hi & Ho). split; [|split; [done|]].
           ++ destruct Hd as [?|(e' & He' & Hfe')]; [done|right; exists e'; split; [by right|done]].
           ++ intros e' d' [->|He']%elem_of_cons Hd'; [congruence|by eapply Ho].
        -- intros (Hd & Hi & Ho). split; [|split; [done|]].
           ++ destruct Hd as [?|(e' & [->|He']%elem_of_cons & Hfe')]; [done|congruence|right; by exists e'].
           ++ intros e' d' He' Hd'. eapply Ho; [by right|done].
Qed.

(** The value a call returned, [Infinity] standing in for a call that
    threw. *)
Lemma pathFold_spec (f : Obj -> Outcome (option nat)) (others : list Obj) :
  let step := fun (acc : Outcome (option nat)) (e : Obj) =>
    bind_outcome acc (fun best =>
    bind_outcome (f e) (fun pathLen => Returns (minPath pathLen best))) in
  let val := fun e => match f e with Returns p => p | Throws => None end in
  forall init,
    (fold_left step others (Returns init) = Throws <-> exists e, e ∈ others /\ f e = Throws)
    /\ forall r, fold_left step others (Returns init) = Returns r ->
         (forall e, e ∈ others -> f e = Returns (val e))
         /\ r = fold_left (fun best e => minPath (val e) best) others init.
Proof.
  intros step val.
  assert (Hthrows : forall l, fold_left step l Throws = Throws).
  { induction l as [|e l IH]; [done|]. simpl. exact IH. }
  induction others as [|e others IH]; intros init; cbn [fold_left].
  - split.
    + split; [done|]. intros (e & He & _). by apply elem_of_nil in He.
    + intros r [= <-]. split; [|done]. intros e He. by apply elem_of_nil in He.
  - assert (Hs : step (Returns init) e
                 = bind_outcome (f e) (fun p => Returns (minPath p init))) by done.
    rewrite Hs. clear Hs.
    assert (Hv : forall p, f e = Returns p -> val e = p).
    { intros p Hp. unfold val. by rewrite Hp. }
    destruct (f e) as [p|] eqn:Hfe; cbn [bind_outcome].
    + rewrite (Hv p eq_refl).
      destruct (IH (minPath p init)) as [IHt IHr]. split.
      * rewrite IHt. split.
        -- intros (e' & He' & Hf). exists e'. split; [by right|done].
        -- intros (e' & [->|He']%elem_of_cons & Hf); [congruence|by exists e'].
      * intros r Hr. destruct (IHr r Hr) as [Hall ->]. split; [|done].
        intros e' [Heq|He']%elem_of_cons; [|by apply Hall].
        subst e'. rewrite Hfe. f_equal. symmetry. by apply Hv.
    + rewrite Hthrows. split.
      * split; [|done]. intros _. exists e. split; [by left|done].
      * intros r [=].
Qed.

(** C3, amended.  The path length from [s] to [d] is 0 when the two are
    equal; otherwise it is [Infinity] when [adj[s]] or [adj[d]] is falsy,
    that is when one of them is neither a key of the hints nor a name
    inherited from [Object.prototype]; otherwise it is the length of a
    shortest directed walk of at most 4 edges along the listed neighbours,
    [Infinity] when there is none, and the call throws only if an inherited
    name that is no key lies within 3 edges of [s].  For a situation with
    cause [cause] and effects [others] (the episodes sorted by start) the
    scoring throws exactly when one of these calls does; otherwise
    [bestPath] is the least of the finite lengths from the cause's entity to
    an effect's, [Infinity] when there is none; [pathScore] is
    [1 / (1 + bestPath)], and 0 for [Infinity].  With hints
    [{a: [b], b: [c], c: []}] the situation on [a] and [c] gets
    [pathScore = 1/3]; with [{a: [b], b: [c]}] it gets 0, [c] not being a
    key; with [{a: [toString]}] the length from [a] to [toString] is 1, and
    the call from [toString] to [a] throws. *)
Theorem graph_proximity_directed (adj : gmap string (list string))
    (sit : Situation) (maxLeadMs : Z) (cause : Obj) (others : list Obj) :
  sortedObjs (sit_episodes sit) = cause :: others ->
  let src := ep_entity_key cause.2 in
  let pathLen (e : Obj) := shortestPathLen adj src (ep_entity_key e.2) 4 in
  (forall k, hasProp adj k = true <-> is_Some (adj !! k) \/ k ∈ inheritedNames)
  /\ (forall s, shortestPathLen adj s s 4 = Returns (Some 0%nat))
  /\ (forall s d, s <> d -> hasProp adj s = false \/ hasProp adj d = false ->
        shortestPathLen adj s d 4 = Returns None)
  /\ (forall s d, s <> d -> hasProp adj s = true -> hasProp adj d = true ->
        match shortestPathLen adj s d 4 with
        | Returns (Some r) =>
            walk adj s r d /\ (r <= 4)%nat /\ forall n, walk adj s n d -> (r <= n)%nat
        | Returns None => forall n, walk adj s n d -> (4 < n)%nat
        | Throws =>
            exists u k, walk adj s k u /\ (k < 4)%nat /\ adj !! u = None
                        /\ u ∈ inheritedNames
        end)
  /\ (scoreParts sit adj maxLeadMs = Throws <-> exists e, e ∈ others /\ pathLen e = Throws)
  /\ (forall parts, scoreParts sit adj maxLeadMs = Returns (Some parts) ->
        (bestPath parts = None <-> forall e, e ∈ others -> pathLen e = Returns None)
        /\ (forall d, bestPath parts = Some d <->
              (exists e, e ∈ others /\ pathLen e = Returns (Some d))
              /\ forall e d', e ∈ others -> pathLen e = Returns (Some d') -> (d <= d')%nat))
  /\ pathScore None = 0%Q
  /\ (forall d, pathScore (Some d) = (1 / (1 + inject_Z (Z.of_nat d)))%Q)
  /\ (pathScore (bestPath graphParts) == 1 # 3)%Q
  /\ scoreParts graphSituation adjFull 90000 = Returns (Some graphParts)
  /\ (bind_outcome (scoreParts graphSituation adjSpec 90000)
        (fun parts => Returns (bestPath <$> parts))) = Returns (Some None)
  /\ shortestPathLen adjNamed "a" "toString" 4 = Returns (Some 1%nat)
  /\ shortestPathLen adjNamed "toString" "a" 4 = Throws.
Proof.
  intros Hsort src pathLen.
  split.
  { intros k. unfold hasProp. rewrite orb_true_iff, !bool_decide_eq_true. done. }
  split; [intros s; apply shortestPathLen_same|].
  split; [intros s d; apply shortestPathLen_missing|].
  split; [intros s d; apply shortestPathLen_correct|].
  unfold scoreParts. rewrite Hsort.
  match goal with
  | |- context [bind_outcome (fold_left ?st others (Returns None)) _] => set (step := st)
  end.
  destruct (pathFold_spec pathLen others None) as [Hthrows Hreturns].
  change (fold_left _ others (Returns None)) with (fold_left step others (Returns None))
    in Hthrows, Hreturns.
  split; [|split].
  - rewrite <- Hthrows. destruct (fold_left step others (Returns None)); done.
  - intros parts Hparts.
    destruct (fold_left step others (Returns None)) as [r|] eqn:Hfold; [|done].
    cbn [bind_outcome] in Hparts. injection Hparts as <-. cbn [bestPath].
    destruct (Hreturns r eq_refl) as [Hall ->].
    destruct (bestPath_min
                (fun e : Obj => match pathLen e with Returns p => p | Throws => None end)
                others None) as [Hnone Hsome].
    cbv beta in Hnone, Hsome.
    assert (Hval : forall e p, e ∈ others ->
              (match pathLen e with Returns p0 => p0 | Throws => None end = p
               <-> pathLen e = Returns p)).
    { intros e p He. pose proof (Hall e He) as E.
      destruct (pathLen e); [split; congruence|done]. }
    split.
    + rewrite Hnone. split.
      * intros [_ H] e He. apply Hval; [done|]. by apply H.
      * intros H. split; [done|]. intros e He. apply Hval; [done|]. by apply H.
    + intros d. rewrite Hsome. split.
      * intros ([?|(e & He & Hd)] & _ & Hmin); [done|]. split.
        -- exists e. split; [done|]. by apply Hval.
        -- intros e' d' He' Hd'. apply (Hmin e' d' He'). by apply Hval.
      * intros [(e & He & Hd) Hmin]. split; [|split; [done|]].
        -- right. exists e. split; [done|]. by apply Hval.
        -- intros e' d' He' Hd'. apply (Hmin e' d' He'). by apply Hval.
  - repeat split; vm_compute; reflexivity.
Qed.

Lemma graph_proximity_directed_witness :
  scoreParts graphSituation adjFull 90000 = Returns (Some graphParts)
  /\ (bestPath graphParts = Some 2%nat <->
      (exists e, e ∈ [(1%nat, graphEffect)]
                 /\ shortestPathLen adjFull "a" (ep_entity_key e.2) 4 = Returns (Some 2%nat))
      /\ forall e d', e ∈ [(1%nat, graphEffect)] ->
            shortestPathLen adjFull "a" (ep_entity_key e.2) 4 = Returns (Some d') ->
            (2 <= d')%nat).
Proof.
  assert (Hsort : sortedObjs (sit_episodes graphSituation)
                  = (0%nat, graphCause) :: [(1%nat, graphEffect)])
    by (vm_compute; reflexivity).
  assert (Hparts : scoreParts graphSituation adjFull 90000 = Returns (Some graphParts))
    by (vm_compute; reflexivity).
  split; [exact Hparts|].
  pose proof (graph_proximity_directed adjFull graphSituation 90000
                (0%nat, graphCause) [(1%nat, graphEffect)] Hsort) as H.
  cbv zeta in H. destruct H as (_ & _ & _ & _ & _ & H & _).
  exact (proj2 (H graphParts Hparts) 2%nat).
Defined.

(** C3 as stated fails.  On the scenario hints [{a: [b], b: [c]}] the path
    from [a] to [c] is [Infinity] and the path score 0, not 1/3; and the
    search follows the listed neighbours only: in [{a: [b], b: [], c: [b]}]
    both endpoints are keys and [a - b - c] is an undirected path of length
    2, yet the result is [Infinity]. *)
Lemma graph_scenario_scores_zero :
  shortestPathLen adjSpec "a" "c" 4 = Returns None
  /\ (bind_outcome (scoreParts graphSituation adjSpec 90000)
        (fun parts => Returns (pathScore <$> (bestPath <$> parts)))) = Returns (Some 0%Q)
  /\ ~ (0 == 1 / (1 + 2))%Q
  /\ edge adjBack "a" "b" /\ edge adjBack "c" "b"
  /\ shortestPathLen adjBack "a" "c" 4 = Returns None.
Proof.
  split; [vm_compute; reflexivity|]. split; [vm_compute; reflexivity|].
  split; [vm_compute; discriminate|].
  split; [|split; [|vm_compute; reflexivity]].
  - unfold edge. replace (adjBack !! "a") with (Some ["b"]) by (vm_compute; reflexivity).
    simpl. by left.
  - unfold edge. replace (adjBack !! "c") with (Some ["b"]) by (vm_compute; reflexivity).
    simpl. by left.
Qed.

End GraphFacts.
(** * Further facts about insertion-ordered maps *)

Section OMapMore.
Context {K A : Type} `{EqDecision K}.

(** Pushing one element on the list stored at a key adds exactly that
    element to the contents of the map. *)
Lemma omap_push_perm (m : list (K * list A)) (k : K) (a : A) :
  concat (OMap.values (OMap.set m k (default [] (OMap.get m k) ++ [a])%list))
  ≡ₚ (concat (OMap.values m) ++ [a])%list.
Proof.
  unfold OMap.values. induction m as [|[k0 v0] m IH]; simpl.
  - done.
  - destruct (decide (k0 = k)) as [->|Hne]; simpl.
    + rewrite <- !app_assoc. f_equiv. apply Permutation_app_comm.
    + rewrite IH. by rewrite app_assoc.
Qed.

Lemma omap_delete_sublist {V} (m : list (K * V)) (k : K) :
  OMap.delete m k `sublist_of` m.
Proof.
  induction m as [|[k0 v0] m IH]; simpl; [done|].
  destruct (decide (k0 = k)); [by apply sublist_cons|by apply sublist_skip].
Qed.

Lemma omap_set_elem {V} (m : list (K * V)) k v k' v' :
  (k', v') ∈ OMap.set m k v -> (k', v') = (k, v) \/ (k', v') ∈ m.
Proof.
  induction m as [|[k0 v0] m IH]; simpl.
  - intros H'. apply list_elem_of_singleton in H'. by left.
  - destruct (decide (k0 = k)) as [->|Hne].
    + intros H'. apply elem_of_cons in H' as [H'|H']; [by left|right; by right].
    + intros H'. apply elem_of_cons in H' as [H'|H']; [right; rewrite H'; by left|].
      destruct (IH H') as [?|?]; [by left|right; by right].
Qed.

Lemma omap_get_Some_in {V} (m : list (K * V)) k v :
  OMap.get m k = Some v -> (k, v) ∈ m.
Proof.
  induction m as [|[k0 v0] m IH]; simpl; [done|].
  destruct (decide (k0 = k)) as [->|Hne].
  - intros [= ->]. by left.
  - intros H'. right. by apply IH.
Qed.

Lemma omap_delete_app {V} (l1 l2 : list (K * V)) k v :
  k ∉ l1.*1 -> OMap.delete (l1 ++ (k, v) :: l2) k = (l1 ++ l2)%list.
Proof.
  induction l1 as [|[k0 v0] l1 IH]; simpl; intros Hn.
  - by rewrite decide_True.
  - apply not_elem_of_cons in Hn as [Hne Hn].
    rewrite decide_False by done. f_equal. by apply IH.
Qed.

Lemma omap_get_delete {V} (m : list (K * V)) k k' :
  NoDup m.*1 ->
  OMap.get (OMap.delete m k) k' = if decide (k = k') then None else OMap.get m k'.
Proof.
  induction m as [|[k0 v0] m IH]; simpl; intros Hnd.
  - by destruct (decide (k = k')).
  - apply NoDup_cons in Hnd as [Hk0 Hnd].
    destruct (decide (k0 = k)) as [->|Hne].
    + destruct (decide (k = k')) as [<-|Hne']; [by apply omap_get_keys|done].
    + simpl. destruct (decide (k0 = k')) as [->|Hne'].
      * by rewrite decide_False.
      * by apply IH.
Qed.
End OMapMore.

(** * The dedup worker: sanitised keys, rate limiting, garbage collection *)

Module DedupProps.
Import Dedup Samples Specs DedupFacts Invariants.







Lemma groupByEntity_perm (l : list Alert) :
  concat (OMap.values (groupByEntity l)) ≡ₚ l.
Proof.
  unfold groupByEntity.
  assert (H : forall (m : list (string * list Alert)),
            concat (OMap.values
              (fold_left
                 (fun (m : list (string * list Alert)) a =>
                    OMap.set m (entityKeyOf a)
                      (default [] (OMap.get m (entityKeyOf a)) ++ [a])%list) l m))
            ≡ₚ (concat (OMap.values m) ++ l)%list).
  { induction l as [|a l IH]; intros m; simpl.
    - by rewrite app_nil_r.
    - rewrite IH, omap_push_perm. by rewrite <- app_assoc. }
  apply (H []).
Qed.

Lemma applyRateLimiting_submseteq now (l : list Alert) :
  applyRateLimiting now l ⊆+ l.
Proof.
  unfold applyRateLimiting. rewrite <- (groupByEntity_perm l) at 2.
  unfold OMap.values. induction (groupByEntity l) as [|[k g] m IH]; simpl; [done|].
  apply submseteq_app; [|exact IH].
  etrans; [apply sublist_submseteq, limitEntity_sublist|].
  unfold sort_by_ts. by rewrite sort_by_perm.
Qed.

(** X2 (dedup message handler).  The alerts the dedup worker posts back are
    taken from the batch: none is invented and none is delivered more often
    than it was received (the output is a sub-multiset of the batch; its
    order may differ). *)
Theorem worker_output_from_batch st batch ttlMs nowRate nowGc :
  (onmessage st batch ttlMs nowRate nowGc).2 ⊆+ batch.
Proof.
  unfold onmessage.
  pose proof (processAlerts_sublist st batch ttlMs) as Hsub.
  destruct (processAlerts st batch ttlMs) as [st1 out]. simpl in *.
  etrans; [apply applyRateLimiting_submseteq|]. by apply sublist_submseteq.
Qed.

Lemma limitEntity_cap now (l : list Alert) : forall n,
  n <= maxAlertsPerMinute ->
  n + Z.of_nat (length (filter (fun a => now - ts a <= rateLimitWindow) (limitEntity now n l)))
  <= maxAlertsPerMinute.
Proof.
  induction l as [|a l IH]; intros n Hn; simpl.
  - rewrite ?filter_nil. simpl. lia.
  - destruct (Z.leb_spec (now - ts a) rateLimitWindow) as [Hin|Hout].
    + destruct (Z.ltb_spec n maxAlertsPerMinute) as [Hlt|Hge].
      * rewrite filter_cons_True by done. simpl length.
        specialize (IH (n + 1) ltac:(lia)). lia.
      * by apply IH.
    + rewrite filter_cons_False by lia. by apply IH.
Qed.

Lemma group_lookup (l : list Alert) ek g :
  OMap.get (groupByEntity l) ek = Some g -> g = filter (fun a => entityKeyOf a = ek) l.
Proof. intros Hg. by apply (groupByEntity_grouped l). Qed.

(** X3 (applyRateLimiting).  Per entity, the rate limiter lets through at
    most 100 alerts that lie within the last minute of its clock reading,
    and it lets through every older alert of the entity. *)
Theorem rate_limit_cap now (l : list Alert) (ek : string) :
  let mine := filter (fun a => entityKeyOf a = ek) (applyRateLimiting now l) in
  Z.of_nat (length (filter (fun a => now - ts a <= rateLimitWindow) mine))
  <= maxAlertsPerMinute
  /\ filter (fun a => rateLimitWindow < now - ts a) mine
     ≡ₚ filter (fun a => rateLimitWindow < now - ts a)
               (filter (fun a => entityKeyOf a = ek) l).
Proof.
  cbv zeta. rewrite applyRateLimiting_entity.
  destruct (OMap.get (groupByEntity l) ek) as [g|] eqn:Hg.
  - split.
    + pose proof (limitEntity_cap now (sort_by_ts g) 0 ltac:(done)). lia.
    + rewrite limitEntity_old. apply group_lookup in Hg as <-.
      unfold sort_by_ts. by rewrite sort_by_perm.
  - split; [by rewrite filter_nil|].
    apply omap_get_keys in Hg.
    assert (Hnil : filter (fun a => entityKeyOf a = ek) l = []).
    { destruct (filter _ l) as [|b ?] eqn:Hf; [done|].
      assert (Hb : b ∈ filter (fun a0 => entityKeyOf a0 = ek) l) by (rewrite Hf; by left).
      apply list_elem_of_filter in Hb as [Hb1 Hb2].
      exfalso. apply Hg. rewrite <- Hb1. by apply (groupByEntity_grouped l). }
    by rewrite Hnil.
Qed.

Lemma concat_map_perm {A} (F : list A -> list A) (m : list (string * list A)) :
  (forall k g, (k, g) ∈ m -> F g ≡ₚ g) ->
  concat (map (fun '(_, g) => F g) m) ≡ₚ concat (OMap.values m).
Proof.
  unfold OMap.values. induction m as [|[k g] m IH]; intros HF; simpl; [done|].
  rewrite (HF k g) by left. f_equiv. apply IH. intros k' g' Hin. apply (HF k'). by right.
Qed.

(** X4 (applyRateLimiting).  When no entity has more than 100 alerts within
    the last minute, rate limiting drops nothing: its output is a
    rearrangement of its input. *)
Theorem rate_limit_lossless now (l : list Alert) :
  (forall ek, Z.of_nat (length (filter (fun a => now - ts a <= rateLimitWindow)
                                  (filter (fun a => entityKeyOf a = ek) l)))
              <= maxAlertsPerMinute) ->
  applyRateLimiting now l ≡ₚ l.
Proof.
  intros Hcap. unfold applyRateLimiting.
  rewrite <- (groupByEntity_perm l) at 2.
  apply concat_map_perm. intros k g Hin.
  assert (Hg : OMap.get (groupByEntity l) k = Some g).
  { apply omap_get_elem_of; [apply (groupByEntity_grouped l)|done]. }
  apply group_lookup in Hg. rewrite limitEntity_all.
  - unfold sort_by_ts. apply sort_by_perm.
  - specialize (Hcap k). rewrite <- Hg in Hcap.
    unfold sort_by_ts. rewrite (sort_by_perm ts g). lia.
Qed.

Lemma rate_limit_lossless_witness :
  applyRateLimiting (t0 + 2500) [ordA1; ordB; ordA2] ≡ₚ [ordA1; ordB; ordA2].
Proof.
  apply rate_limit_lossless. intros ek.
  apply (Z.le_trans _ 3); [|done].
  apply (Nat2Z.inj_le _ 3).
  etrans; [apply length_filter|]. etrans; [apply length_filter|]. simpl. lia.
Defined.


Lemma stale_mono now now' (seen : gmap string Z) k :
  now <= now' -> stale now seen k = true -> stale now' seen k = true.
Proof.
  unfold stale. destruct (seen !! k) as [t|]; [|done].
  intros Hle H. apply Z.ltb_lt in H. apply Z.ltb_lt. lia.
Qed.

Lemma sweep_sweep {V} now now' (seen : gmap string Z) (m : gmap string V) :
  now <= now' ->
  sweep now' (sweep now seen seen) (sweep now seen m) = sweep now' seen m.
Proof.
  intros Hle. apply map_eq. intros k. rewrite !sweep_lookup.
  unfold stale at 1. rewrite sweep_lookup.
  destruct (stale now seen k) eqn:Hs.
  - by rewrite (stale_mono now now' seen k Hle Hs).
  - unfold stale. by destruct (seen !! k).
Qed.

(** X5 (garbageCollect).  After a collection every remaining [lastSeen]
    entry is at most ten minutes old, a key that has no [lastSeen] entry is
    never removed from the other three maps, and collecting again at a later
    clock reading gives the same state as collecting once at that later
    reading (in particular, collecting twice at the same reading changes
    nothing). *)
Theorem garbage_collect_twice now now' (st : DedupState) :
  now <= now' ->
  garbageCollect now' (garbageCollect now st) = garbageCollect now' st
  /\ (forall k t, lastSeen (garbageCollect now st) !! k = Some t -> now - t <= maxAge)
  /\ (forall k, lastSeen st !! k = None ->
        counts (garbageCollect now st) !! k = counts st !! k
        /\ flapCounts (garbageCollect now st) !! k = flapCounts st !! k
        /\ lastToggle (garbageCollect now st) !! k = lastToggle st !! k).
Proof.
  intros Hle. split; [|split].
  - unfold garbageCollect. simpl. f_equal; by apply sweep_sweep.
  - intros k t. simpl. rewrite sweep_lookup. unfold stale.
    destruct (lastSeen st !! k) as [t'|] eqn:Hk; [|done].
    destruct (Z.ltb_spec maxAge (now - t')); [done|]. intros [= <-]. lia.
  - intros k Hk. simpl. rewrite !sweep_lookup. unfold stale. by rewrite Hk.
Qed.

Lemma garbage_collect_twice_witness :
  garbageCollect (t0 + 700000) (garbageCollect t0 flappedState)
  = garbageCollect (t0 + 700000) flappedState.
Proof. apply garbage_collect_twice. lia. Defined.

Lemma get_or_0_nonneg (m : gmap string Z) k :
  (forall k n, m !! k = Some n -> 1 <= n) -> 0 <= get_or_0 m k.
Proof.
  intros H. unfold get_or_0. destruct (m !! k) as [n|] eqn:E; simpl; [|done].
  specialize (H _ _ E). lia.
Qed.

Lemma dedup_ok_empty : dedup_ok empty_state.
Proof.
  unfold dedup_ok, empty_state; simpl.
  repeat split; intros *; rewrite ?lookup_empty; try done; by intros [? ?].
Qed.

Lemma updateDedupState_ok st a ttlMs :
  dedup_ok st -> dedup_ok (updateDedupState st a ttlMs).1.
Proof.
  intros (Hct & Hseen & Hflap & Hpos & Hfpos). unfold updateDedupState.
  set (key := generateDedupKey a).
  pose proof (get_or_0_nonneg (counts st) key Hpos) as Hc0.
  pose proof (get_or_0_nonneg (flapCounts st) key Hfpos) as Hf0.
  unfold dedup_ok. destruct (ts a - get_or_0 (lastSeen st) key <? ttlMs); simpl.
  - assert (Hfl : forall k,
       is_Some (match lastToggle st !! key with
                | Some lastStatus =>
                    if decide (lastStatus <> status a)
                    then <[key := get_or_0 (flapCounts st) key + 1]> (flapCounts st)
                    else flapCounts st
                | None => flapCounts st
                end !! k) -> k = key \/ is_Some (flapCounts st !! k)).
    { intros k. destruct (lastToggle st !! key); [|by right].
      destruct (decide _); [|by right].
      rewrite lookup_insert_is_Some. intros [->|[_ ?]]; [by left|by right]. }
    split; [|split; [|split; [|split]]].
    + intros k. rewrite !lookup_insert_is_Some. specialize (Hct k). tauto.
    + intros k Hk. rewrite lookup_insert_is_Some.
      destruct (decide (key = k)); [by left|right; split; [done|by apply Hseen]].
    + intros k Hk. rewrite lookup_insert_is_Some.
      destruct (decide (key = k)); [by left|right; split; [done|]].
      destruct (Hfl k Hk) as [->|?]; [done|by apply Hflap].
    + intros k n. destruct (decide (key = k)) as [<-|Hne].
      * rewrite lookup_insert_eq. intros [= <-]. lia.
      * rewrite lookup_insert_ne by done. apply Hpos.
    + intros k n. destruct (lastToggle st !! key); [|apply Hfpos].
      destruct (decide _); [|apply Hfpos].
      destruct (decide (key = k)) as [<-|Hne].
      * rewrite lookup_insert_eq. intros [= <-]. lia.
      * rewrite lookup_insert_ne by done. apply Hfpos.
  - split; [|split; [|split; [|split]]].
    + intros k. rewrite !lookup_insert_is_Some. specialize (Hct k). tauto.
    + intros k. rewrite !lookup_insert_is_Some. specialize (Hseen k). tauto.
    + intros k Hk. rewrite lookup_insert_is_Some.
      destruct (decide (key = k)); [by left|right; split; [done|by apply Hflap]].
    + intros k n. destruct (decide (key = k)) as [<-|Hne].
      * rewrite lookup_insert_eq. by intros [= <-].
      * rewrite lookup_insert_ne by done. apply Hpos.
    + apply Hfpos.
Qed.

Lemma processAlerts_ok batch ttlMs : forall st,
  dedup_ok st -> dedup_ok (processAlerts st batch ttlMs).1.
Proof.
  induction batch as [|a rest IH]; intros st Hst; simpl; [done|].
  pose proof (processAlert_fst st a ttlMs) as H1.
  destruct (processAlert st a ttlMs) as [st1 keep]. simpl in H1.
  specialize (IH st1). destruct (processAlerts st1 rest ttlMs) as [st2 out].
  simpl in *. apply IH. rewrite H1. by apply updateDedupState_ok.
Qed.

Lemma garbageCollect_ok now st : dedup_ok st -> dedup_ok (garbageCollect now st).
Proof.
  intros (Hct & Hseen & Hflap & Hpos & Hfpos). unfold dedup_ok; simpl.
  split; [|split; [|split; [|split]]]; intros k; rewrite ?sweep_lookup.
  - destruct (stale now (lastSeen st) k); [done|apply Hct].
  - destruct (stale now (lastSeen st) k); [by intros [? ?]|apply Hseen].
  - destruct (stale now (lastSeen st) k); [by intros [? ?]|apply Hflap].
  - intros n. destruct (stale now (lastSeen st) k); [done|apply Hpos].
  - intros n. destruct (stale now (lastSeen st) k); [done|apply Hfpos].
Qed.

(** X6 (dedup worker state).  Every message keeps the four maps of the
    worker consistent: [counts] and [lastToggle] have the same keys, every
    key of [lastSeen] and [flapCounts] has a count, and the stored counts and
    flap counts are at least 1. *)
Theorem dedup_state_consistent st batch ttlMs nowRate nowGc :
  dedup_ok st -> dedup_ok (onmessage st batch ttlMs nowRate nowGc).1.
Proof.
  intros Hst. unfold onmessage.
  pose proof (processAlerts_ok batch ttlMs st Hst) as H1.
  destruct (processAlerts st batch ttlMs) as [st1 out]. simpl in *.
  by apply garbageCollect_ok.
Qed.

Lemma dedup_state_consistent_witness :
  dedup_ok (onmessage empty_state [flap1; flap2; flap3] 120000 (t0 + 2500) (t0 + 2600)).1.
Proof. apply dedup_state_consistent. exact dedup_ok_empty. Defined.

End DedupProps.

(** * The engine of main.js: deduplication and situation store *)

Module EngineProps.
Import Engine EngineState Samples.

Lemma dedupLoop_sublist ttl (l : list Alert) : forall seen,
  dedupLoop ttl seen l `sublist_of` l.
Proof.
  induction l as [|a l IH]; intros seen; simpl; [done|].
  destruct (ttl <=? ts a - get_or_0 seen (dedupKey a)); by constructor.
Qed.

Lemma dedupLoop_idem ttl (l : list Alert) : forall seen,
  dedupLoop ttl seen (dedupLoop ttl seen l) = dedupLoop ttl seen l.
Proof.
  induction l as [|a l IH]; intros seen; simpl; [done|].
  destruct (ttl <=? ts a - get_or_0 seen (dedupKey a)) eqn:E; simpl.
  - rewrite E. f_equal. apply IH.
  - apply IH.
Qed.

(** X7 (CorrelationEngine.deduplicateAlerts of main.js).  Deduplication
    keeps a subsequence of the batch, in batch order, and is idempotent:
    running it on its own output drops nothing further. *)
Theorem engine_dedup_idempotent (dedupTtlMs : Z) (l : list Alert) :
  deduplicateAlerts dedupTtlMs l `sublist_of` l
  /\ deduplicateAlerts dedupTtlMs (deduplicateAlerts dedupTtlMs l)
     = deduplicateAlerts dedupTtlMs l.
Proof. split; [apply dedupLoop_sublist|apply dedupLoop_idem]. Qed.

Lemma dedupLoop_next ttl (l : list Alert) : forall seen mid b post,
  dedupLoop ttl seen l = (mid ++ b :: post)%list ->
  (forall c, c ∈ mid -> dedupKey c <> dedupKey b) ->
  ttl <= ts b - get_or_0 seen (dedupKey b).
Proof.
  induction l as [|x l IH]; intros seen mid b post Hout Hmid; simpl in Hout.
  - by destruct mid.
  - destruct (Z.leb_spec ttl (ts x - get_or_0 seen (dedupKey x))) as [Hk|Hd].
    + destruct mid as [|m mid]; simpl in Hout.
      * injection Hout as -> _. exact Hk.
      * injection Hout as -> Hout.
        specialize (IH _ _ _ _ Hout (fun c Hc => Hmid c (proj2 (elem_of_cons _ _ _) (or_intror Hc)))).
        assert (Hne : dedupKey m <> dedupKey b) by (apply Hmid; left).
        unfold get_or_0 in IH. rewrite lookup_insert_ne in IH by done. exact IH.
    + by eapply IH.
Qed.

Lemma dedupLoop_spacing ttl (l : list Alert) : forall seen pre a mid b post,
  dedupLoop ttl seen l = (pre ++ a :: mid ++ b :: post)%list ->
  dedupKey a = dedupKey b ->
  (forall c, c ∈ mid -> dedupKey c <> dedupKey a) ->
  ttl <= ts b - ts a.
Proof.
  induction l as [|x l IH]; intros seen pre a mid b post Hout Hab Hmid; simpl in Hout.
  - by destruct pre.
  - destruct (Z.leb_spec ttl (ts x - get_or_0 seen (dedupKey x))) as [Hk|Hd].
    + destruct pre as [|p pre]; simpl in Hout.
      * injection Hout as -> Hout.
        apply dedupLoop_next in Hout; [|by rewrite <- Hab].
        unfold get_or_0 in Hout. rewrite <- Hab, lookup_insert_eq in Hout. exact Hout.
      * injection Hout as -> Hout. by eapply IH.
    + by eapply IH.
Qed.

(** X8 (CorrelationEngine.deduplicateAlerts of main.js).  Two alerts of the
    same key that are kept one after the other (no alert of that key is kept
    in between) are at least [dedupTtlMs] apart. *)
Theorem engine_dedup_spacing (dedupTtlMs : Z) (l pre mid post : list Alert) (a b : Alert) :
  deduplicateAlerts dedupTtlMs l = (pre ++ a :: mid ++ b :: post)%list ->
  dedupKey a = dedupKey b ->
  (forall c, c ∈ mid -> dedupKey c <> dedupKey a) ->
  dedupTtlMs <= ts b - ts a.
Proof. apply dedupLoop_spacing. Qed.

Lemma engine_dedup_spacing_witness : 120000 <= ts gap3 - ts gap1.
Proof.
  apply (engine_dedup_spacing 120000 [gap1; gap2; gap3] [] [] [] gap1 gap3).
  - vm_compute. reflexivity.
  - reflexivity.
  - intros c Hc. by apply elem_of_nil in Hc.
Defined.


Lemma storeAll_from now (sits : list Score.Situation) : forall st id s,
  situations (storeAll now st sits) !! id = Some s ->
  (s ∈ sits /\ Score.situation_id s = id) \/ situations st !! id = Some s.
Proof.
  induction sits as [|x sits IH]; intros st id s; simpl; [by right|].
  intros H. apply IH in H as [[Hin Hid]|H].
  - left. split; [by right|done].
  - simpl in H. destruct (decide (Score.situation_id x = id)) as [<-|Hne].
    + rewrite lookup_insert_eq in H. injection H as <-. left. split; [by left|done].
    + rewrite lookup_insert_ne in H by done. by right.
Qed.

Lemma storeAll_keeps now (sits : list Score.Situation) : forall st id,
  (forall s, s ∈ sits -> Score.situation_id s <> id) ->
  situations (storeAll now st sits) !! id = situations st !! id
  /\ lastActivity (storeAll now st sits) !! id = lastActivity st !! id.
Proof.
  induction sits as [|x sits IH]; intros st id Hne; simpl; [done|].
  destruct (IH {| situations := <[Score.situation_id x := x]> (situations st);
                  lastActivity := <[Score.situation_id x := now]> (lastActivity st) |} id)
    as [-> ->].
  - intros s Hs. apply Hne. by right.
  - simpl. rewrite !lookup_insert_ne; [done| |]; apply Hne; by left.
Qed.

Lemma storeAll_stamp now (sits : list Score.Situation) : forall st id,
  lastActivity (storeAll now st sits) !! id = Some now
  \/ lastActivity (storeAll now st sits) !! id = lastActivity st !! id.
Proof.
  induction sits as [|x sits IH]; intros st id; simpl; [by right|].
  destruct (IH {| situations := <[Score.situation_id x := x]> (situations st);
                  lastActivity := <[Score.situation_id x := now]> (lastActivity st) |} id)
    as [H|H]; [by left|].
  rewrite H. simpl. destruct (decide (Score.situation_id x = id)) as [<-|Hne].
  - left. by rewrite lookup_insert_eq.
  - right. by rewrite lookup_insert_ne.
Qed.

Lemma storeAll_app now st (l1 l2 : list Score.Situation) :
  storeAll now st (l1 ++ l2) = storeAll now (storeAll now st l1) l2.
Proof. unfold storeAll. by rewrite fold_left_app. Qed.

(** X9 (CorrelationEngine.updateSituations of main.js).  After an update no
    stored situation ended more than [maxSituationLifetime] before the clock
    reading; every stored situation was stored before or belongs to the
    batch; and a situation of the batch that has not expired is stored under
    its id, stamped with the clock reading, unless a later situation of the
    batch carries the same id; an entry of [lastActivity] is stamped with
    the clock reading, deleted or left as it was. *)
Theorem situations_expire now maxSituationLifetime (st : Store)
    (sits : list Score.Situation) :
  let st' := updateSituations now maxSituationLifetime st sits in
  (forall id s, situations st' !! id = Some s ->
     now - Score.window_end s <= maxSituationLifetime
     /\ ((s ∈ sits /\ Score.situation_id s = id) \/ situations st !! id = Some s))
  /\ (forall pre s post,
        sits = (pre ++ s :: post)%list ->
        (forall s', s' ∈ post -> Score.situation_id s' <> Score.situation_id s) ->
        now - Score.window_end s <= maxSituationLifetime ->
        situations st' !! Score.situation_id s = Some s
        /\ lastActivity st' !! Score.situation_id s = Some now)
  /\ (forall id, lastActivity st' !! id = Some now \/ lastActivity st' !! id = None
                  \/ lastActivity st' !! id = lastActivity st !! id).
Proof.
  cbv zeta. unfold updateSituations. simpl.
  split; [|split].
  - intros id s H. apply map_lookup_filter_Some in H as [H Hexp]. simpl in Hexp.
    unfold expired in Hexp. rewrite H in Hexp.
    apply Z.ltb_ge in Hexp. split; [done|]. by eapply storeAll_from.
  - intros pre s post -> Hpost Hfresh.
    rewrite storeAll_app. simpl.
    destruct (storeAll_keeps now post
                {| situations := <[Score.situation_id s := s]> (situations (storeAll now st pre));
                   lastActivity := <[Score.situation_id s := now]> (lastActivity (storeAll now st pre)) |}
                (Score.situation_id s) Hpost) as [H1 H2].
    simpl in H1, H2. rewrite lookup_insert_eq in H1. rewrite lookup_insert_eq in H2.
    assert (Hexp : expired now maxSituationLifetime
               (situations (storeAll now
                  {| situations := <[Score.situation_id s := s]> (situations (storeAll now st pre));
                     lastActivity := <[Score.situation_id s := now]> (lastActivity (storeAll now st pre)) |}
                  post)) (Score.situation_id s) = false).
    { unfold expired. rewrite H1. apply Z.ltb_ge. lia. }
    split; apply map_lookup_filter_Some; split; done.
  - intros id.
    destruct (lastActivity (storeAll now st sits) !! id) as [t|] eqn:Ht.
    + destruct (expired now maxSituationLifetime (situations (storeAll now st sits)) id) eqn:Hexp.
      * right; left. apply map_lookup_filter_None. right. intros x _. simpl. by rewrite Hexp.
      * assert (Hl : filter (fun kv => expired now maxSituationLifetime
                                 (situations (storeAll now st sits)) kv.1 = false)
                       (lastActivity (storeAll now st sits)) !! id = Some t)
          by (apply map_lookup_filter_Some; split; done).
        rewrite Hl. destruct (storeAll_stamp now sits st id) as [H|H].
        -- left. congruence.
        -- right; right. congruence.
    + right; left. apply map_lookup_filter_None. by left.
Qed.

End EngineProps.

(** * The enhanced correlator: deduplication per call *)

Module EnhancedProps.
Import K8s Enhanced.

Lemma fresh_insert_eq now (m : gmap string Z) k :
  now <> 0 -> fresh now (<[k := now]> m) k = false.
Proof.
  intros Hnow. unfold fresh. rewrite lookup_insert_eq.
  apply orb_false_iff. split; [by apply Z.eqb_neq|].
  apply Z.ltb_ge. unfold dedupTTL. lia.
Qed.

Lemma fresh_insert_ne now (m : gmap string Z) k k' t :
  k <> k' -> fresh now (<[k := t]> m) k' = fresh now m k'.
Proof. intros Hne. unfold fresh. by rewrite lookup_insert_ne. Qed.

Lemma dedup_call_spec now (alerts : list KAlert) : now <> 0 -> forall m,
  let r := deduplicateAlerts now m alerts in
  r.2 `sublist_of` alerts
  /\ (forall a, a ∈ r.2 -> fresh now m (dedupKey a) = true)
  /\ NoDup (dedupKey <$> r.2)
  /\ (forall k, r.1 !! k = if decide (k ∈ dedupKey <$> r.2) then Some now else m !! k)
  /\ (forall a, a ∈ alerts -> fresh now m (dedupKey a) = true ->
        dedupKey a ∈ dedupKey <$> r.2).
Proof.
  intros Hnow. induction alerts as [|a rest IH]; intros m; simpl.
  - split; [done|]. split; [by intros a Ha; apply elem_of_nil in Ha|].
    split; [constructor|]. split.
    + intros k. first [done | case_decide as Hin; [by apply elem_of_nil in Hin|done]].
    + intros a Ha. by apply elem_of_nil in Ha.
  - destruct (fresh now m (dedupKey a)) eqn:Hf.
    + specialize (IH (<[dedupKey a := now]> m)).
      destruct (deduplicateAlerts now (<[dedupKey a := now]> m) rest) as [m2 out].
      simpl in *. destruct IH as (Hsub & Hfr & Hnd & Hmap & Hall).
      assert (Hother : forall b, b ∈ out -> dedupKey a <> dedupKey b).
      { intros b Hb Heq. specialize (Hfr b Hb).
        rewrite <- Heq, fresh_insert_eq in Hfr by done. done. }
      split; [by constructor|]. split; [|split; [|split]].
      * intros b Hb. apply elem_of_cons in Hb as [->|Hb]; [done|].
        rewrite <- (Hfr b Hb). symmetry. apply fresh_insert_ne. by apply Hother.
      * apply NoDup_cons. split; [|done].
        intros Hin. apply list_elem_of_fmap in Hin as (b & Heq & Hb).
        by apply (Hother b Hb).
      * intros k. rewrite Hmap.
        destruct (decide (k ∈ dedupKey <$> out)) as [Hin|Hnin].
        -- by rewrite decide_True by (by right).
        -- destruct (decide (k = dedupKey a)) as [->|Hne].
           ++ by rewrite lookup_insert_eq, decide_True by left.
           ++ rewrite lookup_insert_ne by done. rewrite decide_False; [done|].
              intros Hin. apply elem_of_cons in Hin as [?|?]; done.
      * intros b Hb Hfb. destruct (decide (dedupKey a = dedupKey b)) as [<-|Hne]; [by left|].
        right. apply elem_of_cons in Hb as [->|Hb]; [done|].
        apply Hall; [done|]. by rewrite fresh_insert_ne.
    + specialize (IH m). destruct (deduplicateAlerts now m rest) as [m2 out].
      simpl in *. destruct IH as (Hsub & Hfr & Hnd & Hmap & Hall).
      split; [by constructor|]. split; [done|]. split; [done|]. split; [done|].
      intros b Hb Hfb. apply elem_of_cons in Hb as [->|Hb]; [congruence|by apply Hall].
Qed.

Lemma dedup_call_none now (alerts : list KAlert) (m : gmap string Z) :
  (forall a, a ∈ alerts -> fresh now m (dedupKey a) = false) ->
  deduplicateAlerts now m alerts = (m, []).
Proof.
  induction alerts as [|a rest IH]; intros Hall; simpl; [done|].
  rewrite (Hall a) by left. apply IH. intros b Hb. apply Hall. by right.
Qed.

(** X10 (CorrelationEngine.deduplicateAlerts of the enhanced correlator).
    Within one call (one reading of the clock, not zero) at most one alert
    per key is kept: the kept alerts form a subsequence of the input with
    pairwise distinct keys, each key that was not suppressed on entry is
    represented, every kept key is recorded with the clock reading, and a
    second call with the same batch and the same clock reading keeps
    nothing. *)
Theorem enhanced_dedup_one_per_key now (m : gmap string Z) (alerts : list KAlert) :
  now <> 0 ->
  let r := deduplicateAlerts now m alerts in
  r.2 `sublist_of` alerts
  /\ NoDup (dedupKey <$> r.2)
  /\ (forall a, a ∈ alerts ->
        dedupKey a ∈ dedupKey <$> r.2 <-> fresh now m (dedupKey a) = true)
  /\ (forall a, a ∈ r.2 -> r.1 !! dedupKey a = Some now)
  /\ deduplicateAlerts now r.1 alerts = (r.1, []).
Proof.
  intros Hnow. cbv zeta.
  destruct (dedup_call_spec now alerts Hnow m) as (Hsub & Hfr & Hnd & Hmap & Hall).
  split; [done|]. split; [done|]. split; [|split].
  - intros a Ha. split; [|by apply Hall].
    intros Hin. apply list_elem_of_fmap in Hin as (b & -> & Hb). by apply Hfr.
  - intros a Ha. rewrite Hmap, decide_True; [done|].
    apply list_elem_of_fmap. by exists a.
  - apply dedup_call_none. intros a Ha. unfold fresh at 1. rewrite Hmap.
    case_decide as Hin.
    + apply orb_false_iff. split; [by apply Z.eqb_neq|].
      apply Z.ltb_ge. unfold dedupTTL. lia.
    + destruct (fresh now m (dedupKey a)) eqn:Hf; [|exact Hf].
      exfalso. apply Hin. by apply Hall.
Qed.

Lemma enhanced_dedup_one_per_key_witness :
  let alerts := generatedAlerts (run k8sRules Samples.envMorning [Samples.nodeEvent Samples.t0]) in
  NoDup (dedupKey <$> (deduplicateAlerts Samples.t0 ∅ (alerts ++ alerts)).2).
Proof.
  intros alerts. apply (enhanced_dedup_one_per_key Samples.t0 ∅ (alerts ++ alerts)).
  unfold Samples.t0. lia.
Defined.

End EnhancedProps.

(** * The cluster worker: what a tick keeps and returns *)

Module ClusterProps.
Import Cluster Samples Invariants.

Lemma burst_fold gapMs (l : list Alert) : forall acc cur,
  ((fold_left (burstStep gapMs) l (acc, cur)).1
   ++ (fold_left (burstStep gapMs) l (acc, cur)).2 = acc ++ cur ++ l)%list.
Proof.
  induction l as [|x l IH]; intros acc cur; cbn [fold_left].
  - simpl. by rewrite app_nil_r.
  - destruct (burstStep gapMs (acc, cur) x) as [acc' cur'] eqn:Hstep.
    rewrite IH. unfold burstStep in Hstep.
    destruct (last cur) as [lastInCluster|] eqn:Hlast.
    + destruct (ts x - ts lastInCluster <=? gapMs); injection Hstep as <- <-;
        by rewrite <- !app_assoc.
    + apply last_None in Hlast as ->. by injection Hstep as <- <-.
Qed.

(** X11 (applyBurstClustering, cluster message handler).  Burst clustering
    drops and groups nothing: for every gap it returns the batch sorted by
    timestamp (a stable sort), and this sorted batch is what the handler
    reports as [alertsKept]. *)
Theorem burst_clustering_is_sort (st : State) (batch : list Alert)
    (gapMs windowMs nowCleanup nowWindow : Z) :
  applyBurstClustering batch gapMs = sort_by_ts batch
  /\ applyBurstClustering batch gapMs ≡ₚ batch
  /\ StronglySorted (fun a b => ts a <= ts b) (applyBurstClustering batch gapMs)
  /\ (onmessage st batch gapMs windowMs nowCleanup nowWindow).2.2 = sort_by_ts batch.
Proof.
  assert (H : applyBurstClustering batch gapMs = sort_by_ts batch).
  { unfold applyBurstClustering. destruct batch as [|a batch]; [done|].
    pose proof (burst_fold gapMs (sort_by_ts (a :: batch)) [] []) as Hf.
    destruct (fold_left _ _ _) as [acc cur]. simpl in Hf. exact Hf. }
  split; [exact H|]. split; [|split].
  - rewrite H. apply sort_by_perm.
  - rewrite H. apply (sort_by_sorted ts).
  - unfold onmessage. simpl. exact H.
Qed.


Lemma set_add_old (l : list string) x y : y ∈ l -> y ∈ set_add l x.
Proof. unfold set_add. destruct (decide (x ∈ l)); [done|]. intros H. apply elem_of_app. by left. Qed.

Lemma set_add_new (l : list string) x : x ∈ set_add l x.
Proof.
  unfold set_add. destruct (decide (x ∈ l)); [done|].
  apply elem_of_app. right. by left.
Qed.

Lemma set_add_NoDup (l : list string) x : NoDup l -> NoDup (set_add l x).
Proof.
  unfold set_add. destruct (decide (x ∈ l)) as [|Hn]; [done|]. intros Hnd.
  apply NoDup_app. split; [done|]. split; [|apply NoDup_singleton].
  intros y Hy Hy'. apply list_elem_of_singleton in Hy' as ->. done.
Qed.

Lemma new_episode_ok (a : Alert) :
  episode_ok (generateEpisodeKey a)
    {| ep_entity_key := entityKeyOf a; ep_fingerprint := alertFingerprint a;
       vendorMix := [source a]; start := ts a; end_ := ts a; count := 1;
       ids := [vendor_event_id a]; alerts := [a]; ep_severity := severity a |}.
Proof.
  unfold episode_ok; simpl. split; [done|]. split.
  - intros b Hb. apply list_elem_of_singleton in Hb as ->.
    split; [done|]. split; [by left|]. split; [by left|lia].
  - split; [lia|]. split; [lia|]. split; [by exists a|].
    split; apply NoDup_singleton.
Qed.

Lemma updateEpisode_ok (e : Episode) (a : Alert) gapMs :
  episode_ok (generateEpisodeKey a) e ->
  episode_ok (generateEpisodeKey a) (updateEpisode e a gapMs).1.
Proof.
  intros Hok. unfold updateEpisode.
  destruct (gapMs <? ts a - end_ e); [done|]. simpl.
  destruct Hok as (Hkey & Hal & Hlen & Hcnt & (a0 & Hhd & Hst) & Hids & Hmix).
  unfold episode_ok; simpl. split; [done|].
  set (sev := if getSeverityWeight (ep_severity e) <? getSeverityWeight (severity a)
              then severity a else ep_severity e).
  assert (Hsev : getSeverityWeight (ep_severity e) <= getSeverityWeight sev
                 /\ getSeverityWeight (severity a) <= getSeverityWeight sev).
  { unfold sev.
    destruct (Z.ltb_spec (getSeverityWeight (ep_severity e)) (getSeverityWeight (severity a)));
      lia. }
  assert (Hold : forall b, b ∈ alerts e ->
            generateEpisodeKey b = generateEpisodeKey a
            /\ vendor_event_id b ∈ set_add (ids e) (vendor_event_id a)
            /\ source b ∈ set_add (vendorMix e) (source a)
            /\ getSeverityWeight (severity b) <= getSeverityWeight sev).
  { intros b Hb. destruct (Hal b Hb) as (? & ? & ? & ?).
    split; [done|]. split; [by apply set_add_old|]. split; [by apply set_add_old|lia]. }
  destruct (Z.ltb_spec (Z.of_nat (length (alerts e))) 50) as [Hlt|Hge].
  - split.
    { intros b Hb. apply elem_of_app in Hb as [Hb|Hb]; [by apply Hold|].
      apply list_elem_of_singleton in Hb as ->.
      split; [done|]. split; [apply set_add_new|]. split; [apply set_add_new|apply Hsev]. }
    rewrite length_app. simpl. split; [lia|]. split; [lia|]. split.
    { exists a0. split; [|done]. destruct (alerts e); [done|]. simpl in *. done. }
    split; by apply set_add_NoDup.
  - split; [exact Hold|]. split; [done|]. split; [lia|]. split; [by exists a0|].
    split; by apply set_add_NoDup.
Qed.

Lemma assignAlert_ok st a gapMs : cluster_ok st -> cluster_ok (assignAlert st a gapMs).
Proof.
  intros [Hnd Hall]. unfold assignAlert, getOrCreateEpisode.
  destruct (OMap.get (episodes st) (generateEpisodeKey a)) as [e|] eqn:Hget.
  - pose proof (updateEpisode_ok e a gapMs (Hall _ _ (omap_get_Some_in _ _ _ Hget))) as Hup.
    destruct (updateEpisode e a gapMs) as [e' b]. simpl in *.
    split; simpl; [by apply omap_set_NoDup|].
    intros k x Hin. apply omap_set_elem in Hin as [[= -> ->]|Hin]; [done|by apply Hall].
  - pose proof (updateEpisode_ok _ a gapMs (new_episode_ok a)) as Hup.
    destruct (updateEpisode _ a gapMs) as [e' b]. simpl in *.
    split; simpl; [by do 2 apply omap_set_NoDup|].
    intros k x Hin. apply omap_set_elem in Hin as [[= -> ->]|Hin]; [done|].
    apply omap_set_elem in Hin as [[= -> ->]|Hin]; [apply new_episode_ok|by apply Hall].
Qed.

Lemma assignAlerts_ok batch gapMs : forall st,
  cluster_ok st -> cluster_ok (assignAlerts st batch gapMs).
Proof.
  unfold assignAlerts. induction batch as [|a batch IH]; intros st Hst; simpl; [done|].
  apply IH. by apply assignAlert_ok.
Qed.

Lemma cleanup_sublist cutoff (l : list (string * Episode)) : forall s,
  episodes (fold_left
     (fun s '(key, episode) =>
        if end_ episode <? cutoff
        then {| episodes := OMap.delete (episodes s) key;
                entityEpisodes := unindex (entityEpisodes s) (ep_entity_key episode) key |}
        else s) l s) `sublist_of` episodes s.
Proof.
  induction l as [|[k e] l IH]; intros s; simpl; [done|].
  destruct (end_ e <? cutoff); [|apply IH].
  etrans; [apply IH|]. simpl. apply omap_delete_sublist.
Qed.

Lemma cleanup_ok now windowMs st : cluster_ok st -> cluster_ok (cleanupOldEpisodes now windowMs st).
Proof.
  intros [Hnd Hall]. unfold cleanupOldEpisodes.
  pose proof (cleanup_sublist (now - windowMs) (episodes st) st) as Hsub.
  split.
  - eapply sublist_NoDup; [exact Hnd|by apply DedupFacts.sublist_fmap].
  - intros k e Hin. apply Hall. eapply sublist_subseteq; [exact Hsub|exact Hin].
Qed.

(** X12 (getOrCreateEpisode, updateEpisode, cleanupOldEpisodes, cluster
    message handler).  A tick of the cluster worker keeps its episode map
    well formed: keys are distinct, each episode sits under the key made of
    its entity key and fingerprint, retains at most 50 alerts (never more
    than its count), all of them alerts of that key with their ids and
    sources recorded and none more severe than the episode, the first of
    them being the alert whose timestamp is the episode start, and [ids]
    and [vendorMix] hold no duplicates.  The episodes returned to the caller
    are episodes of this map. *)
Theorem cluster_state_well_formed st batch gapMs windowMs nowCleanup nowWindow :
  cluster_ok st ->
  let r := onmessage st batch gapMs windowMs nowCleanup nowWindow in
  cluster_ok r.1
  /\ forall e, e ∈ r.2.1 -> exists k, (k, e) ∈ episodes r.1 /\ episode_ok k e.
Proof.
  intros Hst. cbv zeta. unfold onmessage. simpl.
  assert (Hok : cluster_ok (cleanupOldEpisodes nowCleanup windowMs
                   (assignAlerts st (applyBurstClustering batch gapMs) gapMs))).
  { by apply cleanup_ok, assignAlerts_ok. }
  split; [exact Hok|].
  intros e He. unfold getEpisodesInWindow in He.
  rewrite (sort_by_perm start) in He.
  apply list_elem_of_In, filter_In in He as [He _]. apply list_elem_of_In in He.
  unfold OMap.values in He. apply (list_elem_of_fmap (B:=Episode)) in He as ([k e'] & -> & Hin).
  exists k. split; [done|]. by apply Hok.
Qed.

Lemma cluster_state_well_formed_witness :
  cluster_ok (onmessage empty_state [gap1; gap2] 120000 (15 * 60000)
                (t0 + 60500) (t0 + 60600)).1.
Proof.
  apply cluster_state_well_formed. split; [constructor|].
  intros k e H. by apply elem_of_nil in H.
Defined.


Lemma cleanup_fold cutoff (todo : list (string * Episode)) :
  forall (done_ : list (string * Episode)) s,
  NoDup ((done_ ++ todo)%list).*1 ->
  episodes s = (filter (fun ke => cutoff <= end_ ke.2) done_ ++ todo)%list ->
  episodes (fold_left
     (fun s '(key, episode) =>
        if end_ episode <? cutoff
        then {| episodes := OMap.delete (episodes s) key;
                entityEpisodes := unindex (entityEpisodes s) (ep_entity_key episode) key |}
        else s) todo s)
  = filter (fun ke => cutoff <= end_ ke.2) (done_ ++ todo)%list.
Proof.
  induction todo as [|[k e] todo IH]; intros done_ s Hnd Hs; simpl.
  - by rewrite Hs, !app_nil_r.
  - replace (done_ ++ (k, e) :: todo)%list with ((done_ ++ [(k, e)]) ++ todo)%list
      in * by (by rewrite <- app_assoc).
    destruct (Z.ltb_spec (end_ e) cutoff) as [Hexp|Hlive].
    + apply IH; [done|]. simpl. rewrite Hs, filter_app.
      rewrite (filter_cons_False _ (k, e)) by (simpl; lia).
      rewrite filter_nil, app_nil_r. apply omap_delete_app.
      rewrite !fmap_app in Hnd. apply NoDup_app in Hnd as [Hnd _].
      apply NoDup_app in Hnd as (_ & Hdisj & _).
      intros Hin. apply (Hdisj k); [|by left].
      apply list_elem_of_fmap in Hin as ([k' e'] & -> & Hin).
      apply list_elem_of_filter in Hin as [_ Hin].
      apply list_elem_of_fmap. by exists (k', e').
    + apply IH; [done|]. rewrite Hs, filter_app.
      rewrite (filter_cons_True _ (k, e)) by (simpl; lia).
      by rewrite filter_nil, <- app_assoc.
Qed.

(** X13 (cleanupOldEpisodes).  On an episode map with distinct keys, the
    cleanup removes exactly the episodes that ended before the cutoff
    [now - windowMs]; the others stay, in their order. *)
Theorem cleanup_removes_expired now windowMs st :
  NoDup (episodes st).*1 ->
  episodes (cleanupOldEpisodes now windowMs st)
  = filter (fun ke => now - windowMs <= end_ ke.2) (episodes st).
Proof.
  intros Hnd. unfold cleanupOldEpisodes.
  by apply (cleanup_fold (now - windowMs) (episodes st) [] st).
Qed.

Lemma cleanup_removes_expired_witness :
  let st := assignAlerts empty_state [gap1; gap3] 120000 in
  episodes (cleanupOldEpisodes (t0 + 1200000) (15 * 60000) st)
  = filter (fun ke => t0 + 1200000 - 15 * 60000 <= end_ ke.2) (episodes st).
Proof.
  intros st. apply cleanup_removes_expired.
  unfold st. vm_compute. apply NoDup_singleton.
Defined.

(** X14 (getEpisodesInWindow).  The window query returns the stored episodes
    whose end is not before [now - windowMs], each exactly once, ordered by
    start time. *)
Theorem window_episodes_live_sorted now windowMs st :
  StronglySorted (fun a b => start a <= start b) (getEpisodesInWindow now windowMs st)
  /\ getEpisodesInWindow now windowMs st
     ≡ₚ filter (fun e => now - windowMs <= end_ e) (OMap.values (episodes st)).
Proof.
  unfold getEpisodesInWindow. split; [apply (sort_by_sorted start)|].
  rewrite (sort_by_perm start).
  induction (OMap.values (episodes st)) as [|e l IH]; simpl; [done|].
  destruct (Z.leb_spec (now - windowMs) (end_ e)) as [H|H].
  - rewrite filter_cons_True by done. by f_equiv.
  - rewrite filter_cons_False by lia. done.
Qed.

End ClusterProps.

Module IndexProps.
Import Cluster Samples Invariants.

Lemma updateEpisode_entity (e : Episode) (a : Alert) gapMs :
  ep_entity_key (updateEpisode e a gapMs).1 = ep_entity_key e.
Proof. unfold updateEpisode. by destruct (gapMs <? ts a - end_ e). Qed.

Lemma omap_delete_NoDup {V} (m : list (string * V)) k :
  NoDup m.*1 -> NoDup (OMap.delete m k).*1.
Proof.
  intros H. eapply sublist_NoDup; [exact H|].
  apply DedupFacts.sublist_fmap, omap_delete_sublist.
Qed.

Lemma assignAlert_index st a gapMs : index_ok st -> index_ok (assignAlert st a gapMs).
Proof.
  intros (Hnd & Hndi & HA & HB). unfold assignAlert, getOrCreateEpisode.
  set (key := generateEpisodeKey a).
  destruct (OMap.get (episodes st) key) as [e|] eqn:Hget.
  - pose proof (updateEpisode_entity e a gapMs) as Hent.
    destruct (updateEpisode e a gapMs) as [e' b]. unfold index_ok. simpl in *.
    split; [by apply omap_set_NoDup|]. split; [done|]. split.
    + intros k x. rewrite omap_get_set. destruct (decide (key = k)) as [<-|Hne].
      * intros [= <-]. rewrite Hent. by apply HA.
      * apply HA.
    + intros ent keys Hk. destruct (HB ent keys Hk) as (Hne & Hndk & Hmem).
      split; [done|]. split; [done|]. intros k Hin.
      destruct (Hmem k Hin) as (x & Hx & Hxe). rewrite omap_get_set.
      destruct (decide (key = k)) as [<-|Hnk]; [|by exists x].
      exists e'. split; [done|]. rewrite Hent. congruence.
  - set (new := {| ep_entity_key := entityKeyOf a; ep_fingerprint := alertFingerprint a;
                   vendorMix := [source a]; start := ts a; end_ := ts a; count := 1;
                   ids := [vendor_event_id a]; alerts := [a]; ep_severity := severity a |}).
    pose proof (updateEpisode_entity new a gapMs) as Hent.
    destruct (updateEpisode new a gapMs) as [e' b]. unfold index_ok. simpl in *.
    set (old := default [] (OMap.get (entityEpisodes st) (entityKeyOf a))).
    assert (Hold : forall k, k ∈ old ->
              exists x, OMap.get (episodes st) k = Some x /\ ep_entity_key x = entityKeyOf a).
    { unfold old. intros k Hk.
      destruct (OMap.get (entityEpisodes st) (entityKeyOf a)) as [ks|] eqn:Hks; simpl in Hk.
      - by apply (HB _ _ Hks).
      - by apply elem_of_nil in Hk. }
    assert (Hfresh : key ∉ old).
    { intros Hin. destruct (Hold _ Hin) as (x & Hx & _). congruence. }
    split; [by do 2 apply omap_set_NoDup|]. split; [by apply omap_set_NoDup|]. split.
    + intros k x. rewrite !omap_get_set.
      destruct (decide (key = k)) as [<-|Hne].
      * intros [= <-]. rewrite Hent. simpl. rewrite decide_True by done.
        eexists. split; [done|]. apply elem_of_app. right. by left.
      * intros Hx. destruct (HA _ _ Hx) as (keys & Hkeys & Hin).
        destruct (decide (entityKeyOf a = ep_entity_key x)) as [Heq|Hneq].
        -- eexists. split; [done|]. apply elem_of_app. left.
           unfold old. rewrite Heq, Hkeys. done.
        -- by exists keys.
    + intros ent keys. rewrite omap_get_set.
      destruct (decide (entityKeyOf a = ent)) as [<-|Hneq].
      * intros [= <-]. split; [by destruct old|]. split.
        { apply NoDup_app. split; [|split; [|apply NoDup_singleton]].
          - unfold old. destruct (OMap.get (entityEpisodes st) (entityKeyOf a)) as [ks|] eqn:Hks;
              simpl; [by apply (HB _ _ Hks)|constructor].
          - intros k Hk Hk'. apply list_elem_of_singleton in Hk' as ->. done. }
        intros k Hk. rewrite !omap_get_set. apply elem_of_app in Hk as [Hk|Hk].
        -- destruct (Hold _ Hk) as (x & Hx & Hxe).
           rewrite !decide_False by (intros E; apply Hfresh; by rewrite E). by exists x.
        -- apply list_elem_of_singleton in Hk as ->. rewrite decide_True by done.
           exists e'. split; [done|]. by rewrite Hent.
      * intros Hk. destruct (HB ent keys Hk) as (Hne & Hndk & Hmem).
        split; [done|]. split; [done|]. intros k Hin.
        destruct (Hmem k Hin) as (x & Hx & Hxe). rewrite !omap_get_set.
        rewrite !decide_False by (intros E; rewrite <- E in Hx; congruence). by exists x.
Qed.

Lemma remove_first (keys : list string) (k : string) :
  k ∈ keys -> NoDup keys ->
  exists i, list_find (fun y => y = k) keys = Some (i, k)
    /\ NoDup (take i keys ++ drop (S i) keys)
    /\ forall k', k' ∈ (take i keys ++ drop (S i) keys)%list <-> k' ∈ keys /\ k' <> k.
Proof.
  intros Hin Hnd.
  destruct (list_find_elem_of (fun y => y = k) keys k Hin eq_refl) as [[i y] Hf].
  pose proof Hf as Hf'. apply list_find_Some in Hf' as (Hi & -> & _).
  exists i. split; [done|].
  pose proof (take_drop_middle keys i k Hi) as Hmid.
  rewrite <- Hmid in Hnd. apply NoDup_app in Hnd as (Hnd1 & Hdisj & Hnd2).
  apply NoDup_cons in Hnd2 as [Hk2 Hnd2].
  split.
  - apply NoDup_app. split; [done|]. split; [|done].
    intros x Hx Hx'. apply (Hdisj x Hx). by right.
  - intros k'. rewrite <- Hmid at 3. rewrite !elem_of_app, elem_of_cons. split.
    + intros [H|H].
      * split; [by left|]. intros ->. apply (Hdisj k H). by left.
      * split; [right; by right|]. by intros ->.
    + intros [[H|[H|H]] Hne]; [by left|done|by right].
Qed.

Lemma cleanup_step_index st k e :
  index_ok st -> OMap.get (episodes st) k = Some e ->
  index_ok {| episodes := OMap.delete (episodes st) k;
              entityEpisodes := unindex (entityEpisodes st) (ep_entity_key e) k |}.
Proof.
  intros (Hnd & Hndi & HA & HB) Hget.
  destruct (HA _ _ Hget) as (keys & Hkeys & Hin).
  destruct (HB _ _ Hkeys) as (Hne & Hndk & Hmem).
  destruct (remove_first keys k Hin Hndk) as (i & Hfind & Hnd' & Hiff).
  unfold unindex. rewrite Hkeys, Hfind.
  set (keys' := (take i keys ++ drop (S i) keys)%list) in *.
  assert (Hidx : forall ent',
            OMap.get (match keys' with
                      | [] => OMap.delete (entityEpisodes st) (ep_entity_key e)
                      | _ :: _ => OMap.set (entityEpisodes st) (ep_entity_key e) keys'
                      end) ent'
            = if decide (ep_entity_key e = ent')
              then (match keys' with [] => None | _ => Some keys' end)
              else OMap.get (entityEpisodes st) ent').
  { intros ent'. destruct keys' as [|k0 ks].
    - by rewrite omap_get_delete.
    - by rewrite omap_get_set. }
  unfold index_ok. simpl. split; [by apply omap_delete_NoDup|]. split.
  { destruct keys'; [by apply omap_delete_NoDup|by apply omap_set_NoDup]. }
  split.
  - intros k' x. rewrite omap_get_delete by done.
    destruct (decide (k = k')) as [|Hkk]; [done|]. intros Hx.
    destruct (HA _ _ Hx) as (ks & Hks & Hin'). rewrite Hidx.
    destruct (decide (ep_entity_key e = ep_entity_key x)) as [Heq|Hneq]; [|by exists ks].
    rewrite <- Heq, Hkeys in Hks. injection Hks as <-.
    assert (Hk' : k' ∈ keys') by (apply Hiff; split; [done|congruence]).
    destruct keys' as [|k0 ks']; [by apply elem_of_nil in Hk'|]. by eexists.
  - intros ent' ks. rewrite Hidx.
    destruct (decide (ep_entity_key e = ent')) as [<-|Hneq].
    + destruct keys' as [|k0 ks'] eqn:Hks'; [done|]. intros [= <-].
      split; [done|]. split; [done|]. intros k' Hk'.
      apply Hiff in Hk' as [Hk' Hkne].
      destruct (Hmem _ Hk') as (x & Hx & Hxe). exists x.
      rewrite omap_get_delete by done. by rewrite decide_False by congruence.
    + intros Hks. destruct (HB _ _ Hks) as (Hne' & Hnd'' & Hmem').
      split; [done|]. split; [done|]. intros k' Hk'.
      destruct (Hmem' _ Hk') as (x & Hx & Hxe). exists x.
      rewrite omap_get_delete by done.
      rewrite decide_False; [done|]. intros <-. congruence.
Qed.

Lemma cleanup_fold_index cutoff (todo : list (string * Episode)) :
  forall (done_ : list (string * Episode)) s,
  NoDup ((done_ ++ todo)%list).*1 ->
  episodes s = (filter (fun ke => cutoff <= end_ ke.2) done_ ++ todo)%list ->
  index_ok s ->
  index_ok (fold_left
     (fun s '(key, episode) =>
        if end_ episode <? cutoff
        then {| episodes := OMap.delete (episodes s) key;
                entityEpisodes := unindex (entityEpisodes s) (ep_entity_key episode) key |}
        else s) todo s).
Proof.
  induction todo as [|[k e] todo IH]; intros done_ s Hnd Hs Hok; simpl; [done|].
  replace (done_ ++ (k, e) :: todo)%list with ((done_ ++ [(k, e)]) ++ todo)%list
    in * by (by rewrite <- app_assoc).
  destruct (Z.ltb_spec (end_ e) cutoff) as [Hexp|Hlive].
  - apply (IH (done_ ++ [(k, e)])%list); [done| |].
    + simpl. rewrite Hs, filter_app.
      rewrite (filter_cons_False _ (k, e)) by (simpl; lia).
      rewrite filter_nil, app_nil_r. apply omap_delete_app.
      rewrite !fmap_app in Hnd. apply NoDup_app in Hnd as [Hnd _].
      apply NoDup_app in Hnd as (_ & Hdisj & _).
      intros Hin. apply (Hdisj k); [|by left].
      apply list_elem_of_fmap in Hin as ([k' e'] & -> & Hin).
      apply list_elem_of_filter in Hin as [_ Hin].
      apply list_elem_of_fmap. by exists (k', e').
    + apply cleanup_step_index; [done|].
      apply omap_get_elem_of; [apply Hok|].
      rewrite Hs. apply elem_of_app. right. by left.
  - apply (IH (done_ ++ [(k, e)])%list); [done| |done].
    rewrite Hs, filter_app. rewrite (filter_cons_True _ (k, e)) by (simpl; lia).
    by rewrite filter_nil, <- app_assoc.
Qed.

(** X15 (getOrCreateEpisode, cleanupOldEpisodes).  A tick of the cluster
    worker keeps the entity index in step with the episode map: every stored
    episode is listed under its entity key, every index list is non-empty
    and duplicate-free, and every listed key is the key of a stored episode
    of that entity; the cleanup leaves no dangling key and no empty list
    behind. *)
Theorem entity_index_consistent st batch gapMs windowMs nowCleanup nowWindow :
  index_ok st -> index_ok (onmessage st batch gapMs windowMs nowCleanup nowWindow).1.
Proof.
  intros Hst. unfold onmessage. simpl.
  assert (H1 : index_ok (assignAlerts st (applyBurstClustering batch gapMs) gapMs)).
  { unfold assignAlerts. revert st Hst.
    induction (applyBurstClustering batch gapMs) as [|a l IH]; intros st Hst; simpl; [done|].
    apply IH. by apply assignAlert_index. }
  unfold cleanupOldEpisodes.
  apply (cleanup_fold_index _ _ []); [apply H1|done|done].
Qed.

Lemma entity_index_consistent_witness :
  index_ok (onmessage empty_state [gap1; ordB; gap3] 120000 (15 * 60000)
              (t0 + 1000000) (t0 + 1000100)).1.
Proof.
  apply entity_index_consistent.
  split; [constructor|]. split; [constructor|]. split; intros *; done.
Defined.

End IndexProps.

(** * The score worker: similarity, grouping and windows *)

Module ScoreProps.
Import Score Samples.

Lemma inter_size_le (a b : gset string) :
  (size (filter (fun x => x ∈ b) a : gset string) <= size a)%nat
  /\ (size (filter (fun x => x ∈ b) a : gset string) <= size b)%nat.
Proof.
  split; apply subseteq_size; intros x Hx; apply elem_of_filter in Hx; tauto.
Qed.

(** X16 (jaccard).  The Jaccard similarity of two sets lies between 0 and 1,
    and it is 1 exactly when the two sets are equal (two empty sets
    included). *)
Theorem jaccard_range (a b : gset string) :
  (0 <= jaccard a b)%Q /\ (jaccard a b <= 1)%Q
  /\ ((jaccard a b == 1)%Q <-> a = b).
Proof.
  unfold jaccard.
  destruct (inter_size_le a b) as [Hia Hib].
  set (i := size (filter (fun x => x ∈ b) a : gset string)) in *.
  destruct (decide (size a = 0%nat /\ size b = 0%nat)) as [[Ha Hb]|Hne0].
  { split; [done|]. split; [done|]. split; [intros _|done].
    apply size_empty_iff in Ha, Hb. apply leibniz_equiv. by rewrite Ha, Hb. }
  destruct (decide (size a = 0%nat \/ size b = 0%nat)) as [H0|Hpos].
  { split; [done|]. split; [done|]. split; [done|]. intros ->. exfalso. tauto. }
  assert (Hu : 0 < Z.of_nat (size a) + Z.of_nat (size b) - Z.of_nat i) by lia.
  set (u := Z.of_nat (size a) + Z.of_nat (size b) - Z.of_nat i) in *.
  assert (Hiu : Z.of_nat i <= u) by (unfold u; lia).
  assert (HuQ : (0 < inject_Z u)%Q) by (change 0%Q with (inject_Z 0); by rewrite <- Zlt_Qlt).
  split; [|split; [|split]].
  - apply Qle_shift_div_l; [done|]. rewrite Qmult_0_l.
    change 0%Q with (inject_Z 0). rewrite <- Zle_Qle. lia.
  - apply Qle_shift_div_r; [done|]. rewrite Qmult_1_l. by rewrite <- Zle_Qle.
  - intros Heq.
    assert (Hi : Z.of_nat i = u).
    { apply inject_Z_injective.
      assert (Hnz : ~ (inject_Z u == 0)%Q)
        by (intros E; rewrite E in HuQ; by apply Qlt_irrefl in HuQ).
      rewrite <- (Qmult_div_r (inject_Z (Z.of_nat i)) (inject_Z u)) by exact Hnz.
      rewrite Heq. apply Qmult_1_r. }
    assert (Hab : (filter (fun x => x ∈ b) a : gset string) = a).
    { apply set_subseteq_size_eq; [intros x Hx; apply elem_of_filter in Hx; tauto|].
      fold i. unfold u in Hi. lia. }
    apply set_subseteq_size_eq.
    + intros x Hx. rewrite <- Hab in Hx. apply elem_of_filter in Hx. tauto.
    + unfold u in Hi. lia.
  - intros <-.
    assert (Hi : i = size a).
    { unfold i. f_equal. apply leibniz_equiv. intros x. rewrite elem_of_filter. tauto. }
    unfold u. rewrite Hi, Z.add_simpl_r.
    apply Qmult_inv_r. intros E. change 0%Q with (inject_Z 0) in E.
    unfold Qeq in E. simpl in E.
    assert (size a <> 0%nat) by tauto. lia.
Qed.


(** X17 (joinable).  The pairwise join test is symmetric, never joins an
    episode with itself, and joins only episodes whose time ranges
    overlap. *)
Theorem joinable_symmetric_overlap (o1 o2 : Obj) :
  joinable o1 o2 = joinable o2 o1
  /\ joinable o1 o1 = false
  /\ (joinable o1 o2 = true ->
        o1.1 <> o2.1 /\ start o2.2 <= end_ o1.2 /\ start o1.2 <= end_ o2.2).
Proof.
  split; [apply JoinFacts.joinable_sym|]. split.
  - unfold joinable. by rewrite decide_True.
  - unfold joinable. destruct (decide (o1.1 = o2.1)); [done|].
    destruct (Z.ltb_spec (end_ o1.2) (start o2.2)); [done|].
    destruct (Z.ltb_spec (end_ o2.2) (start o1.2)); [done|].
    intros _. repeat split; [done|lia|lia].
Qed.

Lemma bucketize_perm fuel (l : list Obj) : forall P buckets bs,
  bucketize fuel P l buckets = Some bs ->
  concat (OMap.values bs) ≡ₚ (concat (OMap.values buckets) ++ l)%list.
Proof.
  induction l as [|e l IH]; intros P buckets bs; simpl.
  - intros [= <-]. by rewrite app_nil_r.
  - destruct (find fuel P e.1) as [[P' root]|]; simpl; [|done].
    intros H. apply IH in H. rewrite H, omap_push_perm. by rewrite <- app_assoc.
Qed.

Lemma concat_filter_nonempty {A} (L : list (list A)) :
  concat (List.filter (fun g => negb (bool_decide (g = []))) L) = concat L.
Proof.
  induction L as [|g L IH]; simpl; [done|].
  destruct g as [|x g]; simpl; [exact IH|]. by rewrite IH.
Qed.

Lemma groupObjs_perm (objs : list Obj) groups :
  groupObjs objs = Some groups ->
  concat groups ≡ₚ objs /\ Forall (fun g => g <> []) groups.
Proof.
  unfold groupObjs.
  destruct (joinAll _ _ objs) as [P|]; simpl; [|done].
  destruct (bucketize _ P objs []) as [bs|] eqn:Hb; simpl; [|done].
  intros [= <-]. split.
  - rewrite concat_filter_nonempty. by apply bucketize_perm in Hb.
  - apply Forall_forall. intros g Hg. apply list_elem_of_In, filter_In in Hg as [_ Hg].
    apply negb_true_iff, bool_decide_eq_false in Hg. exact Hg.
Qed.

Lemma imap_snd {A} (l : list A) : forall n,
  map snd (imap (fun i e => ((n + i)%nat, e)) l) = l.
Proof.
  induction l as [|x l IH]; intros n; simpl; [done|]. f_equal.
  rewrite <- (IH (S n)) at 2. f_equal. apply imap_ext. intros i y _. simpl. f_equal. lia.
Qed.

Lemma sortedObjs_perm (eps : list Episode) : map snd (sortedObjs eps) ≡ₚ eps.
Proof.
  unfold sortedObjs.
  rewrite (sort_by_perm (fun o : nat * Episode => start o.2)).
  pose proof (imap_snd eps 0) as H. simpl in H. by rewrite H.
Qed.

Lemma map_concat {A B} (f : A -> B) (L : list (list A)) :
  map f (concat L) = concat (map (map f) L).
Proof. induction L as [|g L IH]; simpl; [done|]. by rewrite map_app, IH. Qed.

(** X18 (buildSituations).  Situation building always returns, and it
    partitions the episodes it is given: every episode lands in exactly one
    situation, no situation is empty, and no episodes means no situations. *)
Theorem situations_partition_episodes (eps : list Episode) (al : list Alert) :
  buildSituations [] al = Some []
  /\ exists sits, buildSituations eps al = Some sits
       /\ concat (map sit_episodes sits) ≡ₚ eps
       /\ Forall (fun sit => sit_episodes sit <> []) sits.
Proof.
  split; [done|].
  destruct (JoinFacts.buildSituations_returns eps al) as [sits Hs].
  exists sits. split; [done|].
  unfold buildSituations in Hs. destruct eps as [|e eps].
  { injection Hs as <-. split; [done|constructor]. }
  destruct (groupObjs (sortedObjs (e :: eps))) as [groups|] eqn:Hg; simpl in Hs; [|done].
  injection Hs as <-. apply groupObjs_perm in Hg as [Hperm Hne]. split.
  - assert (Heq : map sit_episodes (map (mkSituationOf al) groups) = map (map snd) groups)
      by (rewrite map_map; by apply map_ext).
    rewrite Heq, <- map_concat, Hperm. apply sortedObjs_perm.
  - apply Forall_forall. intros sit Hsit.
    apply list_elem_of_In, in_map_iff in Hsit as (g & <- & Hin). simpl.
    eapply Forall_forall in Hne; [|by apply list_elem_of_In].
    by destruct g.
Qed.


Lemma foldr_min_le (d : Z) (l : list Z) x : x ∈ l -> foldr Z.min d l <= x.
Proof.
  induction l as [|y l IH]; simpl; intros Hx; [by apply elem_of_nil in Hx|].
  apply elem_of_cons in Hx as [->|Hx]; [lia|]. specialize (IH Hx). lia.
Qed.

Lemma foldr_max_ge (d : Z) (l : list Z) x : x ∈ l -> x <= foldr Z.max d l.
Proof.
  induction l as [|y l IH]; simpl; intros Hx; [by apply elem_of_nil in Hx|].
  apply elem_of_cons in Hx as [->|Hx]; [lia|]. specialize (IH Hx). lia.
Qed.

Lemma foldr_min_in (d : Z) (l : list Z) : foldr Z.min d l = d \/ foldr Z.min d l ∈ l.
Proof.
  induction l as [|y l IH]; simpl; [by left|].
  destruct (Z.min_spec y (foldr Z.min d l)) as [[_ ->]|[_ ->]].
  - right. by left.
  - destruct IH as [?|?]; [by left|right; by right].
Qed.

Lemma foldr_max_in (d : Z) (l : list Z) : foldr Z.max d l = d \/ foldr Z.max d l ∈ l.
Proof.
  induction l as [|y l IH]; simpl; [by left|].
  destruct (Z.max_spec y (foldr Z.max d l)) as [[_ ->]|[_ ->]].
  - destruct IH as [?|?]; [by left|right; by right].
  - right. by left.
Qed.

Lemma minimum_in (l : list Z) : l <> [] -> minimum l ∈ l.
Proof.
  unfold minimum. destruct l as [|x l]; [done|]. intros _.
  destruct (foldr_min_in (default 0 (head (x :: l))) (x :: l)) as [->|H]; [by left|done].
Qed.

Lemma maximum_in (l : list Z) : l <> [] -> maximum l ∈ l.
Proof.
  unfold maximum. destruct l as [|x l]; [done|]. intros _.
  destruct (foldr_max_in (default 0 (head (x :: l))) (x :: l)) as [->|H]; [by left|done].
Qed.

Lemma size_list_to_set_le (l : list string) :
  (size (list_to_set l : gset string) <= length l)%nat.
Proof.
  induction l as [|x l IH].
  - by rewrite list_to_set_nil, size_empty.
  - rewrite list_to_set_cons, size_union_alt, size_singleton. cbn [length].
    assert (size ((list_to_set l : gset string) ∖ {[x]}) <= size (list_to_set l : gset string))%nat
      by (apply subseteq_size; set_solver).
    lia.
Qed.

Lemma size_list_to_set_pos (l : list string) :
  l <> [] -> (1 <= size (list_to_set l : gset string))%nat.
Proof.
  destruct l as [|x l]; [done|]. intros _.
  assert (size (list_to_set (x :: l) : gset string) <> 0%nat); [|lia].
  apply size_non_empty_iff. intros H.
  assert (x ∈ (list_to_set (x :: l) : gset string)) by set_solver.
  rewrite H in H0. set_solver.
Qed.

Lemma mkSituationOf_shape (al : list Alert) (g : list Obj) :
  g <> [] ->
  let sit := mkSituationOf al g in
  (forall e, e ∈ sit_episodes sit ->
     window_start sit <= start e /\ end_ e <= window_end sit)
  /\ (exists e1 e2, e1 ∈ sit_episodes sit /\ e2 ∈ sit_episodes sit
        /\ window_start sit = start e1 /\ window_end sit = end_ e2)
  /\ related_alerts sit `sublist_of` al
  /\ (length (related_alerts sit) <= 200)%nat
  /\ (forall a, a ∈ related_alerts sit -> window_start sit <= ts a <= window_end sit)
  /\ 1 <= blast_entities sit <= Z.of_nat (length (sit_episodes sit))
  /\ 0 <= blast_services sit.
Proof.
  intros Hg. cbv zeta. unfold mkSituationOf.
  cbn [sit_episodes window_start window_end related_alerts blast_entities blast_services].
  assert (Heps : map snd g <> []) by (by destruct g).
  split; [|split; [|split; [|split; [|split; [|split]]]]].
  - intros e He. split.
    + apply foldr_min_le. apply list_elem_of_In, in_map, list_elem_of_In, He.
    + apply foldr_max_ge. apply list_elem_of_In, in_map, list_elem_of_In, He.
  - assert (H1 : minimum (map start (map snd g)) ∈ map start (map snd g))
      by (apply minimum_in; by destruct g).
    assert (H2 : maximum (map end_ (map snd g)) ∈ map end_ (map snd g))
      by (apply maximum_in; by destruct g).
    apply list_elem_of_In, in_map_iff in H1 as (e1 & H1 & Hin1).
    apply list_elem_of_In, in_map_iff in H2 as (e2 & H2 & Hin2).
    exists e1, e2. rewrite !list_elem_of_In. done.
  - etrans; [apply sublist_take|].
    induction al as [|a al IH]; simpl; [done|].
    destruct (_ && _); by constructor.
  - rewrite length_take. lia.
  - intros a Ha. apply (sublist_subseteq _ _ (sublist_take _ _)) in Ha.
    apply list_elem_of_In, filter_In in Ha as [_ Ha].
    apply andb_true_iff in Ha as [H1 H2]. apply Z.leb_le in H1, H2. done.
  - pose proof (size_list_to_set_le (map ep_entity_key (map snd g))) as Hle.
    pose proof (size_list_to_set_pos (map ep_entity_key (map snd g))) as Hpos.
    rewrite !length_map in Hle. rewrite length_map.
    assert (map ep_entity_key (map snd g) <> []) by (by destruct g).
    specialize (Hpos H). lia.
  - lia.
Qed.

(** X19 (buildSituations).  In every situation that is built, the window
    runs from the earliest start to the latest end of its episodes and so
    contains each of them; the related alerts are a subsequence of the
    alerts passed in, at most 200, all with timestamps inside the window;
    the entity count of the blast radius is at least 1 and at most the
    number of episodes. *)
Theorem situation_window_covers (eps : list Episode) (al : list Alert) :
  exists sits, buildSituations eps al = Some sits
    /\ Forall (fun sit =>
         (forall e, e ∈ sit_episodes sit ->
            window_start sit <= start e /\ end_ e <= window_end sit)
         /\ (exists e1 e2, e1 ∈ sit_episodes sit /\ e2 ∈ sit_episodes sit
               /\ window_start sit = start e1 /\ window_end sit = end_ e2)
         /\ related_alerts sit `sublist_of` al
         /\ (length (related_alerts sit) <= 200)%nat
         /\ (forall a, a ∈ related_alerts sit ->
               window_start sit <= ts a <= window_end sit)
         /\ 1 <= blast_entities sit <= Z.of_nat (length (sit_episodes sit))
         /\ 0 <= blast_services sit) sits.
Proof.
  destruct (JoinFacts.buildSituations_returns eps al) as [sits Hs].
  exists sits. split; [done|].
  unfold buildSituations in Hs. destruct eps as [|e eps].
  { injection Hs as <-. constructor. }
  destruct (groupObjs (sortedObjs (e :: eps))) as [groups|] eqn:Hg; simpl in Hs; [|done].
  injection Hs as <-. apply groupObjs_perm in Hg as [_ Hne].
  apply Forall_forall. intros sit Hsit.
  apply list_elem_of_In, in_map_iff in Hsit as (g & <- & Hin).
  apply mkSituationOf_shape.
  eapply Forall_forall in Hne; [exact Hne|by apply list_elem_of_In].
Qed.

End ScoreProps.

(** * The score worker: bounds on the lead-lag estimate and the score *)

Module LagProps.
Import Score Samples Specs Invariants.

Lemma toBins_pos (tss : list Z) : Forall (fun bc => 1 <= bc.2) (toBins tss).
Proof.
  unfold toBins.
  assert (H : forall (m : list (Z * Z)), Forall (fun bc => 1 <= bc.2) m ->
            Forall (fun bc => 1 <= bc.2)
              (fold_left (fun bins t => OMap.set bins (t / 1000)
                            (default 0 (OMap.get bins (t / 1000)) + 1)) tss m)).
  { induction tss as [|t tss IH]; intros m Hm; simpl; [done|].
    apply IH. apply Forall_forall. intros [b c] Hin.
    apply omap_set_elem in Hin as [[= -> ->]|Hin].
    - simpl. destruct (OMap.get m (t / 1000)) as [c0|] eqn:Hc; simpl; [|lia].
      apply omap_get_Some_in in Hc. eapply Forall_forall in Hm; [|exact Hc].
      simpl in Hm. lia.
    - eapply Forall_forall in Hm; [|exact Hin]. done. }
  apply H. constructor.
Qed.

Lemma bCount_nonneg (B : list (Z * Z)) (k : Z) :
  Forall (fun bc => 1 <= bc.2) B -> 0 <= default 0 (OMap.get B k).
Proof.
  intros HB. destruct (OMap.get B k) as [c|] eqn:Hc; simpl; [|lia].
  apply omap_get_Some_in in Hc. eapply Forall_forall in HB; [|exact Hc]. simpl in HB. lia.
Qed.

(** One step of the Cauchy-Schwarz inequality on the running sums. *)
Lemma cauchy_step (n da db a b : Z) :
  0 <= n -> 0 <= da -> 0 <= db -> 0 <= a -> 0 <= b ->
  n * n <= da * db ->
  (n + a * b) * (n + a * b) <= (da + a * a) * (db + b * b).
Proof.
  intros Hn Hda Hdb Ha Hb Hcs.
  assert (H1 : (2 * n * a * b) * (2 * n * a * b)
               <= (da * b * b + a * a * db) * (da * b * b + a * a * db)).
  { assert (H2 : 0 <= (da * b * b - a * a * db) * (da * b * b - a * a * db))
      by apply Z.square_nonneg.
    assert (H3 : n * n * (a * a * (b * b)) <= da * db * (a * a * (b * b))).
    { apply Z.mul_le_mono_nonneg_r; [|done]. apply Z.mul_nonneg_nonneg; nia. }
    nia. }
  assert (H4 : 2 * n * a * b <= da * b * b + a * a * db).
  { apply Z.square_le_simpl_nonneg; [|exact H1].
    apply Z.add_nonneg_nonneg; repeat apply Z.mul_nonneg_nonneg; done. }
  nia.
Qed.

Lemma lagSums_bounds (A B : list (Z * Z)) (lag : Z) :
  Forall (fun bc => 1 <= bc.2) A -> Forall (fun bc => 1 <= bc.2) B ->
  let '(n, da, db) := lagSums A B lag in
  0 <= n /\ 0 <= da /\ 0 <= db /\ n * n <= da * db.
Proof.
  intros HA HB. unfold lagSums.
  assert (H : forall n da db,
            0 <= n /\ 0 <= da /\ 0 <= db /\ n * n <= da * db ->
            let '(n', da', db') :=
              fold_left
                (fun '(numerator, denomA, denomB) '(bin, aCount) =>
                   let bCount := default 0 (OMap.get B (bin + lag)) in
                   (numerator + aCount * bCount, denomA + aCount * aCount,
                    denomB + bCount * bCount)) A (n, da, db) in
            0 <= n' /\ 0 <= da' /\ 0 <= db' /\ n' * n' <= da' * db').
  { induction HA as [|[bin a] A Ha HA IH]; intros n da db Hacc; simpl; [done|].
    apply IH. destruct Hacc as (Hn & Hda & Hdb & Hcs). simpl in Ha.
    pose proof (bCount_nonneg B (bin + lag) HB) as Hb.
    split; [nia|]. split; [nia|]. split; [nia|].
    apply cauchy_step; lia. }
  apply H. lia.
Qed.

Lemma lagStep_ok (A B : list (Z * Z)) (bound : Z) (best : LagResult) (lag : Z) :
  Forall (fun bc => 1 <= bc.2) A -> Forall (fun bc => 1 <= bc.2) B ->
  0 <= lag -> lag * 1000 <= bound ->
  lag_ok bound best -> lag_ok bound (lagStep A B best lag).
Proof.
  intros HA HB Hlag Hb Hbest. unfold lagStep.
  pose proof (lagSums_bounds A B lag HA HB) as Hs.
  destruct (lagSums A B lag) as [[n da] db].
  destruct Hs as (Hn & Hda & Hdb & Hcs).
  destruct (Z.ltb_spec 0 da); [|done].
  destruct (Z.ltb_spec 0 db); [|done]. simpl.
  destruct (score_gtb _ best); [|done].
  unfold lag_ok; simpl. split; [lia|]. split; [by exists lag|]. split; [done|].
  split; [nia|done].
Qed.

Lemma corrLeadLag_ok (aTs bTs : list Z) (maxLeadMs : Z) :
  lag_ok (Z.max 0 maxLeadMs) (corrLeadLag aTs bTs maxLeadMs).
Proof.
  assert (H0 : lag_ok (Z.max 0 maxLeadMs) noLag).
  { unfold lag_ok, noLag; simpl. split; [lia|]. split; [by exists 0|]. lia. }
  unfold corrLeadLag. destruct aTs as [|a aTs]; [done|]. destruct bTs as [|b bTs]; [done|].
  set (A := toBins (a :: aTs)). set (B := toBins (b :: bTs)).
  assert (Hl : Forall (fun lag => 0 <= lag /\ lag * 1000 <= Z.max 0 maxLeadMs)
                 (map Z.of_nat (seq 0 (Z.to_nat (maxLeadMs / 1000 + 1))))).
  { apply Forall_forall. intros lag Hin.
    apply list_elem_of_In, in_map_iff in Hin as (i & <- & Hi). apply in_seq in Hi.
    split; [lia|].
    assert (Z.of_nat i <= maxLeadMs / 1000) by lia.
    pose proof (Z.mul_div_le maxLeadMs 1000 ltac:(lia)). lia. }
  revert H0. generalize noLag.
  induction Hl as [|lag lags [Hlag Hb] _ IH]; intros best Hbest; simpl; [done|].
  apply IH. apply lagStep_ok; try done; apply toBins_pos.
Qed.

Lemma lagScore_range (bound : Z) (r : LagResult) :
  lag_ok bound r -> (0 <= lagScore r <= 1)%R.
Proof.
  intros (_ & _ & Hn & Hd & Hcs). unfold lagScore.
  apply IZR_le in Hn. apply IZR_lt in Hd. apply IZR_le in Hcs.
  rewrite mult_IZR in Hcs.
  set (n := IZR (lag_num r)) in *. set (d := IZR (lag_den2 r)) in *.
  pose proof (sqrt_lt_R0 d Hd) as Hs.
  assert (Hns : (n <= sqrt d)%R).
  { rewrite <- (sqrt_square n) by exact Hn. by apply sqrt_le_1_alt. }
  split.
  - apply Rmult_le_pos; [exact Hn|]. left. by apply Rinv_0_lt_compat.
  - apply (Rmult_le_reg_r (sqrt d)); [exact Hs|].
    unfold Rdiv. rewrite Rmult_assoc, Rinv_l by lra. lra.
Qed.

(** X20 (corrLeadLag).  The lag that the lead-lag estimate reports is a
    whole number of seconds, not negative and not above [maxLeadMs] (0 when
    [maxLeadMs] is negative), and its score lies between 0 and 1. *)
Theorem lead_lag_bounds (aTs bTs : list Z) (maxLeadMs : Z) :
  let r := corrLeadLag aTs bTs maxLeadMs in
  0 <= lagMs r <= Z.max 0 maxLeadMs
  /\ (1000 | lagMs r)
  /\ (0 <= lagScore r <= 1)%R.
Proof.
  cbv zeta. pose proof (corrLeadLag_ok aTs bTs maxLeadMs) as Hok.
  split; [apply Hok|]. split; [apply Hok|]. by eapply lagScore_range.
Qed.






Lemma toBins_NoDup (tss : list Z) : NoDup (toBins tss).*1.
Proof.
  unfold toBins.
  assert (H : forall (m : list (Z * Z)), NoDup m.*1 ->
            NoDup (fold_left (fun bins t => OMap.set bins (t / 1000)
                     (default 0 (OMap.get bins (t / 1000)) + 1)) tss m).*1).
  { induction tss as [|t tss IH]; intros m Hm; simpl; [done|].
    apply IH. by apply omap_set_NoDup. }
  apply H. constructor.
Qed.

Lemma toBins_nonempty (t : Z) (tss : list Z) : toBins (t :: tss) <> [].
Proof.
  unfold toBins. simpl.
  assert (H : forall (m : list (Z * Z)), m <> [] ->
            fold_left (fun bins t => OMap.set bins (t / 1000)
              (default 0 (OMap.get bins (t / 1000)) + 1)) tss m <> []).
  { induction tss as [|x tss IH]; intros m Hm; simpl; [done|].
    apply IH. destruct m as [|[k v] m]; [done|]. simpl. by destruct (decide (k = x / 1000)). }
  by apply H.
Qed.

Lemma lagSums_self (A : list (Z * Z)) :
  NoDup A.*1 -> Forall (fun bc => 1 <= bc.2) A ->
  exists S, lagSums A A 0 = (S, S, S) /\ Z.of_nat (length A) <= S.
Proof.
  intros Hnd Hpos. unfold lagSums.
  assert (H : forall (L : list (Z * Z)) n,
            (forall b c, (b, c) ∈ L -> OMap.get A (b + 0) = Some c /\ 1 <= c) ->
            exists S,
              fold_left
                (fun '(numerator, denomA, denomB) '(bin, aCount) =>
                   let bCount := default 0 (OMap.get A (bin + 0)) in
                   (numerator + aCount * bCount, denomA + aCount * aCount,
                    denomB + bCount * bCount)) L (n, n, n) = (S, S, S)
              /\ n + Z.of_nat (length L) <= S).
  { induction L as [|[b c] L IH]; intros n HL; simpl.
    - exists n. split; [done|lia].
    - destruct (HL b c ltac:(by left)) as [Hget Hc]. rewrite Hget. simpl.
      destruct (IH (n + c * c)) as (S & HS & Hle).
      { intros b' c' Hin. apply HL. by right. }
      exists S. split; [exact HS|]. nia. }
  destruct (H A 0) as (S & HS & Hle).
  - intros b c Hin. split.
    + rewrite Z.add_0_r. by apply omap_get_elem_of.
    + eapply Forall_forall in Hpos; [|exact Hin]. done.
  - exists S. split; [exact HS|lia].
Qed.

(** X22 (corrLeadLag).  A series of timestamps correlates perfectly with
    itself: for a non-empty series and a non-negative [maxLeadMs] the best
    lag is 0 and its score is 1. *)
Theorem self_correlation_is_one (aTs : list Z) (maxLeadMs : Z) :
  aTs <> [] -> 0 <= maxLeadMs ->
  lagMs (corrLeadLag aTs aTs maxLeadMs) = 0
  /\ lagScore (corrLeadLag aTs aTs maxLeadMs) = 1%R.
Proof.
  intros Hne HL. unfold corrLeadLag. destruct aTs as [|t tss]; [done|].
  set (A := toBins (t :: tss)).
  pose proof (toBins_pos (t :: tss)) as Hpos. fold A in Hpos.
  destruct (lagSums_self A (toBins_NoDup _) Hpos) as (S & HS & HSlen).
  assert (HS0 : 0 < S).
  { pose proof (toBins_nonempty t tss) as Hn. fold A in Hn.
    destruct A; [done|]. simpl in HSlen. lia. }
  assert (Hlags : map Z.of_nat (seq 0 (Z.to_nat (maxLeadMs / 1000 + 1)))
                  = 0 :: map Z.of_nat (seq 1 (Z.to_nat (maxLeadMs / 1000)))).
  { pose proof (Z.div_pos maxLeadMs 1000 HL ltac:(lia)) as Hd.
    replace (Z.to_nat (maxLeadMs / 1000 + 1)) with (Datatypes.S (Z.to_nat (maxLeadMs / 1000)))
      by lia.
    reflexivity. }
  rewrite Hlags. cbn [fold_left].
  set (best := {| lagMs := 0; lag_num := S; lag_den2 := S * S |}).
  assert (H0 : lagStep A A noLag 0 = best).
  { unfold lagStep. rewrite HS.
    destruct (Z.ltb_spec 0 S) as [_|]; [|lia]. simpl.
    unfold score_gtb, noLag. simpl.
    destruct (Z.ltb_spec (0 * 0 * (S * S)) (S * S * 1)) as [_|Hc]; [done|nia]. }
  rewrite H0.
  assert (Hkeep : forall lags, fold_left (lagStep A A) lags best = best).
  { induction lags as [|lag lags IH]; simpl; [done|].
    assert (Hs : lagStep A A best lag = best).
    { unfold lagStep.
      pose proof (lagSums_bounds A A lag Hpos Hpos) as Hb.
      destruct (lagSums A A lag) as [[n da] db].
      destruct Hb as (Hn & Hda & Hdb & Hcs).
      destruct ((0 <? da) && (0 <? db)); [|done].
      unfold score_gtb, best. simpl.
      destruct (Z.ltb_spec (S * S * (da * db)) (n * n * (S * S))) as [Hc|_]; [|done].
      exfalso. nia. }
    by rewrite Hs. }
  rewrite Hkeep. split; [done|].
  unfold lagScore, best. simpl. rewrite mult_IZR.
  assert (HSr : (0 < IZR S)%R) by (by apply IZR_lt).
  rewrite sqrt_square by lra. field. lra.
Qed.

Lemma self_correlation_is_one_witness :
  lagMs (corrLeadLag lagEffect lagEffect 90000) = 0.
Proof. apply self_correlation_is_one; [done|lia]. Defined.

End LagProps.

(** * The score worker: graph distance and the depth limit *)

Module GraphProps.
Import Score Samples Specs.

(** A scan that does not meet [dst] appends entries one edge further. *)
Lemma scanNeighbors_appends (dst : string) (d : nat) (ns : list string) :
  forall queue seen queue' seen',
    scanNeighbors dst d ns queue seen = inr (queue', seen') ->
    exists added, queue' = (queue ++ added)%list /\ Forall (fun x => x.2 = S d) added.
Proof.
  induction ns as [|n ns IH]; intros queue seen queue' seen'; simpl.
  - intros [= <- <-]. exists []. by rewrite app_nil_r.
  - destruct (decide (n ∈ seen)); [apply IH|].
    destruct (decide (n = dst)); [done|].
    intros H. apply IH in H as (added & -> & Hall).
    exists ((n, S d) :: added). rewrite <- app_assoc. split; [done|].
    by constructor.
Qed.

(** Entries at the depth limit or beyond are skipped. *)
Lemma bfs_beyond_limit (adj : gmap string (list string)) (dst : string) (limit : nat)
    (fuel : nat) : forall queue seen,
  Forall (fun x : string * nat => (limit <= x.2)%nat) queue ->
  bfs fuel adj dst limit queue seen = Returns None.
Proof.
  induction fuel as [|fuel IH]; intros queue seen Hall; [done|].
  destruct queue as [|[current d] queue]; [done|]. cbn [bfs].
  apply Forall_cons in Hall as [Hd Hall]. simpl in Hd.
  destruct (Nat.leb_spec limit d); [|lia]. by apply IH.
Qed.

(** A run that finds [dst] never looks at the limit's upper part: it is the
    same run under every larger limit. *)
Lemma bfs_limit_mono (adj : gmap string (list string)) (dst : string)
    (limit limit' r : nat) (fuel : nat) :
  (limit <= limit')%nat ->
  forall queue seen,
    StronglySorted (fun x y : string * nat => (x.2 <= y.2)%nat) queue ->
    (forall c d, head queue = Some (c, d) -> Forall (fun x => (x.2 <= S d)%nat) queue) ->
    bfs fuel adj dst limit queue seen = Returns (Some r) ->
    bfs fuel adj dst limit' queue seen = Returns (Some r).
Proof.
  intros Hle. induction fuel as [|fuel IH]; intros queue seen Hsorted Hspan; [done|].
  destruct queue as [|[current d] queue]; [done|]. cbn [bfs].
  apply StronglySorted_inv in Hsorted as [Hsorted Hhead].
  specialize (Hspan current d eq_refl). apply Forall_cons in Hspan as [_ Hspan].
  destruct (Nat.leb_spec limit d) as [Hskip|Hexp].
  - rewrite bfs_beyond_limit; [done|].
    eapply Forall_impl; [exact Hhead|]. intros x Hx. simpl in Hx. lia.
  - destruct (Nat.leb_spec limit' d); [lia|].
    destruct (neighboursOf adj current) as [ns|]; [|done].
    destruct (scanNeighbors dst d ns queue seen) as [r'|[queue' seen']] eqn:Hscan; [done|].
    apply scanNeighbors_appends in Hscan as (added & -> & Hadded).
    apply IH.
    + apply StronglySorted_app. split; [|split; [done|]].
      * intros x y Hx Hy.
        eapply Forall_forall in Hspan; [|exact Hx].
        eapply Forall_forall in Hadded; [|exact Hy]. simpl in *. lia.
      * clear -Hadded. induction Hadded as [|x added Hx Hall IHa]; constructor; [done|].
        eapply Forall_impl; [exact Hall|]. intros y Hy. simpl in *. lia.
    + intros c d' Hc.
      assert (Hd' : (d <= d')%nat).
      { apply head_Some_elem_of, elem_of_app in Hc as [Hc|Hc].
        - eapply Forall_forall in Hhead; [|exact Hc]. done.
        - eapply Forall_forall in Hadded; [|exact Hc]. simpl in Hadded. lia. }
      apply Forall_app. split.
      * eapply Forall_impl; [exact Hspan|]. intros x Hx. simpl in Hx. lia.
      * eapply Forall_impl; [exact Hadded|]. intros x Hx. simpl in Hx. lia.
Qed.

(** X23 (shortestPathLen).  The depth limit only cuts results off: a
    distance found under some limit is found unchanged under every larger
    limit, it never exceeds the limit it was found under, and a distance of
    0 is reported exactly for equal endpoints. *)
Theorem path_length_stable_in_limit (adj : gmap string (list string))
    (src dst : string) (limit limit' r : nat) :
  shortestPathLen adj src dst limit = Returns (Some r) ->
  (limit <= limit')%nat ->
  shortestPathLen adj src dst limit' = Returns (Some r)
  /\ (r <= limit \/ src = dst)%nat
  /\ (r = 0%nat <-> src = dst).
Proof.
  intros Hr Hle.
  destruct (decide (src = dst)) as [->|Hne].
  - rewrite GraphFacts.shortestPathLen_same in Hr. injection Hr as <-.
    rewrite GraphFacts.shortestPathLen_same. split; [done|]. split; [by right|done].
  - destruct (hasProp adj src) eqn:Hs; cycle 1.
    { rewrite GraphFacts.shortestPathLen_missing in Hr; [done|done|by left]. }
    destruct (hasProp adj dst) eqn:Hd; cycle 1.
    { rewrite GraphFacts.shortestPathLen_missing in Hr; [done|done|by right]. }
    pose proof (GraphFacts.shortestPathLen_correct adj src dst limit Hne Hs Hd) as H1.
    rewrite Hr in H1. destruct H1 as (Hw & Hlim & Hmin).
    split; [|split; [by left|]].
    + unfold shortestPathLen in *. rewrite decide_False in * by done.
      rewrite Hs, Hd in *. cbn [negb orb] in *.
      eapply bfs_limit_mono; [exact Hle| | |exact Hr].
      * repeat constructor.
      * intros c d [= <- <-]. repeat constructor.
    + split; [|done]. intros ->. by inversion Hw.
Qed.

Lemma path_length_stable_in_limit_witness :
  shortestPathLen adjFull "a" "c" 4 = Returns (Some 2%nat).
Proof.
  apply (path_length_stable_in_limit adjFull "a" "c" 2 4 2).
  - vm_compute. reflexivity.
  - lia.
Defined.

End GraphProps.

(** * The score worker: suggested actions *)

Module ActionProps.
Import Score NextActions.

(** X24 (generateNextActions).  At most five actions are suggested, none
    twice.  The escalation action is among them exactly when the highest
    severity weight is at least 0.75 and at most four actions precede it:
    with five or more blast-radius and entity-type actions it is cut off,
    whatever the severity. *)
Theorem escalation_can_be_cut_off (cause : Episode) (situation : Situation) :
  let before :=
    (if 5 <? blast_entities situation then 1 else 0)
    + (if 3 <? blast_services situation then 1 else 0)
    + (if K8s.includes (ep_entity_key cause) "database" then 2 else 0)
    + (if K8s.includes (ep_entity_key cause) "api" then 2 else 0)
    + (if K8s.includes (ep_entity_key cause) "cache" then 2 else 0) in
  (length (generateNextActions cause situation) <= 5)%nat
  /\ NoDup (generateNextActions cause situation)
  /\ (escalation ∈ generateNextActions cause situation
      <-> Qle_bool (3 # 4) (maxSeverity situation) = true /\ before <= 4).
Proof.
  cbv zeta. unfold generateNextActions.
  destruct (5 <? blast_entities situation);
  destruct (3 <? blast_services situation);
  destruct (K8s.includes (ep_entity_key cause) "database");
  destruct (K8s.includes (ep_entity_key cause) "api");
  destruct (K8s.includes (ep_entity_key cause) "cache");
  destruct (Qle_bool (3 # 4) (maxSeverity situation));
  (split; [simpl; lia|]);
  (split; [by apply (bool_decide_unpack _); vm_compute|]);
  by apply (bool_decide_unpack _); vm_compute.
Qed.

End ActionProps.

(** * The K8s threshold engine: keys, emitted alerts, cooldown, fingerprints *)

Module K8sProps.
Import K8s Samples Invariants.

Lemma includes_bar_cons (c : ascii) (s : string) :
  includes (String c s) "|" = false -> c <> "|"%char /\ includes s "|" = false.
Proof.
  simpl. intros H. apply orb_false_iff in H as [H1 H2]. split; [|done].
  intros ->. simpl in H1. by destruct s.
Qed.

Lemma split_bar_single (s : string) : includes s "|" = false -> split_bar s = [s].
Proof.
  induction s as [|c s IH]; [done|]. intros H.
  apply includes_bar_cons in H as [Hc Hs]. simpl.
  rewrite decide_False by done. by rewrite (IH Hs).
Qed.

Lemma split_bar_app (s rest : string) :
  includes s "|" = false -> split_bar (s ++ "|" ++ rest) = s :: split_bar rest.
Proof.
  induction s as [|c s IH]; [done|]. intros H.
  apply includes_bar_cons in H as [Hc Hs]. simpl.
  rewrite decide_False by done.
  change (split_bar (s ++ String "|" rest)) with (split_bar (s ++ "|" ++ rest)).
  by rewrite (IH Hs).
Qed.

Lemma split_bar_concat (parts : list string) :
  parts <> [] -> Forall (fun s => includes s "|" = false) parts ->
  split_bar (String.concat "|" parts) = parts.
Proof.
  induction parts as [|s parts IH]; [done|]. intros _ Hall.
  apply Forall_cons in Hall as [Hs Hall].
  destruct parts as [|s' parts]; [by apply split_bar_single|].
  change (String.concat "|" (s :: s' :: parts))
    with (s ++ "|" ++ String.concat "|" (s' :: parts)).
  rewrite split_bar_app by done. f_equal. by apply IH.
Qed.

Lemma getKey_keyField (e : K8sEvent) (rule : Rule) :
  getKey e rule = String.concat "|" (map (keyField e) (key rule)).
Proof. reflexivity. Qed.

Lemma index_of_lookup (x : string) (l : list string) i :
  index_of x l = Some i -> l !! i = Some x.
Proof.
  unfold index_of. destruct (list_find _ l) as [[j y]|] eqn:Hf; simpl; [|done].
  intros [= <-]. apply list_find_Some in Hf as (Hj & -> & _). exact Hj.
Qed.

Lemma index_of_None (x : string) (l : list string) :
  index_of x l = None -> x ∉ l.
Proof.
  unfold index_of. destruct (list_find _ l) as [[j y]|] eqn:Hf; simpl; [done|].
  intros _ Hin. apply list_find_None in Hf.
  eapply Forall_forall in Hf; [|exact Hin]. done.
Qed.

(** X25 (getKey, createAlertFromRule).  When none of the selected key
    fields of an event contains the separator [|], splitting the key gives
    the selected fields back; the synthesized alert then carries the event's
    object kind as its component and, if the rule keys on the object name,
    the event's object name as its pod (the empty string otherwise). *)
Theorem key_parts_round_trip (env : Reading) (rule : Rule) (state : list Z) (e : K8sEvent) :
  Forall (fun sel => includes (keyField e sel) "|" = false) (key rule) ->
  let a := createAlertFromRule env rule (getKey e rule) state e in
  (key rule <> [] -> split_bar (getKey e rule) = map (keyField e) (key rule))
  /\ k_component a = or_empty (involved_kind e)
  /\ k_pod a = (if decide ("involvedObject.name" ∈ key rule)
                then or_empty (involved_name e) else "").
Proof.
  intros Hall. cbv zeta.
  assert (Hsplit : key rule <> [] ->
            split_bar (getKey e rule) = map (keyField e) (key rule)).
  { intros Hne. rewrite getKey_keyField. apply split_bar_concat.
    - by destruct (key rule).
    - apply Forall_forall. intros s Hs.
      apply list_elem_of_In, in_map_iff in Hs as (sel & <- & Hsel).
      eapply Forall_forall in Hall; [exact Hall|by apply list_elem_of_In]. }
  assert (Hpart : forall sel i, index_of sel (key rule) = Some i ->
            split_bar (getKey e rule) !! i = Some (keyField e sel)).
  { intros sel i Hi. apply index_of_lookup in Hi.
    rewrite Hsplit by (intros E; by rewrite E in Hi).
    change (map (keyField e) (key rule)) with (keyField e <$> key rule).
    by rewrite list_lookup_fmap, Hi. }
  split; [exact Hsplit|]. unfold createAlertFromRule. cbn [k_component k_pod]. split.
  - destruct (index_of "involvedObject.kind" (key rule)) as [i|] eqn:Hi; [|done].
    by rewrite (Hpart _ _ Hi).
  - destruct (index_of "involvedObject.name" (key rule)) as [i|] eqn:Hi; simpl.
    + rewrite (Hpart _ _ Hi). simpl. rewrite decide_True; [done|].
      apply index_of_lookup in Hi. by eapply list_elem_of_lookup_2.
    + apply index_of_None in Hi. by rewrite decide_False.
Qed.

Lemma key_parts_round_trip_witness :
  k_pod (createAlertFromRule (envMorning 0 2)
           {| name := "Node not ready";
              key := ["involvedObject.kind"; "involvedObject.name"];
              match_ := [("reason", "NodeNotReady")];
              threshold := 1; rule_severity := critical;
              window := 5 * 60 * 1000; cooldown := 15 * 60 * 1000 |}
           "Node|node-1" [t0] (nodeEvent t0))
  = "node-1".
Proof.
  apply (key_parts_round_trip (envMorning 0 2)
           {| name := "Node not ready";
              key := ["involvedObject.kind"; "involvedObject.name"];
              match_ := [("reason", "NodeNotReady")];
              threshold := 1; rule_severity := critical;
              window := 5 * 60 * 1000; cooldown := 15 * 60 * 1000 |}
           [t0] (nodeEvent t0)).
  repeat constructor.
Defined.


Lemma prune_head (cutoff : Z) (state : list Z) t :
  head (prune cutoff state) = Some t -> cutoff <= t.
Proof.
  induction state as [|x state IH]; simpl; [done|].
  destruct (Z.ltb_spec x cutoff); [exact IH|]. simpl. intros [= <-]. done.
Qed.

Lemma sequence_first (p : Processor) (rule : Rule) (e : K8sEvent) :
  0 <= window rule ->
  ev_ts e - window rule <= default 0 (head (sequenceAfter p rule e)).
Proof.
  intros Hw. unfold sequenceAfter.
  destruct (prune _ _) as [|t l] eqn:Hp; simpl; [lia|].
  eapply prune_head. by rewrite Hp.
Qed.

Lemma sequence_last (p : Processor) (rule : Rule) (e : K8sEvent) :
  default 0 (last (sequenceAfter p rule e)) = ev_ts e.
Proof. unfold sequenceAfter. by rewrite last_snoc. Qed.

Lemma sequence_length (p : Processor) (rule : Rule) (e : K8sEvent) :
  1 <= Z.of_nat (length (sequenceAfter p rule e)).
Proof. unfold sequenceAfter. rewrite length_app. simpl. lia. Qed.

(** What an alert emitted for [rule] on event [e] looks like. *)
Lemma ruleStep_new (env : Reading) (p : Processor) (e : K8sEvent) (rule : Rule) :
  generatedAlerts (ruleStep env p e rule) = generatedAlerts p
  \/ exists a, generatedAlerts (ruleStep env p e rule) = (generatedAlerts p ++ [a])%list
       /\ matches e rule = true
       /\ isInCooldown p (ruleKeyOf rule e) (ev_ts e) = false
       /\ cooldowns (ruleStep env p e rule)
          = <[ruleKeyOf rule e := ev_ts e + cooldown rule]> (cooldowns p)
       /\ tag_rule a = name rule /\ tag_key a = getKey e rule
       /\ k_severity a = rule_severity rule
       /\ threshold rule <= k_count a /\ 1 <= k_count a
       /\ last_ts a = ev_ts e
       /\ (0 <= window rule -> ev_ts e - window rule <= first_ts a).
Proof.
  unfold ruleStep. destruct (matches e rule) eqn:Hm; simpl; [|by left].
  destruct (Z.leb_spec (threshold rule) (Z.of_nat (length (sequenceAfter p rule e))))
    as [Hth|Hth]; simpl; [|by left].
  match goal with |- context [isInCooldown ?q _ _] =>
    change (isInCooldown q (ruleKeyOf rule e) (ev_ts e))
      with (isInCooldown p (ruleKeyOf rule e) (ev_ts e)) end.
  destruct (isInCooldown p (ruleKeyOf rule e) (ev_ts e)) eqn:Hc; simpl; [by left|].
  right. eexists. split; [reflexivity|]. simpl.
  split; [done|]. split; [done|]. split; [done|]. split; [done|]. split; [done|].
  split; [done|]. split; [done|]. split; [apply sequence_length|].
  split; [apply sequence_last|]. apply sequence_first.
Qed.

Lemma ruleStep_cooldowns_same (env : Reading) (p : Processor) (e : K8sEvent) (rule : Rule) :
  generatedAlerts (ruleStep env p e rule) = generatedAlerts p ->
  cooldowns (ruleStep env p e rule) = cooldowns p.
Proof.
  unfold ruleStep. destruct (matches e rule); simpl; [|done].
  destruct (_ && _); simpl; [|done].
  intros H. exfalso. apply (f_equal length) in H. rewrite length_app in H. simpl in H. lia.
Qed.

(** X26 (processEvent, createAlertFromRule).  Processing an event only
    appends to the generated alerts, at most one alert per rule, and every
    appended alert belongs to a rule that matches the event: it carries the
    rule's name, key and severity, a count that is at least the rule's
    threshold (and at least 1), the event time as [last_ts], and a
    [first_ts] that is not before the start of the rule's window. *)
Theorem emitted_alerts_meet_threshold (rules : list Rule) (env : nat -> Reading)
    (p : Processor) (e : K8sEvent) :
  exists new,
    generatedAlerts (processEvent rules env p e) = (generatedAlerts p ++ new)%list
    /\ (length new <= length rules)%nat
    /\ Forall (fun a => exists rule, rule ∈ rules /\ matches e rule = true
                 /\ tag_rule a = name rule /\ tag_key a = getKey e rule
                 /\ k_severity a = rule_severity rule
                 /\ threshold rule <= k_count a /\ 1 <= k_count a
                 /\ last_ts a = ev_ts e
                 /\ (0 <= window rule -> ev_ts e - window rule <= first_ts a)) new.
Proof.
  unfold processEvent.
  assert (H : forall (L : list (nat * Rule)) q,
            (forall ir, ir ∈ L -> ir.2 ∈ rules) ->
            exists new,
              generatedAlerts (fold_left (fun q '(i, rule) => ruleStep (env i) q e rule) L q)
              = (generatedAlerts q ++ new)%list
              /\ (length new <= length L)%nat
              /\ Forall (fun a => exists rule, rule ∈ rules /\ matches e rule = true
                 /\ tag_rule a = name rule /\ tag_key a = getKey e rule
                 /\ k_severity a = rule_severity rule
                 /\ threshold rule <= k_count a /\ 1 <= k_count a
                 /\ last_ts a = ev_ts e
                 /\ (0 <= window rule -> ev_ts e - window rule <= first_ts a)) new).
  { induction L as [|[i rule] L IH]; intros q HL; simpl.
    - exists []. rewrite app_nil_r. split; [done|]. split; [done|constructor].
    - destruct (IH (ruleStep (env i) q e rule)) as (new & Heq & Hlen & Hall).
      { intros ir Hir. apply HL. by right. }
      destruct (ruleStep_new (env i) q e rule) as [Hsame|(a & Ha & Hm & _ & _ & Hrest)].
      + exists new. rewrite Heq, Hsame. split; [done|]. split; [lia|done].
      + exists (a :: new). rewrite Heq, Ha, <- app_assoc. split; [done|].
        split; [simpl; lia|]. constructor; [|done].
        exists rule. split; [apply (HL (i, rule)); by left|]. split; [done|exact Hrest]. }
  destruct (H (imap (fun i r => (i, r)) rules) p) as (new & Heq & Hlen & Hall).
  - intros [i r] Hir. apply elem_of_lookup_imap in Hir as (j & r' & [= -> ->] & Hj).
    simpl. by eapply list_elem_of_lookup_2.
  - exists new. split; [done|]. split; [by rewrite length_imap in Hlen|done].
Qed.


(** What a run maintains: every generated alert has a cooldown entry of its
    rule and key that ends at least [c] after the alert's event, cooldown
    ends are positive, and the alerts are spaced. *)
Lemma ruleStep_spaced (c : Z) (env : Reading) (p : Processor) (e : K8sEvent) (rule : Rule) :
  0 <= c -> c <= cooldown rule -> 0 < ev_ts e ->
  (forall a, a ∈ generatedAlerts p ->
     exists t, cooldowns p !! (tag_rule a ++ "|" ++ tag_key a) = Some t /\ last_ts a + c <= t) ->
  (forall rk t, cooldowns p !! rk = Some t -> 0 < t) ->
  spaced c (generatedAlerts p) ->
  let q := ruleStep env p e rule in
  (forall a, a ∈ generatedAlerts q ->
     exists t, cooldowns q !! (tag_rule a ++ "|" ++ tag_key a) = Some t /\ last_ts a + c <= t)
  /\ (forall rk t, cooldowns q !! rk = Some t -> 0 < t)
  /\ spaced c (generatedAlerts q).
Proof.
  intros Hc Hcd Hts Hcool Hpos Hsp. cbv zeta.
  destruct (ruleStep_new env p e rule)
    as [Hsame|(a & Ha & _ & Hin & Hcs & Hr & Hk & _ & _ & _ & Hlast & _)].
  - rewrite Hsame, (ruleStep_cooldowns_same _ _ _ _ Hsame). done.
  - rewrite Ha, Hcs.
    assert (Hfree : forall t, cooldowns p !! ruleKeyOf rule e = Some t -> t <= ev_ts e).
    { intros t Ht. unfold isInCooldown in Hin. rewrite Ht in Hin.
      specialize (Hpos _ _ Ht).
      apply andb_false_iff in Hin as [Hin|Hin].
      - apply negb_false_iff, Z.eqb_eq in Hin. lia.
      - apply Z.ltb_ge in Hin. done. }
    assert (Hkey : tag_rule a ++ "|" ++ tag_key a = ruleKeyOf rule e)
      by (by rewrite Hr, Hk).
    split; [|split].
    + intros b Hb. apply elem_of_app in Hb as [Hb|Hb].
      * destruct (Hcool b Hb) as (t & Ht & Hle).
        destruct (decide (ruleKeyOf rule e = tag_rule b ++ "|" ++ tag_key b)) as [Heq|Hne].
        -- rewrite <- Heq, lookup_insert_eq. eexists. split; [done|].
           rewrite <- Heq in Ht. specialize (Hfree _ Ht). lia.
        -- rewrite lookup_insert_ne by done. by exists t.
      * apply list_elem_of_singleton in Hb as ->.
        rewrite Hkey, lookup_insert_eq. eexists. split; [done|]. lia.
    + intros rk t. destruct (decide (ruleKeyOf rule e = rk)) as [<-|Hne].
      * rewrite lookup_insert_eq. intros [= <-]. lia.
      * rewrite lookup_insert_ne by done. apply Hpos.
    + intros i j a1 a2 Hi Hj Hij Hrule Hkeyeq.
      destruct (decide (j < length (generatedAlerts p))%nat) as [Hjl|Hjl].
      * rewrite lookup_app_l in Hi, Hj by lia. by eapply Hsp.
      * assert (Hjeq : j = length (generatedAlerts p)).
        { apply lookup_lt_Some in Hj. rewrite length_app in Hj. simpl in Hj. lia. }
        subst j. rewrite lookup_app_l in Hi by lia.
        rewrite list_lookup_middle in Hj by done. injection Hj as <-.
        destruct (Hcool a1 (list_elem_of_lookup_2 _ _ _ Hi)) as (t & Ht & Hle).
        rewrite Hrule, Hkeyeq, Hkey in Ht. specialize (Hfree _ Ht). lia.
Qed.

Lemma processEvent_spaced (c : Z) (rules : list Rule) (env : nat -> Reading)
    (p : Processor) (e : K8sEvent) :
  0 <= c -> Forall (fun r => c <= cooldown r) rules -> 0 < ev_ts e ->
  (forall a, a ∈ generatedAlerts p ->
     exists t, cooldowns p !! (tag_rule a ++ "|" ++ tag_key a) = Some t /\ last_ts a + c <= t) ->
  (forall rk t, cooldowns p !! rk = Some t -> 0 < t) ->
  spaced c (generatedAlerts p) ->
  let q := processEvent rules env p e in
  (forall a, a ∈ generatedAlerts q ->
     exists t, cooldowns q !! (tag_rule a ++ "|" ++ tag_key a) = Some t /\ last_ts a + c <= t)
  /\ (forall rk t, cooldowns q !! rk = Some t -> 0 < t)
  /\ spaced c (generatedAlerts q).
Proof.
  intros Hc Hrules Hts. cbv zeta. unfold processEvent.
  assert (HL : Forall (fun ir : nat * Rule => c <= cooldown ir.2)
                 (imap (fun i r => (i, r)) rules)).
  { apply Forall_forall. intros [i r] Hir.
    apply elem_of_lookup_imap in Hir as (j & r' & [= -> ->] & Hj). simpl.
    eapply Forall_forall in Hrules; [exact Hrules|by eapply list_elem_of_lookup_2]. }
  revert p. induction HL as [|[i rule] L Hr _ IH]; intros p H1 H2 H3; simpl; [done|].
  destruct (ruleStep_spaced c (env i) p e rule Hc Hr Hts H1 H2 H3) as (H1' & H2' & H3').
  by apply IH.
Qed.

Lemma run_from_spaced (c : Z) (rules : list Rule) (env : nat -> nat -> Reading)
    (events : list K8sEvent) :
  0 <= c -> Forall (fun r => c <= cooldown r) rules ->
  Forall (fun e => 0 < ev_ts e) events ->
  forall n p,
  (forall a, a ∈ generatedAlerts p ->
     exists t, cooldowns p !! (tag_rule a ++ "|" ++ tag_key a) = Some t /\ last_ts a + c <= t) ->
  (forall rk t, cooldowns p !! rk = Some t -> 0 < t) ->
  spaced c (generatedAlerts p) ->
  spaced c (generatedAlerts (run_from rules env n p events)).
Proof.
  intros Hc Hrules Hev. induction Hev as [|e events He _ IH]; intros n p H1 H2 H3; simpl.
  - done.
  - destruct (processEvent_spaced c rules (env n) p e Hc Hrules He H1 H2 H3) as (H1' & H2' & H3').
    by apply IH.
Qed.

(** X27 (processEvent, isInCooldown, startCooldown).  In a run over events
    with positive timestamps, two alerts generated for the same rule and key
    are triggered by events that lie at least the cooldown apart: if every
    rule has a cooldown of at least [c], the later alert's [last_ts] is at
    least [c] after the earlier one's. *)
Theorem cooldown_spaces_alerts (c : Z) (rules : list Rule) (env : nat -> nat -> Reading)
    (events : list K8sEvent) :
  0 <= c ->
  Forall (fun r => c <= cooldown r) rules ->
  Forall (fun e => 0 < ev_ts e) events ->
  spaced c (generatedAlerts (run rules env events)).
Proof.
  intros Hc Hrules Hev. unfold run. apply run_from_spaced; try done.
  intros a Ha. by apply elem_of_nil in Ha.
Qed.

Lemma cooldown_spaces_alerts_witness :
  spaced 600000
    (generatedAlerts (run k8sRules envMorning [nodeEvent t0; nodeEvent (t0 + 900000)])).
Proof.
  apply cooldown_spaces_alerts.
  - lia.
  - repeat constructor; simpl; lia.
  - repeat constructor; simpl; unfold t0; lia.
Defined.


Lemma string_app_assoc (s t u : string) : ((s ++ t) ++ u = s ++ (t ++ u))%string.
Proof.
  induction s as [|c s IH]; [done|].
  change (String c ((s ++ t) ++ u) = String c (s ++ (t ++ u)))%string. by rewrite IH.
Qed.

Lemma filter_string_app (f : ascii -> bool) (s t : string) :
  filter_string f (s ++ t) = (filter_string f s ++ filter_string f t)%string.
Proof.
  induction s as [|c s IH]; [done|].
  change (filter_string f (String c (s ++ t))
          = (filter_string f (String c s) ++ filter_string f t)%string).
  simpl. rewrite IH. by destruct (f c).
Qed.

Lemma filter_string_all (f : ascii -> bool) (s : string) :
  Forall (fun c => f c = true) (list_ascii_of_string s) -> filter_string f s = s.
Proof.
  induction s as [|c s IH]; simpl; [done|]. intros H.
  apply Forall_cons in H as [-> H]. by rewrite IH.
Qed.

Lemma filter_string_ok (f : ascii -> bool) (s : string) :
  Forall (fun c => f c = true) (list_ascii_of_string (filter_string f s)).
Proof.
  induction s as [|c s IH]; simpl; [constructor|].
  destruct (f c) eqn:E; [by constructor|done].
Qed.

Lemma substring_prefix (s t : string) :
  String.substring 0 (String.length s) (s ++ t) = s.
Proof.
  induction s as [|c s IH]; [by destruct t|].
  change (String.substring 0 (S (String.length s)) (String c (s ++ t)) = String c s).
  simpl. by rewrite IH.
Qed.

Lemma substring_shape (f : ascii -> bool) (n : nat) (s : string) :
  Forall (fun c => f c = true) (list_ascii_of_string s) ->
  (String.length (String.substring 0 n s) <= n)%nat
  /\ Forall (fun c => f c = true) (list_ascii_of_string (String.substring 0 n s)).
Proof.
  revert n. induction s as [|c s IH]; intros n H.
  - destruct n; simpl; split; (lia || constructor).
  - apply Forall_cons in H as [Hc H]. destruct n as [|n]; simpl.
    + split; [lia|constructor].
    + destruct (IH n H) as [H1 H2]. split; [lia|by constructor].
Qed.

Lemma btoa_triple (a b c : ascii) (rest : string) :
  btoa (String a (String b (String c rest)))
  = (btoa (String a (String b (String c ""))) ++ btoa rest)%string.
Proof. reflexivity. Qed.

Lemma btoa_app (n : nat) : forall pre rest,
  String.length pre = (3 * n)%nat ->
  btoa (pre ++ rest) = (btoa pre ++ btoa rest)%string
  /\ String.length (btoa pre) = (4 * n)%nat.
Proof.
  induction n as [|n IH]; intros pre rest Hlen.
  - destruct pre; [done|simpl in Hlen; lia].
  - destruct pre as [|a [|b [|c pre]]]; simpl in Hlen; try lia.
    destruct (IH pre rest ltac:(lia)) as [H1 H2].
    change (String a (String b (String c pre)) ++ rest)%string
      with (String a (String b (String c (pre ++ rest)))).
    rewrite (btoa_triple a b c (pre ++ rest)), (btoa_triple a b c pre), H1.
    split; [by rewrite string_app_assoc|].
    change (btoa (String a (String b (String c ""))) ++ btoa pre)%string
      with (String (b64char (N_of_ascii a / 4))
             (String (b64char ((N_of_ascii a mod 4) * 16 + N_of_ascii b / 16))
               (String (b64char ((N_of_ascii b mod 16) * 4 + N_of_ascii c / 64))
                 (String (b64char (N_of_ascii c mod 64)) (btoa pre))))).
    simpl. rewrite H2. lia.
Qed.

(** X28 (Alert.generateFingerprint of the enhanced correlator).  A
    fingerprint has at most 16 characters, all of them letters or digits.
    When the title has at least 12 characters whose Base64 encoding holds no
    [+] or [/], the fingerprint is the Base64 encoding of these 12
    characters: the rest of the title, the entity key, the severity and the
    source do not enter it. *)
Theorem fingerprint_from_title_prefix (pre rest entity : string) (sev : Severity)
    (src : string) :
  String.length pre = 12%nat ->
  Forall (fun c => alnum c = true) (list_ascii_of_string (btoa pre)) ->
  generateFingerprint (pre ++ rest) entity sev src = btoa pre
  /\ (forall title, (String.length (generateFingerprint title entity sev src) <= 16)%nat
        /\ Forall (fun c => alnum c = true)
             (list_ascii_of_string (generateFingerprint title entity sev src))).
Proof.
  intros Hlen Hal. split.
  - unfold generateFingerprint. rewrite string_app_assoc.
    destruct (btoa_app 4 pre (rest ++ "|" ++ entity ++ "|" ++ severity_str sev ++ "|" ++ src)
                Hlen) as [-> H16].
    rewrite filter_string_app, (filter_string_all alnum (btoa pre) Hal).
    change 16%nat with (4 * 4)%nat. rewrite <- H16. apply substring_prefix.
  - intros title. unfold generateFingerprint. apply substring_shape, filter_string_ok.
Qed.

Lemma fingerprint_from_title_prefix_witness :
  generateFingerprint ("CrashLoopBac" ++ "kOff bursts") "prod" high "k8s"
  = btoa "CrashLoopBac".
Proof.
  apply fingerprint_from_title_prefix.
  - reflexivity.
  - vm_compute. repeat constructor.
Defined.

End K8sProps.
